(** * PennyLane-Lightning: kernel dispatch, adjoint utilities and the
      reference operation tables

    A shallow embedding of

    - [gates/cpu_kernels/GateImplementationsAVX512.hpp]: the entry points of
      the 512-bit kernel family, which classify wires and hand the amplitude
      buffer to one callee each;
    - [algorithms/AlgUtil.hpp]: application of operation and observable
      records to managed state vectors, with the exception capture around the
      loops over observables;
    - [operations.hpp]: the reference gate matrices and the name tables;
    - the kernel dispatch map exercised by [tests/Test_KernelMap.cpp].

    Sizes are [size_t] values: integers in [Z] with the wrap-around of the
    unsigned 64-bit subtraction written out. *)

From Stdlib Require Import ZArith List Bool Lia Floats Reals Lra Sorted.
From stdpp Require Import base gmap strings list.

Import ListNotations.
Local Open Scope Z_scope.

(** ** Unsigned arithmetic *)

Module Util.

Definition size_t_modulus : Z := 2 ^ 64.

(** [a - b] on [size_t]. *)
Definition size_t_sub (a b : Z) : Z := (a - b) mod size_t_modulus.

(** The reverse wire [num_qubits - wire - 1] as every kernel computes it. *)
Definition rev_wire_of (num_qubits wire : Z) : Z :=
  size_t_sub (size_t_sub num_qubits wire) 1.

End Util.

(** ** Gate operations and kernel identifiers *)

Module GateOperation.

(** The members of [Gates::GateOperation] that the sources name. *)
Inductive t : Set :=
| PauliX | PauliY | PauliZ | Hadamard | S | T
| RX | RY | RZ | PhaseShift | Rot
| CZ | SWAP | IsingXX | IsingYY | IsingZZ | MultiRZ.

Definition eqb (a b : t) : bool :=
  match a, b with
  | PauliX, PauliX | PauliY, PauliY | PauliZ, PauliZ
  | Hadamard, Hadamard | S, S | T, T
  | RX, RX | RY, RY | RZ, RZ | PhaseShift, PhaseShift | Rot, Rot
  | CZ, CZ | SWAP, SWAP | IsingXX, IsingXX | IsingYY, IsingYY
  | IsingZZ, IsingZZ | MultiRZ, MultiRZ => true
  | _, _ => false
  end.

Definition to_nat (g : t) : nat :=
  match g with
  | PauliX => 0 | PauliY => 1 | PauliZ => 2 | Hadamard => 3 | S => 4
  | T => 5 | RX => 6 | RY => 7 | RZ => 8 | PhaseShift => 9 | Rot => 10
  | CZ => 11 | SWAP => 12 | IsingXX => 13 | IsingYY => 14
  | IsingZZ => 15 | MultiRZ => 16
  end%nat.

End GateOperation.

Module KernelType.

(** [Gates::KernelType]: the kernel families. *)
Inductive t : Set := PI | LM | AVX2 | AVX512 | None.

End KernelType.

(** ** The AVX512 kernel family *)

Module GateImplementationsAVX512.

Definition kernel_id : KernelType.t := KernelType.AVX512.
Definition name : string := "AVX512".
Definition packed_bytes : Z := 64.

Definition implemented_gates : list GateOperation.t :=
  [ GateOperation.PauliX;
    GateOperation.PauliY;
    GateOperation.Hadamard;
    GateOperation.S;
    GateOperation.SWAP;
    GateOperation.RX;
    GateOperation.RZ;
    GateOperation.Rot;
    GateOperation.CZ;
    GateOperation.IsingZZ ].

(** The gate operations for which the class defines an [apply] member. *)
Definition defined_gates : list GateOperation.t :=
  [ GateOperation.PauliX;
    GateOperation.PauliY;
    GateOperation.PauliZ;
    GateOperation.S;
    GateOperation.Hadamard;
    GateOperation.RX;
    GateOperation.RZ;
    GateOperation.Rot;
    GateOperation.CZ;
    GateOperation.SWAP;
    GateOperation.IsingZZ ].

(** The two precisions the [static_assert]s admit. *)
Inductive PrecisionT : Set := Float | Double.

Definition sizeof (p : PrecisionT) : Z :=
  match p with Float => 4 | Double => 8 end.

(** [packed_bytes / sizeof(PrecisionT)]: real numbers per register. *)
Definition packed_size (p : PrecisionT) : Z := packed_bytes / sizeof p.

(** Modelled from the spec: [AVX::internal_wires_v], declared in a header
    that is not part of the sources. A register of [packed_size] reals
    holds [packed_size / 2] complex amplitudes, and a wire is internal when
    its reverse wire is below the base-2 logarithm of that count. *)
Definition internal_wires_v (packed_size : Z) : Z := Z.log2 (packed_size / 2).

(** Member functions shared by the generic family and this one. *)
Module Fn.
Inductive t : Set :=
| applySingleQubitOp | applyPauliX | applyPauliY | applyPauliZ
| applyS | applyHadamard | applyRX | applyRZ | applyRot
| applyCZ | applySWAP | applyIsingZZ.
End Fn.

(** The kernel classes of namespace [AVX]. *)
Inductive AVXKernel : Set :=
| ApplySingleQubitOp | ApplyPauliX | ApplyPauliY | ApplyPauliZ
| ApplyS | ApplyHadamard | ApplyRX | ApplyRZ
| ApplyCZ | ApplySWAP | ApplyIsingZZ.

(** The function an entry point hands the buffer to. Template arguments
    are part of the callee, run-time arguments are listed with the call. *)
Inductive Callee : Set :=
| LM (f : Fn.t)
| applyInternal (k : AVXKernel) (rev_wire : Z)
| applyExternal (k : AVXKernel)
| applyInternalInternal (k : AVXKernel) (targs : list Z)
| applyInternalExternal (k : AVXKernel) (targs : list Z)
| applyExternalExternal (k : AVXKernel).

Section EntryPoints.

(** [Arr]: the amplitude buffer pointer; [Mat]: a gate matrix pointer;
    [ParamT]: the angle type with its negation; [getRot]: the matrix
    constructor of [Gates.hpp]. *)
Variables Arr Mat ParamT : Type.
Variable opp : ParamT -> ParamT.
Variable getRot : ParamT -> ParamT -> ParamT -> Mat.

Inductive Arg : Type :=
| a_arr (arr : Arr)
| a_size (n : Z)
| a_wires (wires : list Z)
| a_bool (b : bool)
| a_param (x : ParamT)
| a_matrix (m : Mat).

(** What one entry point does: a failed [assert], one call, or a
    branch marked [PL_UNREACHABLE]. *)
Inductive Effect : Type :=
| AssertFailed
| Call (c : Callee) (args : list Arg)
| Unreachable.

Definition wire_at (wires : list Z) (i : nat) : Z := nth i wires 0.

(** [switch (rev_wire)] with cases 0, 1, 2 (float). *)
Definition switch_float (rev_wire : Z) (case : Z -> Effect)
    (default : Effect) : Effect :=
  match rev_wire with
  | 0 => case 0
  | 1 => case 1
  | 2 => case 2
  | _ => default
  end.

(** [switch (rev_wire)] with cases 0, 1 (double). *)
Definition switch_double (rev_wire : Z) (case : Z -> Effect)
    (default : Effect) : Effect :=
  match rev_wire with
  | 0 => case 0
  | 1 => case 1
  | _ => default
  end.

Definition switch_rev_wire (p : PrecisionT) :=
  match p with Float => switch_float | Double => switch_double end.

Definition applySingleQubitOp (p : PrecisionT) (arr : Arr)
    (num_qubits : Z) (matrix : Mat) (wire : Z) (inverse : bool) : Effect :=
  let rev_wire := Util.rev_wire_of num_qubits wire in
  if num_qubits <? internal_wires_v (packed_size p) then
    Call (LM Fn.applySingleQubitOp)
      [a_arr arr; a_size num_qubits; a_matrix matrix; a_size wire;
       a_bool inverse]
  else
    switch_rev_wire p rev_wire
      (fun r => Call (applyInternal ApplySingleQubitOp r)
                  [a_arr arr; a_size num_qubits; a_matrix matrix;
                   a_bool inverse])
      (Call (applyExternal ApplySingleQubitOp)
         [a_arr arr; a_size num_qubits; a_size rev_wire; a_matrix matrix;
          a_bool inverse]).

(** The shape shared by [applyPauliX], [applyPauliY], [applyPauliZ] and
    [applyHadamard]: the kernels take no argument besides the buffer. *)
Definition apply_fixed (f : Fn.t) (k : AVXKernel) (p : PrecisionT)
    (arr : Arr) (num_qubits : Z) (wires : list Z) (inverse : bool)
    : Effect :=
  if negb (length wires =? 1)%nat then AssertFailed
  else if num_qubits <? internal_wires_v (packed_size p) then
    Call (LM f) [a_arr arr; a_size num_qubits; a_wires wires;
                 a_bool inverse]
  else
    let rev_wire := Util.rev_wire_of num_qubits (wire_at wires 0) in
    switch_rev_wire p rev_wire
      (fun r => Call (applyInternal k r) [a_arr arr; a_size num_qubits])
      (Call (applyExternal k)
         [a_arr arr; a_size num_qubits; a_size rev_wire]).

Definition applyPauliX := apply_fixed Fn.applyPauliX ApplyPauliX.
Definition applyPauliY := apply_fixed Fn.applyPauliY ApplyPauliY.
Definition applyPauliZ := apply_fixed Fn.applyPauliZ ApplyPauliZ.
Definition applyHadamard := apply_fixed Fn.applyHadamard ApplyHadamard.

(** [applyS] writes its own threshold in each precision branch. *)
Definition applyS (p : PrecisionT) (arr : Arr) (num_qubits : Z)
    (wires : list Z) (inverse : bool) : Effect :=
  if negb (length wires =? 1)%nat then AssertFailed
  else
    let lm := Call (LM Fn.applyS)
                [a_arr arr; a_size num_qubits; a_wires wires;
                 a_bool inverse] in
    let rev_wire := Util.rev_wire_of num_qubits (wire_at wires 0) in
    let internal r := Call (applyInternal ApplyS r)
                        [a_arr arr; a_size num_qubits; a_bool inverse] in
    let external := Call (applyExternal ApplyS)
                      [a_arr arr; a_size num_qubits; a_size rev_wire;
                       a_bool inverse] in
    match p with
    | Float =>
        if num_qubits <? 3 then lm
        else switch_float rev_wire internal external
    | Double =>
        if num_qubits <? 2 then lm
        else switch_double rev_wire internal external
    end.

(** The shape shared by [applyRX] and [applyRZ]. *)
Definition apply_angle (f : Fn.t) (k : AVXKernel) (p : PrecisionT)
    (arr : Arr) (num_qubits : Z) (wires : list Z) (inverse : bool)
    (angle : ParamT) : Effect :=
  if negb (length wires =? 1)%nat then AssertFailed
  else if num_qubits <? internal_wires_v (packed_size p) then
    Call (LM f) [a_arr arr; a_size num_qubits; a_wires wires;
                 a_bool inverse; a_param angle]
  else
    let rev_wire := Util.rev_wire_of num_qubits (wire_at wires 0) in
    switch_rev_wire p rev_wire
      (fun r => Call (applyInternal k r)
                  [a_arr arr; a_size num_qubits; a_bool inverse;
                   a_param angle])
      (Call (applyExternal k)
         [a_arr arr; a_size num_qubits; a_size rev_wire; a_bool inverse;
          a_param angle]).

Definition applyRX := apply_angle Fn.applyRX ApplyRX.
Definition applyRZ := apply_angle Fn.applyRZ ApplyRZ.

(** [applyRot] builds the matrix and calls [applySingleQubitOp] of this
    class with the default [inverse = false]. *)
Definition applyRot (p : PrecisionT) (arr : Arr) (num_qubits : Z)
    (wires : list Z) (inverse : bool) (phi theta omega : ParamT)
    : Effect :=
  if negb (length wires =? 1)%nat then AssertFailed
  else
    let rotMat :=
      if inverse then getRot (opp omega) (opp theta) (opp phi)
      else getRot phi theta omega in
    applySingleQubitOp p arr num_qubits rotMat (wire_at wires 0) false.

(** The three-way split of the two-wire kernels with run-time reverse
    wires ([applyCZ], [applyIsingZZ]); [bound] is the literal 3 or 2. *)
Definition split_two (k : AVXKernel) (bound rev_wire0 rev_wire1 : Z)
    (args : list Arg) : Effect :=
  if (rev_wire0 <? bound) && (rev_wire1 <? bound) then
    Call (applyInternalInternal k []) args
  else if Z.min rev_wire0 rev_wire1 <? bound then
    Call (applyInternalExternal k []) args
  else
    Call (applyExternalExternal k) args.

Definition literal_bound (p : PrecisionT) : Z :=
  match p with Float => 3 | Double => 2 end.

Definition applyCZ (p : PrecisionT) (arr : Arr) (num_qubits : Z)
    (wires : list Z) (inverse : bool) : Effect :=
  if negb (length wires =? 2)%nat then AssertFailed
  else if num_qubits <? internal_wires_v (packed_size p) then
    Call (LM Fn.applyCZ) [a_arr arr; a_size num_qubits; a_wires wires;
                          a_bool inverse]
  else
    let rev_wire0 := Util.rev_wire_of num_qubits (wire_at wires 1) in
    let rev_wire1 := Util.rev_wire_of num_qubits (wire_at wires 0) in
    split_two ApplyCZ (literal_bound p) rev_wire0 rev_wire1
      [a_arr arr; a_size num_qubits; a_size rev_wire0; a_size rev_wire1].

Definition applySWAP (p : PrecisionT) (arr : Arr) (num_qubits : Z)
    (wires : list Z) (inverse : bool) : Effect :=
  if negb (length wires =? 2)%nat then AssertFailed
  else
    let lm := Call (LM Fn.applySWAP)
                [a_arr arr; a_size num_qubits; a_wires wires;
                 a_bool inverse] in
    let rev_wire0 := Util.rev_wire_of num_qubits (wire_at wires 1) in
    let rev_wire1 := Util.rev_wire_of num_qubits (wire_at wires 0) in
    let min_rev_wire := Z.min rev_wire0 rev_wire1 in
    let max_rev_wire := Z.max rev_wire0 rev_wire1 in
    let ii a b := Call (applyInternalInternal ApplySWAP [a; b])
                    [a_arr arr; a_size num_qubits] in
    let ie a := Call (applyInternalExternal ApplySWAP [a])
                  [a_arr arr; a_size num_qubits; a_size max_rev_wire] in
    let ee := Call (applyExternalExternal ApplySWAP)
                [a_arr arr; a_size num_qubits; a_size rev_wire0;
                 a_size rev_wire1] in
    match p with
    | Float =>
        if num_qubits <? 3 then lm
        else if (rev_wire0 <? 3) && (rev_wire1 <? 3) then
          match Z.lxor min_rev_wire max_rev_wire with
          | 1 => ii 0 1
          | 2 => ii 0 2
          | 3 => ii 1 2
          | _ => Unreachable
          end
        else if min_rev_wire <? 3 then
          match min_rev_wire with
          | 0 => ie 0
          | 1 => ie 1
          | 2 => ie 2
          | _ => Unreachable
          end
        else ee
    | Double =>
        if num_qubits <? 2 then lm
        else if (rev_wire0 <? 2) && (rev_wire1 <? 2) then ii 0 1
        else if min_rev_wire <? 2 then
          if min_rev_wire =? 0 then ie 0 else ie 1
        else ee
    end.

Definition applyIsingZZ (p : PrecisionT) (arr : Arr) (num_qubits : Z)
    (wires : list Z) (inverse : bool) (angle : ParamT) : Effect :=
  if negb (length wires =? 2)%nat then AssertFailed
  else if num_qubits <? internal_wires_v (packed_size p) then
    Call (LM Fn.applyIsingZZ)
      [a_arr arr; a_size num_qubits; a_wires wires; a_bool inverse;
       a_param angle]
  else
    let rev_wire0 := Util.rev_wire_of num_qubits (wire_at wires 1) in
    let rev_wire1 := Util.rev_wire_of num_qubits (wire_at wires 0) in
    split_two ApplyIsingZZ (literal_bound p) rev_wire0 rev_wire1
      [a_arr arr; a_size num_qubits; a_size rev_wire0; a_size rev_wire1;
       a_bool inverse; a_param angle].

End EntryPoints.

Arguments switch_float {Arr Mat ParamT} rev_wire case default.
Arguments switch_double {Arr Mat ParamT} rev_wire case default.
Arguments switch_rev_wire {Arr Mat ParamT} p.
Arguments applySingleQubitOp {Arr Mat ParamT} p arr num_qubits matrix wire
  inverse.
Arguments applyPauliX {Arr Mat ParamT} p arr num_qubits wires inverse.
Arguments applyPauliY {Arr Mat ParamT} p arr num_qubits wires inverse.
Arguments applyPauliZ {Arr Mat ParamT} p arr num_qubits wires inverse.
Arguments applyHadamard {Arr Mat ParamT} p arr num_qubits wires inverse.
Arguments applyS {Arr Mat ParamT} p arr num_qubits wires inverse.
Arguments applyRX {Arr Mat ParamT} p arr num_qubits wires inverse angle.
Arguments applyRZ {Arr Mat ParamT} p arr num_qubits wires inverse angle.
Arguments applyRot {Arr Mat ParamT} opp getRot p arr num_qubits wires inverse
  phi theta omega.
Arguments applyCZ {Arr Mat ParamT} p arr num_qubits wires inverse.
Arguments applySWAP {Arr Mat ParamT} p arr num_qubits wires inverse.
Arguments applyIsingZZ {Arr Mat ParamT} p arr num_qubits wires inverse angle.
Arguments split_two {Arr Mat ParamT} k bound rev_wire0 rev_wire1 args.
Arguments AssertFailed {Arr Mat ParamT}.
Arguments Unreachable {Arr Mat ParamT}.
Arguments Call {Arr Mat ParamT} c args.
Arguments a_arr {Arr Mat ParamT} arr.
Arguments a_size {Arr Mat ParamT} n.
Arguments a_wires {Arr Mat ParamT} wires.
Arguments a_bool {Arr Mat ParamT} b.
Arguments a_param {Arr Mat ParamT} x.
Arguments a_matrix {Arr Mat ParamT} m.

End GateImplementationsAVX512.

(** ** Adjoint-differentiation utilities ([AlgUtil.hpp]) *)

Module Algorithms.

Section AlgUtil.

(** [CFP_t] is [std::complex<T>], [T] the real parameter type and [Exn]
    the exception objects that calls may throw. *)
Variables CFP_t T Exn : Type.

(** Modelled from the spec: [StateVectorManaged], whose header is not part
    of the sources. A managed state vector owns its amplitude buffer,
    [getDataVector] reads it and [updateData] resets it from another
    buffer. *)
Record StateVectorManaged : Type := { getDataVector : list CFP_t }.

Definition updateData (sv : StateVectorManaged) (new_data : list CFP_t)
    : StateVectorManaged :=
  {| getDataVector := new_data |}.

(** How a statement ends: normally, or with an exception in flight. *)
Inductive Completion : Type :=
| Normal
| Throw (e : Exn).

(** A statement that mutates one state vector in place. *)
Definition Stmt : Type := StateVectorManaged -> StateVectorManaged * Completion.

Definition skip : Stmt := fun sv => (sv, Normal).

(** [c1; c2]: an exception thrown by [c1] skips [c2]. *)
Definition and_then (c1 c2 : Stmt) : Stmt :=
  fun sv =>
    match c1 sv with
    | (sv', Normal) => c2 sv'
    | (sv', Throw e) => (sv', Throw e)
    end.

(** [for (i = 0; i < n; i++) body(i)] without a handler. *)
Fixpoint for_each (body : nat -> Stmt) (idxs : list nat) : Stmt :=
  match idxs with
  | [] => skip
  | i :: rest => and_then (body i) (for_each body rest)
  end.

(** The dispatching members of the state vector class, which the sources
    only call: [applyOperation(name, wires, inverse, params)] and
    [applyMatrix(matrix, wires, inverse)]. *)
Variable applyOperation : string -> list Z -> bool -> list T -> Stmt.
Variable applyMatrix : list CFP_t -> list Z -> bool -> Stmt.

(** [OpsData<T>]: four parallel vectors, one slot per operation. *)
Record OpsData : Type := {
  getOpsName : list string;
  getOpsWires : list (list Z);
  getOpsInverses : list bool;
  getOpsParams : list (list T)
}.

(** Unchecked [operator[]]: only indices below the size are meaningful. *)
Definition at_ {A : Type} (v : list A) (i : nat) (d : A) : A := nth i v d.

Definition applyOperations (operations : OpsData) (adj : bool) : Stmt :=
  for_each
    (fun op_idx =>
       applyOperation (at_ (getOpsName operations) op_idx "")
                      (at_ (getOpsWires operations) op_idx [])
                      (xorb (at_ (getOpsInverses operations) op_idx false) adj)
                      (at_ (getOpsParams operations) op_idx []))
    (seq 0 (length (getOpsName operations))).

Definition applyOperationAdj (operations : OpsData) (op_idx : nat) : Stmt :=
  applyOperation (at_ (getOpsName operations) op_idx "")
                 (at_ (getOpsWires operations) op_idx [])
                 (negb (at_ (getOpsInverses operations) op_idx false))
                 (at_ (getOpsParams operations) op_idx []).

(** [std::variant<std::monostate, std::vector<T>,
    std::vector<std::complex<T>>>]. *)
Inductive param_var_t : Type :=
| monostate
| real_params (param : list T)
| complex_params (param : list CFP_t).

(** [ObsDatum<T>]; [getSize] is the number of names. *)
Record ObsDatum : Type := {
  getObsName : list string;
  getObsParams : list param_var_t;
  getObsWires : list (list Z)
}.

Definition getSize (observable : ObsDatum) : nat :=
  length (getObsName observable).

Definition applyObservable (observable : ObsDatum) : Stmt :=
  for_each
    (fun j =>
       match getObsParams observable with
       | _ :: _ =>
           match at_ (getObsParams observable) j monostate with
           | real_params param =>
               applyOperation (at_ (getObsName observable) j "")
                              (at_ (getObsWires observable) j []) false param
           | complex_params param =>
               applyMatrix param (at_ (getObsWires observable) j []) false
           | monostate =>
               applyOperation (at_ (getObsName observable) j "")
                              (at_ (getObsWires observable) j []) false []
           end
       | [] =>
           applyOperation (at_ (getObsName observable) j "")
                          (at_ (getObsWires observable) j []) false []
       end)
    (seq 0 (getSize observable)).

(** The variables the loops over observables share: the vector of state
    copies and the captured [std::exception_ptr ex]. *)
Definition Captured : Type := list StateVectorManaged * option Exn.

(** [try { body(states[h_i]) } catch (...) { ex = current_exception(); }].
    A slot beyond the vector is not touched: the subscript is unchecked in
    the source, and the facts below assume it in range. *)
Definition try_on (body : Stmt) (h_i : nat) (st : Captured) : Captured :=
  match fst st !! h_i with
  | Some sv =>
      let (sv', c) := body sv in
      (<[h_i := sv']> (fst st),
       match c with Normal => snd st | Throw e => Some e end)
  | None => st
  end.

(** [if (ex) std::rethrow_exception(ex);] *)
Definition rethrow (ex : option Exn) : Completion :=
  match ex with Some e => Throw e | None => Normal end.

(** The memory [applyObservables] works on: the state copies it writes and
    the reference state it reads, an object of its own. *)
Record Memory : Type := {
  states : list StateVectorManaged;
  reference_state : StateVectorManaged
}.

Definition MemCaptured : Type := Memory * option Exn.

(** One iteration of the loop of [applyObservables]. *)
Definition observable_iteration (observables : list ObsDatum) (h_i : nat)
    (st : MemCaptured) : MemCaptured :=
  let m := fst st in
  match observables !! h_i with
  | Some ob =>
      let body := fun sv =>
        applyObservable ob
          (updateData sv (getDataVector (reference_state m))) in
      let (sts, ex) := try_on body h_i (states m, snd st) in
      ({| states := sts; reference_state := reference_state m |}, ex)
  | None => st
  end.

(** The build without OpenMP (the lines under [#if defined(_OPENMP)]
    are compiled out): the loop runs its iterations in index order and the
    exception is rethrown after the loop. The parallel region of the build
    with OpenMP is [AlgUtilOpenMP.applyObservables_omp] and
    [AlgUtilOpenMP.applyOperationsAdj_omp]. *)
Definition applyObservables (observables : list ObsDatum) (m : Memory)
    : Memory * Completion :=
  let num_observables := length observables in
  let st := fold_left (fun st h_i => observable_iteration observables h_i st)
                      (seq 0 num_observables) (m, None) in
  (fst st, rethrow (snd st)).

Definition applyOperationsAdj (operations : OpsData) (op_idx : nat)
    (sts : list StateVectorManaged) : list StateVectorManaged * Completion :=
  let num_states := length sts in
  let st := fold_left
              (fun st obs_idx =>
                 try_on (applyOperationAdj operations op_idx) obs_idx st)
              (seq 0 num_states) (sts, None) in
  (fst st, rethrow (snd st)).

End AlgUtil.

Arguments getDataVector {CFP_t} s.
Arguments Build_StateVectorManaged {CFP_t} getDataVector.
Arguments updateData {CFP_t} sv new_data.
Arguments skip {CFP_t Exn}.
Arguments and_then {CFP_t Exn} c1 c2.
Arguments for_each {CFP_t Exn} body idxs.
Arguments getOpsName {T} o.
Arguments getOpsWires {T} o.
Arguments getOpsInverses {T} o.
Arguments getOpsParams {T} o.
Arguments Build_OpsData {T}.
Arguments getObsName {CFP_t T} o.
Arguments getObsParams {CFP_t T} o.
Arguments getObsWires {CFP_t T} o.
Arguments Build_ObsDatum {CFP_t T}.
Arguments getSize {CFP_t T} observable.
Arguments applyOperations {CFP_t T Exn} applyOperation operations adj.
Arguments applyOperationAdj {CFP_t T Exn} applyOperation operations op_idx.
Arguments applyObservable {CFP_t T Exn} applyOperation applyMatrix observable.
Arguments try_on {CFP_t Exn} body h_i st.
Arguments rethrow {Exn} ex.
Arguments states {CFP_t} m.
Arguments reference_state {CFP_t} m.
Arguments Build_Memory {CFP_t}.
Arguments observable_iteration {CFP_t T Exn} applyOperation applyMatrix
  observables h_i st.
Arguments applyObservables {CFP_t T Exn} applyOperation applyMatrix
  observables m.
Arguments applyOperationsAdj {CFP_t T Exn} applyOperation operations op_idx
  sts.
Arguments Normal {Exn}.
Arguments Throw {Exn} e.
Arguments monostate {CFP_t T}.
Arguments real_params {CFP_t T} param.
Arguments complex_params {CFP_t T} param.

End Algorithms.

(** ** Reference gate matrices and name tables ([operations.hpp]) *)

Module Operations.

Local Open Scope R_scope.

(** [std::complex<double>] in exact arithmetic: real and imaginary part. *)
Definition complex : Type := R * R.

Definition re (z : complex) : R := fst z.
Definition im (z : complex) : R := snd z.
Definition of_real (x : R) : complex := (x, 0).
Definition Cadd (a b : complex) : complex := (re a + re b, im a + im b).
Definition Cmul (a b : complex) : complex :=
  (re a * re b - im a * im b, re a * im b + im a * re b).
Definition Cneg (a : complex) : complex := (- re a, - im a).

(** [std::pow(M_E, z)]: the complex exponential. *)
Definition pow_M_E (z : complex) : complex :=
  (exp (re z) * cos (im z), exp (re z) * sin (im z)).

Definition IMAG : complex := (0, 1).
Definition NEGATIVE_IMAG : complex := (0, -1).

(** A rank-2 tensor of shape (2, 2) and a rank-4 tensor of shape
    (2, 2, 2, 2), as the nested initializer lists of [setValues]. *)
Definition Gate_1q : Type := list (list complex).
Definition Gate_2q : Type := list (list (list (list complex))).

Definition Identity : Gate_1q :=
  [[of_real 1; of_real 0]; [of_real 0; of_real 1]].

Definition X : Gate_1q :=
  [[of_real 0; of_real 1]; [of_real 1; of_real 0]].

Definition RX (parameter : R) : Gate_1q :=
  let c : complex := (cos (parameter / 2), 0) in
  let js : complex := (0, sin (- parameter / 2)) in
  [[c; js]; [js; c]].

Definition Rot (phi theta omega : R) : Gate_1q :=
  let e00 : complex := (0, (- phi - omega) / 2) in
  let e10 : complex := (0, (- phi + omega) / 2) in
  let e01 : complex := (0, (phi - omega) / 2) in
  let e11 : complex := (0, (phi + omega) / 2) in
  let exp00 := pow_M_E e00 in
  let exp10 := pow_M_E e10 in
  let exp01 := pow_M_E e01 in
  let exp11 := pow_M_E e11 in
  let c := cos (theta / 2) in
  let s := sin (theta / 2) in
  [[Cmul exp00 (of_real c); Cmul (Cneg exp01) (of_real s)];
   [Cmul exp10 (of_real s); Cmul exp11 (of_real c)]].

Definition CRX (parameter : R) : Gate_2q :=
  let c : complex := (cos (parameter / 2), 0) in
  let js : complex := (0, sin (- parameter / 2)) in
  [[[[of_real 1; of_real 0]; [of_real 0; of_real 0]];
    [[of_real 0; of_real 1]; [of_real 0; of_real 0]]];
   [[[of_real 0; of_real 0]; [c; js]];
    [[of_real 0; of_real 0]; [js; c]]]].

Definition CRY (parameter : R) : Gate_2q :=
  let c := cos (parameter / 2) in
  let s := sin (parameter / 2) in
  [[[[of_real 1; of_real 0]; [of_real 0; of_real 0]];
    [[of_real 0; of_real 1]; [of_real 0; of_real 0]]];
   [[[of_real 0; of_real 0]; [of_real c; of_real (- s)]];
    [[of_real 0; of_real 0]; [of_real s; of_real c]]]].

Definition CRZ (parameter : R) : Gate_2q :=
  let exponent : complex := (0, - parameter / 2) in
  let exponent_second : complex := (0, parameter / 2) in
  let first := pow_M_E exponent in
  let second := pow_M_E exponent_second in
  [[[[of_real 1; of_real 0]; [of_real 0; of_real 0]];
    [[of_real 0; of_real 1]; [of_real 0; of_real 0]]];
   [[[of_real 0; of_real 0]; [first; of_real 0]];
    [[of_real 0; of_real 0]; [of_real 0; second]]]].

Definition pfunc_2q_one_param : Type := R -> Gate_2q.

(** What a [std::map] built from an initializer list keeps of two entries
    with one key. The standard leaves the choice open; the usual libraries
    keep the first. *)
Inductive DuplicatePolicy : Set := KeepFirst | KeepLast.

(** Insertion of one initializer entry under a policy. *)
Definition init_insert {V : Type} (policy : DuplicatePolicy)
    (m : gmap string V) (kv : string * V) : gmap string V :=
  match policy, m !! kv.1 with
  | KeepFirst, Some _ => m
  | _, _ => <[kv.1 := kv.2]> m
  end.

(** [std::map<std::string, V>{ {k1, v1}, {k2, v2}, ... }]. *)
Definition std_map {V : Type} (policy : DuplicatePolicy)
    (init : list (string * V)) : gmap string V :=
  fold_left (init_insert policy) init ∅.

Definition TwoQubitOpsOneParam_init : list (string * pfunc_2q_one_param) :=
  [ ("CRY"%string, CRX);
    ("CRY"%string, CRY);
    ("CRZ"%string, CRZ) ].

Definition TwoQubitOpsOneParam (policy : DuplicatePolicy)
    : gmap string pfunc_2q_one_param :=
  std_map policy TwoQubitOpsOneParam_init.

(** Matrix product and the 2x2 entries, for the algebra of the gates. *)
Definition entry (g : Gate_1q) (i j : nat) : complex :=
  nth j (nth i g []) (of_real 0).

Definition Gate_1q_mul (a b : Gate_1q) : Gate_1q :=
  [[Cadd (Cmul (entry a 0 0) (entry b 0 0))
         (Cmul (entry a 0 1) (entry b 1 0));
    Cadd (Cmul (entry a 0 0) (entry b 0 1))
         (Cmul (entry a 0 1) (entry b 1 1))];
   [Cadd (Cmul (entry a 1 0) (entry b 0 0))
         (Cmul (entry a 1 1) (entry b 1 0));
    Cadd (Cmul (entry a 1 0) (entry b 0 1))
         (Cmul (entry a 1 1) (entry b 1 1))]].

Definition entry4 (g : Gate_2q) (i j k l : nat) : complex :=
  nth l (nth k (nth j (nth i g []) []) []) (of_real 0).

End Operations.

(** ** The kernel dispatch map *)

Module KernelMap.

(** Modelled from the spec: the header of the dispatch map is not part of
    the sources, which only exercise it in [tests/Test_KernelMap.cpp]. The
    definitions of this module follow the specification of the registry: a
    map from (operation, thread model, memory alignment) to a set of entries
    ordered by priority, each with a half-open interval of qubit counts. *)
Inductive Threading : Set := SingleThread | MultiThread.

(** Modelled from the spec: the memory-alignment classes. *)
Inductive CPUMemoryModel : Set := Unaligned | Aligned.

(** Modelled from the spec: [Util::IntegerInterval], the interval
    [[min_, max_)] of qubit counts. *)
Record IntegerInterval : Set := { min_ : Z; max_ : Z }.

Definition contains (i : IntegerInterval) (n : Z) : bool :=
  (min_ i <=? n) && (n <? max_ i).

(** Two intervals overlap when some qubit count lies in both. *)
Definition overlaps (i j : IntegerInterval) : bool :=
  Z.max (min_ i) (min_ j) <? Z.min (max_ i) (max_ j).

(** Modelled from the spec: [Util::full_domain<size_t>()], every count. *)
Definition full_domain : IntegerInterval :=
  {| min_ := 0; max_ := Util.size_t_modulus |}.

(** Modelled from the spec: one dispatch entry. *)
Record DispatchElement : Set := {
  priority : Z;
  interval : IntegerInterval;
  kernel : KernelType.t
}.

(** Modelled from the spec: the configuration errors of the registry. The
    test fixes the text of the first. *)
Inductive Error : Set :=
| CannotFindKernel
| KernelNotAllowed
| IntervalConflict.

Definition what (e : Error) : string :=
  match e with
  | CannotFindKernel => "Cannot find a kernel"
  | KernelNotAllowed => "kernel does not implement the operation"
  | IntervalConflict => "interval conflicts with an existing entry"
  end.

(** [Catch::Matchers::Contains]. *)
Definition Contains (sub s : string) : bool :=
  match String.index 0 sub s with Some _ => true | _ => false end.

(** Modelled from the spec: the entries of one key, highest priority
    first. *)
Definition PriorityDispatchSet : Set := list DispatchElement.

Definition conflict (pds : PriorityDispatchSet) (test_priority : Z)
    (test_interval : IntegerInterval) : bool :=
  existsb (fun e => (priority e =? test_priority)
                    && overlaps (interval e) test_interval) pds.

Fixpoint insert_ordered (elt : DispatchElement) (pds : PriorityDispatchSet)
    : PriorityDispatchSet :=
  match pds with
  | [] => [elt]
  | e :: rest =>
      if priority e <? priority elt then elt :: e :: rest
      else e :: insert_ordered elt rest
  end.

Definition emplace (pds : PriorityDispatchSet) (p : Z) (i : IntegerInterval)
    (k : KernelType.t) : PriorityDispatchSet :=
  insert_ordered {| priority := p; interval := i; kernel := k |} pds.

(** The kernel of the first entry, in descending priority, whose interval
    contains the qubit count. *)
Definition getKernel (pds : PriorityDispatchSet) (num_qubits : Z)
    : Error + KernelType.t :=
  match List.find (fun e => contains (interval e) num_qubits) pds with
  | Some e => inr (kernel e)
  | _ => inl CannotFindKernel
  end.

Definition clearPriority (pds : PriorityDispatchSet) (remove_priority : Z)
    : PriorityDispatchSet :=
  List.filter (fun e => negb (priority e =? remove_priority)) pds.

Definition Key : Set := nat * bool * bool.

Definition key_of (op : GateOperation.t) (threading : Threading)
    (memory_model : CPUMemoryModel) : Key :=
  (GateOperation.to_nat op,
   match threading with SingleThread => false | MultiThread => true end,
   match memory_model with Unaligned => false | Aligned => true end).

Section Registry.

(** The operations each of the families whose class is not part of the
    sources claims. *)
Variable other_families : KernelType.t -> list GateOperation.t.

(** The operations a kernel descriptor claims: [implemented_gates] of the
    class; [KernelType::None] names no implementation. *)
Definition implemented_gates_of (k : KernelType.t) : list GateOperation.t :=
  match k with
  | KernelType.AVX512 => GateImplementationsAVX512.implemented_gates
  | KernelType.None => []
  | _ => other_families k
  end.

Definition implements (k : KernelType.t) (op : GateOperation.t) : bool :=
  existsb (GateOperation.eqb op) (implemented_gates_of k).

Definition entries (m : gmap Key PriorityDispatchSet) (op : GateOperation.t)
    (threading : Threading) (memory_model : CPUMemoryModel)
    : PriorityDispatchSet :=
  default [] (m !! key_of op threading memory_model).

(** Modelled from the spec: registration. The result is the registry after
    the call and the error raised, if any. *)
Definition assignKernelForOp (op : GateOperation.t) (threading : Threading)
    (memory_model : CPUMemoryModel) (p : Z) (i : IntegerInterval)
    (k : KernelType.t) (m : gmap Key PriorityDispatchSet)
    : gmap Key PriorityDispatchSet * option Error :=
  if negb (implements k op) then (m, Some KernelNotAllowed)
  else
    let pds := entries m op threading memory_model in
    if conflict pds p i then (m, Some IntervalConflict)
    else (<[key_of op threading memory_model := emplace pds p i k]> m,
          Datatypes.None).

(** Modelled from the spec: removal of the entries of one priority. *)
Definition removeKernelForOp (op : GateOperation.t) (threading : Threading)
    (memory_model : CPUMemoryModel) (p : Z)
    (m : gmap Key PriorityDispatchSet) : gmap Key PriorityDispatchSet :=
  match m !! key_of op threading memory_model with
  | Some pds => <[key_of op threading memory_model := clearPriority pds p]> m
  | _ => m
  end.

(** Modelled from the spec: the query. *)
Definition resolve (op : GateOperation.t) (threading : Threading)
    (memory_model : CPUMemoryModel) (num_qubits : Z)
    (m : gmap Key PriorityDispatchSet) : Error + KernelType.t :=
  getKernel (entries m op threading memory_model) num_qubits.

(** The calls that change the registry. *)
Inductive Command : Set :=
| Assign (op : GateOperation.t) (threading : Threading)
    (memory_model : CPUMemoryModel) (p : Z) (i : IntegerInterval)
    (k : KernelType.t)
| Remove (op : GateOperation.t) (threading : Threading)
    (memory_model : CPUMemoryModel) (p : Z).

Definition run (m : gmap Key PriorityDispatchSet) (c : Command)
    : gmap Key PriorityDispatchSet :=
  match c with
  | Assign op threading memory_model p i k =>
      fst (assignKernelForOp op threading memory_model p i k m)
  | Remove op threading memory_model p =>
      removeKernelForOp op threading memory_model p m
  end.

End Registry.

End KernelMap.

(** * Facts *)

(** ** Wire classification and the crossover guard of the AVX512 family *)

Module AVX512Facts.

Import GateImplementationsAVX512.

(** The classification of the specification: a reverse wire is internal
    when it is below the base-2 logarithm of the number of amplitudes in
    one register. *)
Definition is_internal (p : PrecisionT) (rev_wire : Z) : bool :=
  rev_wire <? internal_wires_v (packed_size p).

Lemma internal_wires_literal (p : PrecisionT) :
  internal_wires_v (packed_size p) = literal_bound p.
Proof. destruct p; reflexivity. Qed.

Lemma rev_wire_of_in_range (num_qubits wire : Z) :
  0 <= wire < num_qubits -> num_qubits < Util.size_t_modulus ->
  Util.rev_wire_of num_qubits wire = num_qubits - wire - 1.
Proof.
  intros Hw Hn. unfold Util.rev_wire_of, Util.size_t_sub.
  rewrite (Z.mod_small (num_qubits - wire)) by lia.
  apply Z.mod_small. lia.
Qed.

(** An out-of-range wire wraps around instead of going negative. *)
Lemma rev_wire_of_wraps :
  Util.rev_wire_of 3 3 = Util.size_t_modulus - 1.
Proof. reflexivity. Qed.

Section Dispatch.

Variables Arr Mat ParamT : Type.
Variable opp : ParamT -> ParamT.
Variable getRot : ParamT -> ParamT -> ParamT -> Mat.

Local Abbreviation Effect := (Effect Arr Mat ParamT).

Lemma switch_float_spec (r : Z) (case : Z -> Effect) (d : Effect) :
  0 <= r -> switch_float r case d = if r <? 3 then case r else d.
Proof.
  intros Hr. destruct r as [|q|q]; [reflexivity| |lia].
  destruct q as [[q|q|]|[q|q|]|]; reflexivity.
Qed.

Lemma switch_double_spec (r : Z) (case : Z -> Effect) (d : Effect) :
  0 <= r -> switch_double r case d = if r <? 2 then case r else d.
Proof.
  intros Hr. destruct r as [|q|q]; [reflexivity| |lia].
  destruct q as [[q|q|]|[q|q|]|]; reflexivity.
Qed.

Lemma switch_rev_wire_spec (p : PrecisionT) (r : Z) (case : Z -> Effect)
    (d : Effect) :
  0 <= r ->
  switch_rev_wire p r case d = if is_internal p r then case r else d.
Proof.
  intros Hr. unfold is_internal. rewrite internal_wires_literal.
  destruct p; [apply switch_float_spec | apply switch_double_spec]; exact Hr.
Qed.

Lemma is_internal_min (p : PrecisionT) (r0 r1 : Z) :
  is_internal p (Z.min r0 r1) = is_internal p r0 || is_internal p r1.
Proof.
  unfold is_internal.
  destruct (Z.ltb_spec r0 (internal_wires_v (packed_size p)));
    destruct (Z.ltb_spec r1 (internal_wires_v (packed_size p))); simpl;
    [apply Z.ltb_lt | apply Z.ltb_lt | apply Z.ltb_lt | apply Z.ltb_ge]; lia.
Qed.

(** The arguments every entry point forwards to the generic family. *)
Definition lm_args (arr : Arr) (num_qubits : Z) (wires : list Z)
    (inverse : bool) : list (Arg Arr Mat ParamT) :=
  [a_arr arr; a_size num_qubits; a_wires wires; a_bool inverse].

(** The matrix [applyRot] synthesises. *)
Definition rotMat (inverse : bool) (phi theta omega : ParamT) : Mat :=
  if inverse then getRot (opp omega) (opp theta) (opp phi)
  else getRot phi theta omega.

(** C5, in the form that holds: below the internal-wire count of the
    precision, every entry point with a generic counterpart of its own makes
    exactly one call,
    to that counterpart of [GateImplementationsLM], with the arguments it
    received; this covers [applyS] and [applySWAP], whose literal thresholds
    3 and 2 equal the internal-wire counts. [applyRot] takes no vectorised
    path either, but hands the matrix it built to the generic
    [applySingleQubitOp] with [inverse = false]. *)
Theorem crossover_guard_delegates (p : PrecisionT) (arr : Arr)
    (num_qubits : Z) (wires wires2 : list Z) (matrix : Mat) (wire : Z)
    (inverse : bool) (angle phi theta omega : ParamT) :
  length wires = 1%nat ->
  length wires2 = 2%nat ->
  num_qubits < internal_wires_v (packed_size p) ->
  internal_wires_v (packed_size p) = literal_bound p
  /\ applySingleQubitOp p arr num_qubits matrix wire inverse
     =@{Effect} Call (LM Fn.applySingleQubitOp)
         [a_arr arr; a_size num_qubits; a_matrix matrix; a_size wire;
          a_bool inverse]
  /\ applyPauliX p arr num_qubits wires inverse
     =@{Effect} Call (LM Fn.applyPauliX) (lm_args arr num_qubits wires inverse)
  /\ applyPauliY p arr num_qubits wires inverse
     =@{Effect} Call (LM Fn.applyPauliY) (lm_args arr num_qubits wires inverse)
  /\ applyPauliZ p arr num_qubits wires inverse
     =@{Effect} Call (LM Fn.applyPauliZ) (lm_args arr num_qubits wires inverse)
  /\ applyS p arr num_qubits wires inverse
     =@{Effect} Call (LM Fn.applyS) (lm_args arr num_qubits wires inverse)
  /\ applyHadamard p arr num_qubits wires inverse
     =@{Effect} Call (LM Fn.applyHadamard)
                  (lm_args arr num_qubits wires inverse)
  /\ applyRX p arr num_qubits wires inverse angle
     =@{Effect} Call (LM Fn.applyRX)
         (lm_args arr num_qubits wires inverse ++ [a_param angle])
  /\ applyRZ p arr num_qubits wires inverse angle
     =@{Effect} Call (LM Fn.applyRZ)
         (lm_args arr num_qubits wires inverse ++ [a_param angle])
  /\ applyCZ p arr num_qubits wires2 inverse
     =@{Effect} Call (LM Fn.applyCZ) (lm_args arr num_qubits wires2 inverse)
  /\ applySWAP p arr num_qubits wires2 inverse
     =@{Effect} Call (LM Fn.applySWAP) (lm_args arr num_qubits wires2 inverse)
  /\ applyIsingZZ p arr num_qubits wires2 inverse angle
     =@{Effect} Call (LM Fn.applyIsingZZ)
         (lm_args arr num_qubits wires2 inverse ++ [a_param angle])
  /\ applyRot opp getRot p arr num_qubits wires inverse phi theta omega
     =@{Effect} Call (LM Fn.applySingleQubitOp)
         [a_arr arr; a_size num_qubits;
          a_matrix (rotMat inverse phi theta omega);
          a_size (wire_at wires 0); a_bool false].
Proof.
  intros H1 H2 Hlt.
  assert (Hguard : (num_qubits <? internal_wires_v (packed_size p)) = true)
    by (apply Z.ltb_lt; exact Hlt).
  assert (Hlit : (num_qubits <? literal_bound p) = true)
    by (rewrite <- internal_wires_literal; exact Hguard).
  split; [apply internal_wires_literal|].
  unfold applyPauliX, applyPauliY, applyPauliZ, applyHadamard, apply_fixed,
    applyRX, applyRZ, apply_angle, applyCZ, applyIsingZZ, applyRot,
    applySingleQubitOp, lm_args, rotMat.
  rewrite H1, H2, Hguard. simpl negb. cbv iota.
  repeat split; try reflexivity.
  - unfold applyS. rewrite H1. destruct p; simpl in Hlit |- *;
      rewrite Hlit; reflexivity.
  - unfold applySWAP. rewrite H2. destruct p; simpl in Hlit |- *;
      rewrite Hlit; reflexivity.
Qed.

(** The effect the classification of the specification selects for a
    one-wire kernel. *)
Definition expected_one (k : AVXKernel) (p : PrecisionT) (r : Z)
    (internal_args external_args : list (Arg Arr Mat ParamT)) : Effect :=
  if is_internal p r then Call (applyInternal k r) internal_args
  else Call (applyExternal k) external_args.

(** The effect it selects for a two-wire kernel with run-time reverse
    wires. *)
Definition expected_two (k : AVXKernel) (p : PrecisionT) (r0 r1 : Z)
    (args : list (Arg Arr Mat ParamT)) : Effect :=
  match is_internal p r0, is_internal p r1 with
  | true, true => Call (applyInternalInternal k []) args
  | false, false => Call (applyExternalExternal k) args
  | _, _ => Call (applyInternalExternal k []) args
  end.

Lemma split_two_spec (k : AVXKernel) (p : PrecisionT) (r0 r1 : Z)
    (args : list (Arg Arr Mat ParamT)) :
  split_two k (literal_bound p) r0 r1 args = expected_two k p r0 r1 args.
Proof.
  unfold split_two, expected_two.
  pose proof (is_internal_min p r0 r1) as Hmin.
  unfold is_internal in *. rewrite internal_wires_literal in *.
  rewrite Hmin.
  destruct (r0 <? literal_bound p), (r1 <? literal_bound p); reflexivity.
Qed.

(** The effect the classification selects for [applySWAP], whose internal
    reverse wires are template arguments. *)
Definition expected_swap (p : PrecisionT) (arr : Arr) (num_qubits r0 r1 : Z)
    : Effect :=
  match is_internal p r0, is_internal p r1 with
  | true, true =>
      Call (applyInternalInternal ApplySWAP [Z.min r0 r1; Z.max r0 r1])
        [a_arr arr; a_size num_qubits]
  | false, false =>
      Call (applyExternalExternal ApplySWAP)
        [a_arr arr; a_size num_qubits; a_size r0; a_size r1]
  | _, _ =>
      Call (applyInternalExternal ApplySWAP [Z.min r0 r1])
        [a_arr arr; a_size num_qubits; a_size (Z.max r0 r1)]
  end.

Lemma guard_not_taken (p : PrecisionT) (num_qubits : Z) :
  internal_wires_v (packed_size p) <= num_qubits ->
  (num_qubits <? internal_wires_v (packed_size p)) = false
  /\ (num_qubits <? literal_bound p) = false.
Proof.
  intros H. rewrite <- internal_wires_literal.
  split; apply Z.ltb_ge; exact H.
Qed.

Lemma applySWAP_vectorised (p : PrecisionT) (arr : Arr)
    (num_qubits wire0 wire1 : Z) (inverse : bool) :
  internal_wires_v (packed_size p) <= num_qubits < Util.size_t_modulus ->
  0 <= wire0 < num_qubits ->
  0 <= wire1 < num_qubits ->
  wire0 <> wire1 ->
  applySWAP p arr num_qubits [wire0; wire1] inverse
  = expected_swap p arr num_qubits
      (num_qubits - wire1 - 1) (num_qubits - wire0 - 1).
Proof.
  intros Hn H0 H1 Hne.
  destruct (guard_not_taken p num_qubits (proj1 Hn)) as [_ Hlit].
  unfold applySWAP, expected_swap, is_internal, wire_at.
  rewrite internal_wires_literal. simpl length. simpl negb. cbv iota.
  simpl nth.
  rewrite !rev_wire_of_in_range by lia.
  assert (Hr0 : 0 <= num_qubits - wire1 - 1) by lia.
  assert (Hr1 : 0 <= num_qubits - wire0 - 1) by lia.
  assert (Hr : num_qubits - wire1 - 1 <> num_qubits - wire0 - 1) by lia.
  generalize dependent (num_qubits - wire1 - 1).
  generalize dependent (num_qubits - wire0 - 1).
  intros r1 Hr1 r0 Hr0 Hr.
  destruct p; simpl in Hlit |- *; rewrite Hlit.
  - destruct (Z.ltb_spec r0 3) as [L0|L0];
      destruct (Z.ltb_spec r1 3) as [L1|L1]; simpl.
    + assert (C0 : r0 = 0 \/ r0 = 1 \/ r0 = 2) by lia.
      assert (C1 : r1 = 0 \/ r1 = 1 \/ r1 = 2) by lia.
      destruct C0 as [->|[->| ->]]; destruct C1 as [->|[->| ->]];
        try reflexivity; congruence.
    + assert (Hmin : Z.min r0 r1 = r0) by lia. rewrite Hmin.
      assert (C0 : r0 = 0 \/ r0 = 1 \/ r0 = 2) by lia.
      destruct C0 as [->|[->| ->]]; reflexivity.
    + assert (Hmin : Z.min r0 r1 = r1) by lia. rewrite Hmin.
      assert (C1 : r1 = 0 \/ r1 = 1 \/ r1 = 2) by lia.
      destruct C1 as [->|[->| ->]]; reflexivity.
    + assert (Hmin : (Z.min r0 r1 <? 3) = false) by (apply Z.ltb_ge; lia).
      rewrite Hmin. reflexivity.
  - destruct (Z.ltb_spec r0 2) as [L0|L0];
      destruct (Z.ltb_spec r1 2) as [L1|L1]; simpl.
    + assert (C0 : r0 = 0 \/ r0 = 1) by lia.
      assert (C1 : r1 = 0 \/ r1 = 1) by lia.
      destruct C0 as [->| ->]; destruct C1 as [->| ->];
        try reflexivity; congruence.
    + assert (Hmin : Z.min r0 r1 = r0) by lia. rewrite Hmin.
      assert (C0 : r0 = 0 \/ r0 = 1) by lia.
      destruct C0 as [->| ->]; reflexivity.
    + assert (Hmin : Z.min r0 r1 = r1) by lia. rewrite Hmin.
      assert (C1 : r1 = 0 \/ r1 = 1) by lia.
      destruct C1 as [->| ->]; reflexivity.
    + assert (Hmin : (Z.min r0 r1 <? 2) = false) by (apply Z.ltb_ge; lia).
      rewrite Hmin. reflexivity.
Qed.

Lemma applyS_vectorised (p : PrecisionT) (arr : Arr)
    (num_qubits wire : Z) (inverse : bool) :
  internal_wires_v (packed_size p) <= num_qubits < Util.size_t_modulus ->
  0 <= wire < num_qubits ->
  applyS p arr num_qubits [wire] inverse
  = expected_one ApplyS p (num_qubits - wire - 1)
      [a_arr arr; a_size num_qubits; a_bool inverse]
      [a_arr arr; a_size num_qubits; a_size (num_qubits - wire - 1);
       a_bool inverse].
Proof.
  intros Hn Hw.
  destruct (guard_not_taken p num_qubits (proj1 Hn)) as [_ Hlit].
  unfold applyS, expected_one, wire_at. simpl length. simpl negb. cbv iota.
  simpl nth. rewrite rev_wire_of_in_range by lia.
  destruct p; simpl in Hlit |- *; rewrite Hlit;
    [rewrite switch_float_spec by lia | rewrite switch_double_spec by lia];
    reflexivity.
Qed.

(** C6, in the form that holds: on a call that the crossover guard does not take
    (the qubit count is at least the internal-wire count, 3 for float and 2
    for double), with wires in range, every entry point addresses the wire
    by its reverse wire [num_qubits - wire - 1]; a one-wire kernel goes to
    [applyInternal] exactly when the reverse wire is internal and to
    [applyExternal] otherwise; a two-wire kernel classifies both reverse
    wires (the first from [wires[1]], the second from [wires[0]]) and goes
    to the internal-internal, internal-external or external-external
    path. *)
Theorem wire_classification_dispatch (p : PrecisionT) (arr : Arr)
    (num_qubits wire wire0 wire1 : Z) (matrix : Mat) (inverse : bool)
    (angle phi theta omega : ParamT) :
  internal_wires_v (packed_size p) <= num_qubits < Util.size_t_modulus ->
  0 <= wire < num_qubits ->
  0 <= wire0 < num_qubits ->
  0 <= wire1 < num_qubits ->
  wire0 <> wire1 ->
  let r := num_qubits - wire - 1 in
  let r0 := num_qubits - wire1 - 1 in
  let r1 := num_qubits - wire0 - 1 in
  Util.rev_wire_of num_qubits wire = r
  /\ is_internal p r = (r <? match p with Float => 3 | Double => 2 end)
  /\ applySingleQubitOp p arr num_qubits matrix wire inverse
     = expected_one ApplySingleQubitOp p r
         [a_arr arr; a_size num_qubits; a_matrix matrix; a_bool inverse]
         [a_arr arr; a_size num_qubits; a_size r; a_matrix matrix;
          a_bool inverse]
  /\ applyPauliX p arr num_qubits [wire] inverse
     = expected_one ApplyPauliX p r [a_arr arr; a_size num_qubits]
         [a_arr arr; a_size num_qubits; a_size r]
  /\ applyPauliY p arr num_qubits [wire] inverse
     = expected_one ApplyPauliY p r [a_arr arr; a_size num_qubits]
         [a_arr arr; a_size num_qubits; a_size r]
  /\ applyPauliZ p arr num_qubits [wire] inverse
     = expected_one ApplyPauliZ p r [a_arr arr; a_size num_qubits]
         [a_arr arr; a_size num_qubits; a_size r]
  /\ applyHadamard p arr num_qubits [wire] inverse
     = expected_one ApplyHadamard p r [a_arr arr; a_size num_qubits]
         [a_arr arr; a_size num_qubits; a_size r]
  /\ applyS p arr num_qubits [wire] inverse
     = expected_one ApplyS p r
         [a_arr arr; a_size num_qubits; a_bool inverse]
         [a_arr arr; a_size num_qubits; a_size r; a_bool inverse]
  /\ applyRX p arr num_qubits [wire] inverse angle
     = expected_one ApplyRX p r
         [a_arr arr; a_size num_qubits; a_bool inverse; a_param angle]
         [a_arr arr; a_size num_qubits; a_size r; a_bool inverse;
          a_param angle]
  /\ applyRZ p arr num_qubits [wire] inverse angle
     = expected_one ApplyRZ p r
         [a_arr arr; a_size num_qubits; a_bool inverse; a_param angle]
         [a_arr arr; a_size num_qubits; a_size r; a_bool inverse;
          a_param angle]
  /\ applyRot opp getRot p arr num_qubits [wire] inverse phi theta omega
     = expected_one ApplySingleQubitOp p r
         [a_arr arr; a_size num_qubits;
          a_matrix (rotMat inverse phi theta omega); a_bool false]
         [a_arr arr; a_size num_qubits; a_size r;
          a_matrix (rotMat inverse phi theta omega); a_bool false]
  /\ applyCZ p arr num_qubits [wire0; wire1] inverse
     = expected_two ApplyCZ p r0 r1
         [a_arr arr; a_size num_qubits; a_size r0; a_size r1]
  /\ applyIsingZZ p arr num_qubits [wire0; wire1] inverse angle
     = expected_two ApplyIsingZZ p r0 r1
         [a_arr arr; a_size num_qubits; a_size r0; a_size r1;
          a_bool inverse; a_param angle]
  /\ applySWAP p arr num_qubits [wire0; wire1] inverse
     = expected_swap p arr num_qubits r0 r1.
Proof.
  intros Hn Hw H0 H1 Hne r r0 r1. subst r r0 r1.
  destruct (guard_not_taken p num_qubits (proj1 Hn)) as [Hguard _].
  split; [apply rev_wire_of_in_range; lia|].
  split; [unfold is_internal; rewrite internal_wires_literal;
          destruct p; reflexivity|].
  unfold applyPauliX, applyPauliY, applyPauliZ, applyHadamard, apply_fixed,
    applyRX, applyRZ, apply_angle, applyCZ, applyIsingZZ, applyRot,
    applySingleQubitOp, expected_one, rotMat, wire_at.
  simpl length. simpl negb. cbv iota. simpl nth.
  rewrite Hguard, !split_two_spec, !rev_wire_of_in_range by lia.
  rewrite !switch_rev_wire_spec by lia.
  repeat split; try reflexivity.
  - apply applyS_vectorised; assumption.
  - apply applySWAP_vectorised; assumption.
Qed.

(** On the vectorised path the kernels of the gates that are their own
    inverse are called without the flag: the call is the same for
    [inverse = true] and [inverse = false]. *)
Lemma self_inverse_gates_ignore_flag (p : PrecisionT) (arr : Arr)
    (num_qubits : Z) (wires : list Z) (inverse : bool) :
  internal_wires_v (packed_size p) <= num_qubits ->
  applyPauliX p arr num_qubits wires inverse
  =@{Effect} applyPauliX p arr num_qubits wires (negb inverse)
  /\ applyPauliY p arr num_qubits wires inverse
     =@{Effect} applyPauliY p arr num_qubits wires (negb inverse)
  /\ applyPauliZ p arr num_qubits wires inverse
     =@{Effect} applyPauliZ p arr num_qubits wires (negb inverse)
  /\ applyHadamard p arr num_qubits wires inverse
     =@{Effect} applyHadamard p arr num_qubits wires (negb inverse)
  /\ applyCZ p arr num_qubits wires inverse
     =@{Effect} applyCZ p arr num_qubits wires (negb inverse)
  /\ applySWAP p arr num_qubits wires inverse
     =@{Effect} applySWAP p arr num_qubits wires (negb inverse).
Proof.
  intros Hn. destruct (guard_not_taken p num_qubits Hn) as [Hguard Hlit].
  unfold applyPauliX, applyPauliY, applyPauliZ, applyHadamard, apply_fixed,
    applyCZ, applySWAP.
  rewrite Hguard.
  repeat split; try reflexivity.
  destruct (negb (length wires =? 2)%nat); [reflexivity|].
  destruct p; simpl in Hlit |- *; rewrite Hlit; reflexivity.
Qed.

End Dispatch.

(** A concrete instance: the buffer is named by its address, angles are
    binary64 numbers and a matrix by the angles it is built from. *)
Definition getRot_symbolic (phi theta omega : float) : float * float * float :=
  (phi, theta, omega).

(** The guard fires for one qubit in double precision. *)
Lemma crossover_guard_delegates_witness :
  1 < internal_wires_v (packed_size Double)
  /\ applyS (Mat := float * float * float) (ParamT := float)
       Double 4096 1 [0] true
     = Call (LM Fn.applyS) [a_arr 4096; a_size 1; a_wires [0]; a_bool true]
  /\ applySWAP (Mat := float * float * float) (ParamT := float)
       Double 4096 1 [0; 1] false
     = Call (LM Fn.applySWAP)
         [a_arr 4096; a_size 1; a_wires [0; 1]; a_bool false].
Proof.
  assert (Hlt : 1 < internal_wires_v (packed_size Double)) by reflexivity.
  pose proof (crossover_guard_delegates Z (float * float * float) float
                PrimFloat.opp getRot_symbolic Double 4096 1 [0] [0; 1]
                (0, 0, 0)%float 0 true 0.5%float 0.5%float 0.25%float
                0.125%float eq_refl eq_refl Hlt) as H.
  split; [exact Hlt|].
  split; [apply H|].
  pose proof (crossover_guard_delegates Z (float * float * float) float
                PrimFloat.opp getRot_symbolic Double 4096 1 [0] [0; 1]
                (0, 0, 0)%float 0 false 0.5%float 0.5%float 0.25%float
                0.125%float eq_refl eq_refl Hlt) as H'.
  apply H'.
Defined.

(** C5 as stated fails for [applyRot]: on one qubit in double precision
    with [inverse = true] it does not call the generic [applyRot] with the
    arguments it received, but the generic [applySingleQubitOp]. *)
Lemma applyRot_does_not_delegate_to_LM_applyRot :
  1 < internal_wires_v (packed_size Double)
  /\ applyRot PrimFloat.opp getRot_symbolic Double 4096 1 [0] true
       0.5%float 0.25%float 0.125%float
     <> Call (LM Fn.applyRot)
          [a_arr 4096; a_size 1; a_wires [0]; a_bool true;
           a_param 0.5%float; a_param 0.25%float; a_param 0.125%float]
  /\ applyRot PrimFloat.opp getRot_symbolic Double 4096 1 [0] true
       0.5%float 0.25%float 0.125%float
     = Call (LM Fn.applySingleQubitOp)
         [a_arr 4096; a_size 1;
          a_matrix ((-0.125)%float, (-0.25)%float, (-0.5)%float);
          a_size 0; a_bool false].
Proof.
  split; [reflexivity|]. split; [discriminate|].
  vm_compute. reflexivity.
Qed.

(** Four qubits in float precision: wire 1 is internal (reverse wire 2),
    wire 0 is external (reverse wire 3). *)
Lemma wire_classification_dispatch_witness :
  applyPauliX (Mat := float * float * float) (ParamT := float)
    Float 4096 4 [1] false
  = Call (applyInternal ApplyPauliX 2) [a_arr 4096; a_size 4]
  /\ applySWAP (Mat := float * float * float) (ParamT := float)
       Float 4096 4 [0; 1] false
     = Call (applyInternalExternal ApplySWAP [2])
         [a_arr 4096; a_size 4; a_size 3].
Proof.
  assert (Hn : internal_wires_v (packed_size Float) <= 4 < Util.size_t_modulus)
    by (split; [discriminate | reflexivity]).
  assert (Hw : 0 <= 1 < 4) by lia.
  assert (H0 : 0 <= 0 < 4) by lia.
  assert (Hne : 0 <> 1) by discriminate.
  pose proof (wire_classification_dispatch Z (float * float * float) float
                PrimFloat.opp getRot_symbolic Float 4096 4 1 0 1
                (0, 0, 0)%float false 0.5%float 0.5%float 0.25%float
                0.125%float Hn Hw H0 Hw Hne) as H.
  cbv zeta in H.
  split; [apply H | apply H].
Defined.

(** C6 as stated fails below the guard: on one qubit in float precision
    the reverse wire of wire 0 is 0, below 3, yet [applyPauliX] does not
    take the internal path; it calls the generic family. *)
Lemma internal_wire_below_guard_goes_to_LM :
  (Util.rev_wire_of 1 0 <? 3) = true
  /\ applyPauliX (Mat := float * float * float) (ParamT := float)
       Float 4096 1 [0] false
     <> Call (applyInternal ApplyPauliX 0) [a_arr 4096; a_size 1]
  /\ applyPauliX (Mat := float * float * float) (ParamT := float)
       Float 4096 1 [0] false
     = Call (LM Fn.applyPauliX)
         [a_arr 4096; a_size 1; a_wires [0]; a_bool false].
Proof.
  split; [reflexivity|]. split; [discriminate|]. reflexivity.
Qed.

End AVX512Facts.

(** ** Loops over observables: effects, frames and the captured exception *)

Module AlgUtilFacts.

Import Algorithms.

Local Open Scope nat_scope.

Section Loops.

Variables CFP_t T Exn : Type.
Variable applyOperation :
  string -> list Z -> bool -> list T -> Stmt CFP_t Exn.
Variable applyMatrix : list CFP_t -> list Z -> bool -> Stmt CFP_t Exn.

Local Abbreviation SV := (StateVectorManaged CFP_t).
Local Abbreviation Stmt := (Stmt CFP_t Exn).
Local Abbreviation Captured := (Captured CFP_t Exn).

(** One iteration of a loop whose body for index [i] is [bodies i]. *)
Definition step (bodies : nat -> option Stmt) (st : Captured) (i : nat)
    : Captured :=
  match bodies i with
  | Some b => try_on b i st
  | None => st
  end.

Definition loop (bodies : nat -> option Stmt) (n : nat) (st : Captured)
    : Captured :=
  fold_left (step bodies) (seq 0 n) st.

Lemma try_on_length (b : Stmt) (i : nat) (st : Captured) :
  length (fst (try_on b i st)) = length (fst st).
Proof.
  unfold try_on. destruct (fst st !! i) as [sv|]; [|reflexivity].
  destruct (b sv) as [sv' c]. simpl. apply length_insert.
Qed.

Lemma try_on_lookup_ne (b : Stmt) (i j : nat) (st : Captured) :
  i <> j -> fst (try_on b i st) !! j = fst st !! j.
Proof.
  intros Hne. unfold try_on. destruct (fst st !! i) as [sv|]; [|reflexivity].
  destruct (b sv) as [sv' c]. simpl. apply list_lookup_insert_ne. exact Hne.
Qed.

Lemma try_on_lookup_eq (b : Stmt) (i : nat) (st : Captured) (sv : SV) :
  fst st !! i = Some sv -> fst (try_on b i st) !! i = Some (fst (b sv)).
Proof.
  intros Hsv. unfold try_on. rewrite Hsv.
  destruct (b sv) as [sv' c]. simpl. apply list_lookup_insert_eq.
  apply lookup_lt_Some in Hsv. exact Hsv.
Qed.

Lemma try_on_ex (b : Stmt) (i : nat) (st : Captured) (sv : SV) :
  fst st !! i = Some sv ->
  snd (try_on b i st)
  = match snd (b sv) with Normal => snd st | Throw e => Some e end.
Proof.
  intros Hsv. unfold try_on. rewrite Hsv.
  destruct (b sv) as [sv' c]. reflexivity.
Qed.

Lemma step_length (bodies : nat -> option Stmt) (st : Captured) (i : nat) :
  length (fst (step bodies st i)) = length (fst st).
Proof.
  unfold step. destruct (bodies i); [apply try_on_length | reflexivity].
Qed.

Lemma step_lookup_ne (bodies : nat -> option Stmt) (st : Captured)
    (i j : nat) :
  i <> j -> fst (step bodies st i) !! j = fst st !! j.
Proof.
  intros Hne. unfold step.
  destruct (bodies i); [apply try_on_lookup_ne; exact Hne | reflexivity].
Qed.

(** An iteration writes only its own slot. *)
Lemma fold_step_frame (bodies : nat -> option Stmt) (idxs : list nat) :
  forall (st : Captured) (j : nat),
    ~ In j idxs ->
    fst (fold_left (step bodies) idxs st) !! j = fst st !! j.
Proof.
  induction idxs as [|i idxs IH]; intros st j Hj; simpl; [reflexivity|].
  rewrite IH by (intros Hin; apply Hj; right; exact Hin).
  apply step_lookup_ne. intros ->. apply Hj. left. reflexivity.
Qed.

Lemma fold_step_length (bodies : nat -> option Stmt) (idxs : list nat) :
  forall st : Captured,
    length (fst (fold_left (step bodies) idxs st)) = length (fst st).
Proof.
  induction idxs as [|i idxs IH]; intros st; simpl; [reflexivity|].
  rewrite IH. apply step_length.
Qed.

Lemma loop_S (bodies : nat -> option Stmt) (n : nat) (st : Captured) :
  loop bodies (S n) st = step bodies (loop bodies n st) n.
Proof.
  unfold loop. rewrite seq_S, fold_left_app. reflexivity.
Qed.

Lemma loop_untouched (bodies : nat -> option Stmt) (n j : nat)
    (st : Captured) :
  n <= j -> fst (loop bodies n st) !! j = fst st !! j.
Proof.
  intros Hj. apply fold_step_frame. rewrite in_seq. lia.
Qed.

(** After the loop, every slot below the bound holds the state its body
    left, whether the body threw or not: no iteration is skipped. *)
Lemma loop_effect (bodies : nat -> option Stmt) (n : nat) :
  forall (st : Captured) (j : nat) (b : Stmt) (sv : SV),
    j < n -> bodies j = Some b -> fst st !! j = Some sv ->
    fst (loop bodies n st) !! j = Some (fst (b sv)).
Proof.
  induction n as [|n IH]; intros st j b sv Hj Hb Hsv; [lia|].
  rewrite loop_S. destruct (Nat.eq_dec j n) as [->|Hne].
  - unfold step. rewrite Hb. apply try_on_lookup_eq.
    rewrite loop_untouched by lia. exact Hsv.
  - rewrite step_lookup_ne by (intros E; apply Hne; symmetry; exact E).
    apply IH; [lia | exact Hb | exact Hsv].
Qed.

(** What [ex] holds after the loop, from an empty [ex]: the exception of
    the last iteration that threw, or nothing when none did. *)
Definition last_thrown (bodies : nat -> option Stmt) (sts : list SV)
    (n : nat) (ex : option Exn) : Prop :=
  match ex with
  | Some e =>
      exists (j : nat) (b : Stmt) (sv : SV),
        j < n /\ bodies j = Some b /\ sts !! j = Some sv
        /\ snd (b sv) = Throw e
        /\ forall (k : nat) (b' : Stmt) (sv' : SV),
             j < k < n -> bodies k = Some b' -> sts !! k = Some sv' ->
             snd (b' sv') = Normal
  | None =>
      forall (k : nat) (b' : Stmt) (sv' : SV),
        k < n -> bodies k = Some b' -> sts !! k = Some sv' ->
        snd (b' sv') = Normal
  end.

Lemma loop_ex (bodies : nat -> option Stmt) (n : nat) (sts : list SV) :
  last_thrown bodies sts n (snd (loop bodies n (sts, None))).
Proof.
  induction n as [|n IH].
  - simpl. intros k b' sv' Hk. lia.
  - rewrite loop_S. unfold step.
    destruct (bodies n) as [b|] eqn:Hb.
    + destruct (sts !! n) as [sv|] eqn:Hsv.
      * assert (Hcur : fst (loop bodies n (sts, None)) !! n = Some sv)
          by (rewrite loop_untouched by lia; exact Hsv).
        rewrite (try_on_ex b n _ sv Hcur).
        destruct (snd (b sv)) as [|e] eqn:Hc.
        -- destruct (snd (loop bodies n (sts, None))) as [e|]; simpl in *.
           ++ destruct IH as (j & bj & svj & Hj & Hbj & Hsvj & Hthrow & Hlater).
              exists j, bj, svj. repeat split; try assumption; [lia|].
              intros k b' sv' Hk Hb' Hsv'.
              destruct (Nat.eq_dec k n) as [->|Hne].
              ** rewrite Hb in Hb'. rewrite Hsv in Hsv'.
                 injection Hb' as <-. injection Hsv' as <-. exact Hc.
              ** apply (Hlater k b' sv'); [lia | assumption | assumption].
           ++ intros k b' sv' Hk Hb' Hsv'.
              destruct (Nat.eq_dec k n) as [->|Hne].
              ** rewrite Hb in Hb'. rewrite Hsv in Hsv'.
                 injection Hb' as <-. injection Hsv' as <-. exact Hc.
              ** apply (IH k b' sv'); [lia | assumption | assumption].
        -- simpl. exists n, b, sv. repeat split; try assumption; [lia|].
           intros k b' sv' Hk. lia.
      * assert (Hcur : fst (loop bodies n (sts, None)) !! n = None)
          by (rewrite loop_untouched by lia; exact Hsv).
        unfold try_on. rewrite Hcur.
        destruct (snd (loop bodies n (sts, None))) as [e|]; simpl in *.
        -- destruct IH as (j & bj & svj & Hj & Hbj & Hsvj & Hthrow & Hlater).
           exists j, bj, svj. repeat split; try assumption; [lia|].
           intros k b' sv' Hk Hb' Hsv'.
           destruct (Nat.eq_dec k n) as [->|Hne]; [congruence|].
           apply (Hlater k b' sv'); [lia | assumption | assumption].
        -- intros k b' sv' Hk Hb' Hsv'.
           destruct (Nat.eq_dec k n) as [->|Hne]; [congruence|].
           apply (IH k b' sv'); [lia | assumption | assumption].
    + destruct (snd (loop bodies n (sts, None))) as [e|]; simpl in *.
      * destruct IH as (j & bj & svj & Hj & Hbj & Hsvj & Hthrow & Hlater).
        exists j, bj, svj. repeat split; try assumption; [lia|].
        intros k b' sv' Hk Hb' Hsv'.
        destruct (Nat.eq_dec k n) as [->|Hne]; [congruence|].
        apply (Hlater k b' sv'); [lia | assumption | assumption].
      * intros k b' sv' Hk Hb' Hsv'.
        destruct (Nat.eq_dec k n) as [->|Hne]; [congruence|].
        apply (IH k b' sv'); [lia | assumption | assumption].
Qed.

(** If some iteration throws, [ex] is set when the loop ends. *)
Lemma loop_ex_some (bodies : nat -> option Stmt) (n : nat) (sts : list SV)
    (i : nat) (b : Stmt) (sv : SV) (e : Exn) :
  i < n -> bodies i = Some b -> sts !! i = Some sv -> snd (b sv) = Throw e ->
  exists e', snd (loop bodies n (sts, None)) = Some e'.
Proof.
  intros Hi Hb Hsv Hthrow. pose proof (loop_ex bodies n sts) as H.
  destruct (snd (loop bodies n (sts, None))) as [e'|]; [eauto|].
  simpl in H. rewrite (H i b sv Hi Hb Hsv) in Hthrow. discriminate.
Qed.

(** *** Any order of the iterations

    The iterations write disjoint slots, so the slots after the loop do not
    depend on the order in which the iterations ran, and [ex] is set exactly
    when one of them threw. *)

Definition slot_after (bodies : nat -> option Stmt) (sts : list SV)
    (j : nat) : option SV :=
  match bodies j, sts !! j with
  | Some b, Some sv => Some (fst (b sv))
  | _, o => o
  end.

Lemma step_slot (bodies : nat -> option Stmt) (st : Captured) (i : nat) :
  fst (step bodies st i) !! i = slot_after bodies (fst st) i.
Proof.
  unfold step, slot_after. destruct (bodies i) as [b|]; [|reflexivity].
  destruct (fst st !! i) as [sv|] eqn:Hsv.
  - apply try_on_lookup_eq. exact Hsv.
  - unfold try_on. rewrite Hsv. exact Hsv.
Qed.

Lemma fold_step_slot (bodies : nat -> option Stmt) (idxs : list nat) :
  List.NoDup idxs ->
  forall (st : Captured) (j : nat),
    In j idxs ->
    fst (fold_left (step bodies) idxs st) !! j
    = slot_after bodies (fst st) j.
Proof.
  induction 1 as [|i idxs Hnotin Hnodup IH]; intros st j Hj; [destruct Hj|].
  simpl. destruct Hj as [->|Hj].
  - rewrite fold_step_frame by exact Hnotin. apply step_slot.
  - rewrite IH by exact Hj.
    assert (Hne : i <> j) by (intros ->; contradiction).
    unfold slot_after. rewrite step_lookup_ne by exact Hne. reflexivity.
Qed.

Lemma step_captured (bodies : nat -> option Stmt) (st : Captured) (i : nat) :
  snd (step bodies st i)
  = match bodies i, fst st !! i with
    | Some b, Some sv =>
        match snd (b sv) with Normal => snd st | Throw e => Some e end
    | _, _ => snd st
    end.
Proof.
  unfold step. destruct (bodies i) as [b|]; [|reflexivity].
  destruct (fst st !! i) as [sv|] eqn:Hsv.
  - apply try_on_ex. exact Hsv.
  - unfold try_on. rewrite Hsv. reflexivity.
Qed.

Lemma fold_step_captured (bodies : nat -> option Stmt) (idxs : list nat) :
  List.NoDup idxs ->
  forall st : Captured,
    match snd (fold_left (step bodies) idxs st) with
    | Some e =>
        snd st = Some e
        \/ exists (j : nat) (b : Stmt) (sv : SV),
             In j idxs /\ bodies j = Some b /\ fst st !! j = Some sv
             /\ snd (b sv) = Throw e
    | None =>
        snd st = None
        /\ forall (j : nat) (b : Stmt) (sv : SV),
             In j idxs -> bodies j = Some b -> fst st !! j = Some sv ->
             snd (b sv) = Normal
    end.
Proof.
  induction 1 as [|i idxs Hnotin Hnodup IH]; intros st.
  - simpl. destruct (snd st) as [e|]; [left; reflexivity|].
    split; [reflexivity | intros j b sv []].
  - simpl. specialize (IH (step bodies st i)).
    assert (Hother : forall j, In j idxs ->
              fst (step bodies st i) !! j = fst st !! j).
    { intros j Hj. apply step_lookup_ne. intros ->. contradiction. }
    rewrite step_captured in IH.
    destruct (snd (fold_left (step bodies) idxs (step bodies st i)))
      as [e|].
    + destruct IH as [Hhere | (j & b & sv & Hj & Hb & Hsv & Hthrow)].
      * destruct (bodies i) as [b|] eqn:Hb; [|left; exact Hhere].
        destruct (fst st !! i) as [sv|] eqn:Hsv; [|left; exact Hhere].
        destruct (snd (b sv)) as [|e0] eqn:Hc; [left; exact Hhere|].
        right. exists i, b, sv. injection Hhere as <-.
        repeat split; try assumption. left. reflexivity.
      * right. exists j, b, sv. rewrite Hother in Hsv by exact Hj.
        repeat split; try assumption. right. exact Hj.
    + destruct IH as [Hhere Hall].
      assert (Hst : snd st = None
                    /\ forall b sv, bodies i = Some b ->
                         fst st !! i = Some sv -> snd (b sv) = Normal).
      { destruct (bodies i) as [b|]; [|split; [exact Hhere|discriminate]].
        destruct (fst st !! i) as [sv|]; [|split; [exact Hhere|discriminate]].
        destruct (snd (b sv)) as [|e0] eqn:Hc; [|discriminate Hhere].
        split; [exact Hhere|]. intros b' sv' [= <-] [= <-]. exact Hc. }
      destruct Hst as [Hnone Hi]. split; [exact Hnone|].
      intros j b sv [<-|Hj] Hb Hsv; [apply (Hi b sv); assumption|].
      apply (Hall j b sv Hj Hb). rewrite Hother by exact Hj. exact Hsv.
Qed.

(** Whatever the order, the slots are those of the loop in index order, and
    an exception is captured in one exactly when it is in the other. *)
Lemma any_order_same_outcome (bodies : nat -> option Stmt) (n : nat)
    (idxs : list nat) (sts : list SV) :
  List.NoDup idxs ->
  (forall j : nat, In j idxs <-> j < n) ->
  fst (fold_left (step bodies) idxs (sts, None))
  = fst (loop bodies n (sts, None))
  /\ (snd (fold_left (step bodies) idxs (sts, None)) = None <->
      snd (loop bodies n (sts, None)) = None).
Proof.
  intros Hnodup Hidxs.
  assert (Hseq : List.NoDup (seq 0 n)) by apply List.seq_NoDup.
  split.
  - apply list_eq. intros j. unfold loop.
    destruct (Nat.lt_ge_cases j n) as [Hj|Hj].
    + rewrite (fold_step_slot bodies idxs Hnodup) by (apply Hidxs; exact Hj).
      rewrite (fold_step_slot bodies (seq 0 n) Hseq)
        by (apply in_seq; lia).
      reflexivity.
    + rewrite !fold_step_frame; [reflexivity | rewrite in_seq; lia|].
      rewrite Hidxs. lia.
  - pose proof (fold_step_captured bodies idxs Hnodup (sts, None)) as H1.
    pose proof (fold_step_captured bodies (seq 0 n) Hseq (sts, None)) as H2.
    unfold loop.
    destruct (snd (fold_left (step bodies) idxs (sts, None))) as [e1|];
      destruct (snd (fold_left (step bodies) (seq 0 n) (sts, None)))
        as [e2|]; simpl in *; split; intros H;
      try reflexivity; try discriminate H.
    + destruct H1 as [H1|(j & b & sv & Hj & Hb & Hsv & Hthrow)];
        [discriminate H1|].
      destruct H2 as [_ H2]. apply Hidxs in Hj.
      rewrite (H2 j b sv) in Hthrow;
        [discriminate | apply in_seq; lia | assumption | assumption].
    + destruct H2 as [H2|(j & b & sv & Hj & Hb & Hsv & Hthrow)];
        [discriminate H2|].
      destruct H1 as [_ H1]. apply in_seq in Hj.
      rewrite (H1 j b sv) in Hthrow;
        [discriminate | apply Hidxs; lia | assumption | assumption].
Qed.

Local Abbreviation ObsDatum := (ObsDatum CFP_t T).
Local Abbreviation OpsData := (OpsData T).
Local Abbreviation Memory := (Memory CFP_t).
Local Abbreviation Completion := (Completion Exn).

(** The body of the loop of [applyObservables] for one observable. *)
Definition observable_body (ref : SV) (ob : ObsDatum) : Stmt :=
  fun sv =>
    applyObservable applyOperation applyMatrix ob
      (updateData sv (getDataVector ref)).

Definition observable_bodies (observables : list ObsDatum) (ref : SV)
    (i : nat) : option Stmt :=
  observable_body ref <$> observables !! i.

(** What applying one observable to a copy of the reference state gives. *)
Definition observable_outcome (m : Memory) (ob : ObsDatum)
    : SV * Completion :=
  applyObservable applyOperation applyMatrix ob
    {| getDataVector := getDataVector (reference_state m) |}.

Lemma fold_observable_iteration (observables : list ObsDatum)
    (idxs : list nat) :
  forall (m : Memory) (ex : option Exn),
    fold_left
      (fun st h_i =>
         observable_iteration applyOperation applyMatrix observables h_i st)
      idxs (m, ex)
    = ({| states :=
            fst (fold_left
                   (step (observable_bodies observables (reference_state m)))
                   idxs (states m, ex));
          reference_state := reference_state m |},
       snd (fold_left
              (step (observable_bodies observables (reference_state m)))
              idxs (states m, ex))).
Proof.
  induction idxs as [|i idxs IH]; intros m ex; simpl.
  - destruct m; reflexivity.
  - unfold observable_iteration at 2. unfold step at 2 4.
    unfold observable_bodies at 2 4. simpl fst.
    destruct (observables !! i) as [ob|]; simpl.
    + fold (observable_body (reference_state m) ob).
      destruct (try_on (observable_body (reference_state m) ob) i
                  (states m, ex)) as [sts ex'] eqn:E.
      simpl. rewrite IH. reflexivity.
    + rewrite IH. reflexivity.
Qed.

Lemma applyObservables_loop (observables : list ObsDatum) (m : Memory) :
  applyObservables applyOperation applyMatrix observables m
  = ({| states :=
          fst (loop (observable_bodies observables (reference_state m))
                 (length observables) (states m, None));
        reference_state := reference_state m |},
     rethrow
       (snd (loop (observable_bodies observables (reference_state m))
               (length observables) (states m, None)))).
Proof.
  unfold applyObservables. rewrite fold_observable_iteration. reflexivity.
Qed.


Lemma for_each_ext (f g : nat -> Stmt) (idxs : list nat) :
  (forall (i : nat) (sv : SV), f i sv = g i sv) ->
  forall sv : SV, for_each f idxs sv = for_each g idxs sv.
Proof.
  intros Hfg. induction idxs as [|i idxs IH]; intros sv; [reflexivity|].
  simpl. unfold and_then. rewrite Hfg.
  destruct (g i sv) as [sv' [|e]]; [apply IH | reflexivity].
Qed.

(** [applyOperations] with [adj = true] applies the adjoint of every
    operation, in the order of the list. *)
Lemma applyOperations_adj (operations : OpsData) (sv : SV) :
  applyOperations applyOperation operations true sv
  = for_each (applyOperationAdj applyOperation operations)
      (seq 0 (length (getOpsName operations))) sv.
Proof.
  unfold applyOperations. apply for_each_ext. intros i sv'.
  unfold applyOperationAdj. rewrite xorb_true_r. reflexivity.
Qed.

(** An observable of one term goes to the named gate with its real
    parameters, to [applyMatrix] with its matrix, or to the named gate
    without parameters. *)
Lemma applyObservable_single (name : string) (wires : list Z)
    (param : param_var_t CFP_t T) (sv : SV) :
  applyObservable applyOperation applyMatrix
    {| getObsName := [name]; getObsParams := [param];
       getObsWires := [wires] |} sv
  = match param with
    | real_params v => applyOperation name wires false v sv
    | complex_params v => applyMatrix v wires false sv
    | monostate => applyOperation name wires false [] sv
    end.
Proof.
  unfold applyObservable, getSize. simpl. unfold and_then, skip, at_. simpl.
  destruct param; simpl.
  - destruct (applyOperation name wires false [] sv) as [sv' [|e]];
      reflexivity.
  - destruct (applyOperation name wires false param sv) as [sv' [|e]];
      reflexivity.
  - destruct (applyMatrix param wires false sv) as [sv' [|e]]; reflexivity.
Qed.


(** C7: when [applyObservables] returns normally, every slot below the
    number of observables holds what applying its observable to a copy of the
    reference data gives, so a second run from other prior contents of
    [states] ends with the same slots; slots beyond are untouched and the
    reference state is the one the call started with. *)
Theorem applyObservables_resets_from_reference (observables : list ObsDatum)
    (m m' : Memory) :
  length observables <= length (states m) ->
  applyObservables applyOperation applyMatrix observables m = (m', Normal) ->
  reference_state m' = reference_state m
  /\ length (states m') = length (states m)
  /\ (forall (i : nat) (ob : ObsDatum),
        observables !! i = Some ob ->
        exists sv' : SV,
          states m' !! i = Some sv'
          /\ observable_outcome m ob = (sv', Normal))
  /\ (forall i : nat,
        length observables <= i -> states m' !! i = states m !! i)
  /\ (forall (m2 : Memory) (i : nat),
        reference_state m2 = reference_state m ->
        length observables <= length (states m2) ->
        i < length observables ->
        states (fst (applyObservables applyOperation applyMatrix
                       observables m2)) !! i
        = states m' !! i).
Proof.
  intros Hlen Hrun. rewrite applyObservables_loop in Hrun.
  injection Hrun as Hm' Hex. subst m'. cbn [states reference_state].
  set (bodies := observable_bodies observables (reference_state m)) in *.
  assert (Hslot : forall (sts : list SV) (i : nat) (ob : ObsDatum),
            length observables <= length sts ->
            observables !! i = Some ob ->
            fst (loop bodies (length observables) (sts, None)) !! i
            = Some (fst (observable_outcome m ob))).
  { intros sts i ob Hsts Hob.
    assert (Hi : i < length observables) by (eapply lookup_lt_Some; eauto).
    destruct (lookup_lt_is_Some_2 sts i ltac:(lia)) as [sv Hsv].
    rewrite (loop_effect bodies (length observables) (sts, None) i
               (observable_body (reference_state m) ob) sv Hi).
    - reflexivity.
    - unfold bodies, observable_bodies. rewrite Hob. reflexivity.
    - exact Hsv. }
  split; [reflexivity|]. split; [apply fold_step_length|].
  split; [|split].
  - intros i ob Hob. exists (fst (observable_outcome m ob)).
    split; [apply Hslot; assumption|].
    assert (Hi : i < length observables) by (eapply lookup_lt_Some; eauto).
    destruct (lookup_lt_is_Some_2 (states m) i ltac:(lia)) as [sv Hsv].
    pose proof (loop_ex bodies (length observables) (states m)) as Hlast.
    destruct (snd (loop bodies (length observables) (states m, None)));
      [discriminate Hex|].
    simpl in Hlast.
    specialize (Hlast i (observable_body (reference_state m) ob) sv Hi).
    unfold bodies, observable_bodies in Hlast. rewrite Hob in Hlast.
    specialize (Hlast eq_refl Hsv).
    change (snd (observable_outcome m ob) = Normal) in Hlast.
    destruct (observable_outcome m ob) as [sv' c]. simpl in *.
    rewrite Hlast. reflexivity.
  - intros i Hi. apply loop_untouched. exact Hi.
  - intros m2 i Href Hlen2 Hi.
    rewrite applyObservables_loop. cbn [states reference_state fst].
    rewrite Href. fold bodies.
    destruct (lookup_lt_is_Some_2 observables i Hi) as [ob Hob].
    rewrite (Hslot (states m2) i ob Hlen2 Hob).
    rewrite (Hslot (states m) i ob Hlen Hob). reflexivity.
Qed.

(** The two batched calls, to state what they share. *)
Inductive Batch : Type :=
| ObservablesBatch (observables : list ObsDatum) (m : Memory)
| OperationsAdjBatch (operations : OpsData) (op_idx : nat) (sts : list SV).

(** What the caller gets back: the state copies and how the call ended. *)
Definition run_batch (c : Batch) : list SV * Completion :=
  match c with
  | ObservablesBatch observables m =>
      let r := applyObservables applyOperation applyMatrix observables m in
      (states (fst r), snd r)
  | OperationsAdjBatch operations op_idx sts =>
      applyOperationsAdj applyOperation operations op_idx sts
  end.

(** The application for index [i] on its own: the state it leaves in slot
    [i] and how it ends. There is none outside the loop bounds. *)
Definition batch_iteration (c : Batch) (i : nat)
    : option (SV * Completion) :=
  match c with
  | ObservablesBatch observables m =>
      match observables !! i, states m !! i with
      | Some ob, Some _ => Some (observable_outcome m ob)
      | _, _ => None
      end
  | OperationsAdjBatch operations op_idx sts =>
      applyOperationAdj applyOperation operations op_idx <$> sts !! i
  end.

Lemma batch_as_loop (c : Batch) :
  exists (bodies : nat -> option Stmt) (n : nat) (sts : list SV),
    run_batch c
    = (fst (loop bodies n (sts, None)),
       rethrow (snd (loop bodies n (sts, None))))
    /\ (forall (i : nat) (r : SV * Completion),
          batch_iteration c i = Some r <->
          exists (b : Stmt) (sv : SV),
            i < n /\ bodies i = Some b /\ sts !! i = Some sv /\ b sv = r).
Proof.
  destruct c as [observables m | operations op_idx sts].
  - exists (observable_bodies observables (reference_state m)),
      (length observables), (states m).
    split; [unfold run_batch; rewrite applyObservables_loop; reflexivity|].
    intros i r. simpl. unfold observable_bodies. split.
    + destruct (observables !! i) as [ob|] eqn:Hob; [|discriminate].
      destruct (states m !! i) as [sv|] eqn:Hsv; [|discriminate].
      intros [= <-]. exists (observable_body (reference_state m) ob), sv.
      repeat split; try reflexivity. eapply lookup_lt_Some; eauto.
    + intros (b & sv & Hi & Hb & Hsv & Hr).
      destruct (observables !! i) as [ob|]; [|discriminate].
      rewrite Hsv. injection Hb as <-. rewrite <- Hr. reflexivity.
  - exists (fun _ => Some (applyOperationAdj applyOperation operations op_idx)),
      (length sts), sts.
    split; [reflexivity|].
    intros i r. simpl. split.
    + destruct (sts !! i) as [sv|] eqn:Hsv; [|discriminate].
      intros [= <-].
      exists (applyOperationAdj applyOperation operations op_idx), sv.
      repeat split; try reflexivity. eapply lookup_lt_Some; eauto.
    + intros (b & sv & Hi & Hb & Hsv & Hr).
      rewrite Hsv. injection Hb as <-. rewrite <- Hr. reflexivity.
Qed.

(** The build without OpenMP, where the loop runs in index order: when the
    application for some index throws, the batched call ends by throwing one
    exception and not normally; the exception is the one of an application
    that threw (the last in index order); and by the time it is rethrown
    every application has run to its end, the throwing ones included: each
    slot holds the state its application left. The build with OpenMP is
    the subject of [AlgUtilOpenMP]. *)
Theorem batch_failure_propagates_once (c : Batch) (i : nat) (sv : SV)
    (e : Exn) :
  batch_iteration c i = Some (sv, Throw e) ->
  exists (e' : Exn) (j : nat) (svj : SV),
    snd (run_batch c) = Throw e'
    /\ snd (run_batch c) <> Normal
    /\ batch_iteration c j = Some (svj, Throw e')
    /\ (forall (k : nat) (r : SV * Completion),
          j < k -> batch_iteration c k = Some r -> snd r = Normal)
    /\ (forall (k : nat) (r : SV * Completion),
          batch_iteration c k = Some r ->
          fst (run_batch c) !! k = Some (fst r)).
Proof.
  intros Hthrow.
  destruct (batch_as_loop c) as (bodies & n & sts & Hrun & Hiter).
  rewrite Hrun. simpl fst. simpl snd.
  apply Hiter in Hthrow. destruct Hthrow as (b & sv0 & Hi & Hb & Hsv0 & Hr).
  pose proof (loop_ex bodies n sts) as Hlast.
  destruct (loop_ex_some bodies n sts i b sv0 e Hi Hb Hsv0
              ltac:(rewrite Hr; reflexivity)) as [e' He'].
  rewrite He' in Hlast |- *. simpl in Hlast.
  destruct Hlast as (j & bj & svj & Hj & Hbj & Hsvj & Hthrown & Hlater).
  exists e', j, (fst (bj svj)). simpl.
  split; [reflexivity|]. split; [discriminate|]. split; [|split].
  - apply Hiter. exists bj, svj. repeat split; try assumption.
    destruct (bj svj) as [s c']. simpl in *. rewrite Hthrown. reflexivity.
  - intros k r Hk Hkr. apply Hiter in Hkr.
    destruct Hkr as (bk & svk & Hkn & Hbk & Hsvk & <-).
    apply (Hlater k bk svk); [lia | assumption | assumption].
  - intros k r Hkr. apply Hiter in Hkr.
    destruct Hkr as (bk & svk & Hkn & Hbk & Hsvk & <-).
    apply (loop_effect bodies n (sts, None) k bk svk); assumption.
Qed.

End Loops.

Arguments ObservablesBatch {CFP_t T} observables m.
Arguments OperationsAdjBatch {CFP_t T} operations op_idx sts.
Arguments run_batch {CFP_t T Exn} applyOperation applyMatrix c.
Arguments batch_iteration {CFP_t T Exn} applyOperation applyMatrix c i.

(** *** A concrete dispatcher

    A state vector class for one qubit with amplitudes in the Gaussian
    integers. It knows three gates and throws on every other name. *)

Local Open Scope Z_scope.

Definition mul_i (inverse : bool) (z : Z * Z) : Z * Z :=
  if inverse then (snd z, (- fst z)) else ((- snd z), fst z).

Definition applyOperation_1q (name : string) (wires : list Z)
    (inverse : bool) (params : list float) : Stmt (Z * Z) string :=
  fun sv =>
    if String.eqb name "Identity" then (sv, Normal)
    else if String.eqb name "PauliX" then
      ({| getDataVector := rev (getDataVector sv) |}, Normal)
    else if String.eqb name "S" then
      match getDataVector sv with
      | [a0; a1] => ({| getDataVector := [a0; mul_i inverse a1] |}, Normal)
      | _ => (sv, Throw "S: one qubit expected"%string)
      end
    else (sv, Throw ("unknown gate " ++ name)%string).

Definition applyMatrix_1q (matrix : list (Z * Z)) (wires : list Z)
    (inverse : bool) : Stmt (Z * Z) string :=
  fun sv => (sv, Throw "applyMatrix: not available"%string).

Definition named_observable (name : string) : ObsDatum (Z * Z) float :=
  {| getObsName := [name]; getObsParams := []; getObsWires := [[0]] |}.

Definition ket (a0 a1 : Z * Z) : StateVectorManaged (Z * Z) :=
  {| getDataVector := [a0; a1] |}.

Definition memory_1q : Memory (Z * Z) :=
  {| states := [ket (7, 7) (7, 7); ket (0, 0) (0, 0); ket (5, 0) (0, 5)];
     reference_state := ket (1, 0) (0, 2) |}.

(** Three observables over three state copies; the second names a gate the
    dispatcher does not know. *)
Lemma batch_failure_propagates_once_witness :
  batch_iteration applyOperation_1q applyMatrix_1q
    (ObservablesBatch
       [named_observable "PauliX"; named_observable "Toffoli";
        named_observable "S"] memory_1q) 1
  = Some (ket (1, 0) (0, 2), Throw "unknown gate Toffoli"%string)
  /\ exists (e' : string) (j : nat) (svj : StateVectorManaged (Z * Z)),
       snd (run_batch applyOperation_1q applyMatrix_1q
              (ObservablesBatch
                 [named_observable "PauliX"; named_observable "Toffoli";
                  named_observable "S"] memory_1q))
       = Throw e'
       /\ snd (run_batch applyOperation_1q applyMatrix_1q
                 (ObservablesBatch
                    [named_observable "PauliX"; named_observable "Toffoli";
                     named_observable "S"] memory_1q))
          <> Normal
       /\ batch_iteration applyOperation_1q applyMatrix_1q
            (ObservablesBatch
               [named_observable "PauliX"; named_observable "Toffoli";
                named_observable "S"] memory_1q) j
          = Some (svj, Throw e')
       /\ (forall (k : nat)
                  (r : StateVectorManaged (Z * Z) * Completion string),
             (j < k)%nat ->
             batch_iteration applyOperation_1q applyMatrix_1q
               (ObservablesBatch
                  [named_observable "PauliX"; named_observable "Toffoli";
                   named_observable "S"] memory_1q) k
             = Some r ->
             snd r = Normal)
       /\ (forall (k : nat)
                  (r : StateVectorManaged (Z * Z) * Completion string),
             batch_iteration applyOperation_1q applyMatrix_1q
               (ObservablesBatch
                  [named_observable "PauliX"; named_observable "Toffoli";
                   named_observable "S"] memory_1q) k
             = Some r ->
             fst (run_batch applyOperation_1q applyMatrix_1q
                    (ObservablesBatch
                       [named_observable "PauliX"; named_observable "Toffoli";
                        named_observable "S"] memory_1q)) !! k
             = Some (fst r)).
Proof.
  split; [reflexivity|].
  exact (batch_failure_propagates_once (Z * Z) float string
           applyOperation_1q applyMatrix_1q
           (ObservablesBatch
              [named_observable "PauliX"; named_observable "Toffoli";
               named_observable "S"] memory_1q)
           1 (ket (1, 0) (0, 2)) "unknown gate Toffoli"%string eq_refl).
Defined.

(** The run of the same batch: the exception reaches the caller after the
    third observable has been applied as well. *)
Example batch_failure_run :
  run_batch applyOperation_1q applyMatrix_1q
    (ObservablesBatch
       [named_observable "PauliX"; named_observable "Toffoli";
        named_observable "S"] memory_1q)
  = ([ket (0, 2) (1, 0); ket (1, 0) (0, 2); ket (1, 0) (-2, 0)],
     Throw "unknown gate Toffoli"%string).
Proof. reflexivity. Qed.

Definition ops_1q : OpsData float :=
  {| getOpsName := ["PauliX"; "S"]%string;
     getOpsWires := [[0]; [0]];
     getOpsInverses := [false; true];
     getOpsParams := [[]; []] |}.


(** Two observables that both apply: the slots forget their contents. *)
Lemma applyObservables_resets_from_reference_witness :
  applyObservables applyOperation_1q applyMatrix_1q
    [named_observable "PauliX"; named_observable "S"] memory_1q
  = ({| states := [ket (0, 2) (1, 0); ket (1, 0) (-2, 0);
                   ket (5, 0) (0, 5)];
        reference_state := ket (1, 0) (0, 2) |}, Normal)
  /\ reference_state
       {| states := [ket (0, 2) (1, 0); ket (1, 0) (-2, 0);
                     ket (5, 0) (0, 5)];
          reference_state := ket (1, 0) (0, 2) |}
     = reference_state memory_1q.
Proof.
  assert (Hlen : (length [named_observable "PauliX"; named_observable "S"]
                  <= length (states memory_1q))%nat) by (simpl; lia).
  split; [reflexivity|].
  apply (applyObservables_resets_from_reference (Z * Z) float string
           applyOperation_1q applyMatrix_1q
           [named_observable "PauliX"; named_observable "S"] memory_1q
           _ Hlen eq_refl).
Defined.

End AlgUtilFacts.

(** ** The name tables of the reference operations *)

Module OperationsFacts.

Import Operations.

Local Open Scope R_scope.

(** The controlled rotations about X and about Y are different gates: at
    the angle pi their entries at position (1, 0, 1, 1) differ. *)
Lemma CRX_CRY_distinct : CRX <> CRY.
Proof.
  intros H.
  apply (f_equal (fun f => re (entry4 (f PI) 1 0 1 1))) in H.
  unfold CRX, CRY, entry4, of_real, re in H. simpl in H.
  rewrite sin_PI2 in H. lra.
Qed.

Lemma TwoQubitOpsOneParam_value (policy : DuplicatePolicy) :
  TwoQubitOpsOneParam policy
  = <["CRZ"%string := CRZ]>
      (<["CRY"%string :=
           match policy with KeepFirst => CRX | KeepLast => CRY end]> ∅).
Proof.
  unfold TwoQubitOpsOneParam, std_map, TwoQubitOpsOneParam_init.
  cbn [fold_left]. unfold init_insert. cbn [fst snd].
  rewrite lookup_empty.
  destruct policy.
  - rewrite lookup_insert_eq.
    rewrite lookup_insert_ne by discriminate. rewrite lookup_empty.
    reflexivity.
  - rewrite insert_insert_eq. reflexivity.
Qed.

(** C9: the initializer of [TwoQubitOpsOneParam] lists the two distinct
    gates [CRX] and [CRY] under the one key "CRY". Whichever of the two the
    map constructor keeps, the table has exactly the keys "CRY" and "CRZ",
    two bindings for three initializers, nothing under "CRX", and under
    "CRY" one of the two gates only (the first, [CRX], with the usual
    libraries). *)
Theorem TwoQubitOpsOneParam_duplicate_key (policy : DuplicatePolicy) :
  In ("CRY"%string, CRX) TwoQubitOpsOneParam_init
  /\ In ("CRY"%string, CRY) TwoQubitOpsOneParam_init
  /\ CRX <> CRY
  /\ length TwoQubitOpsOneParam_init = 3%nat
  /\ size (TwoQubitOpsOneParam policy) = 2%nat
  /\ dom (TwoQubitOpsOneParam policy)
     = ({["CRY"%string; "CRZ"%string]} : gset string)
  /\ TwoQubitOpsOneParam policy !! "CRX"%string = None
  /\ TwoQubitOpsOneParam policy !! "CRZ"%string = Some CRZ
  /\ TwoQubitOpsOneParam policy !! "CRY"%string
     = Some (match policy with KeepFirst => CRX | KeepLast => CRY end).
Proof.
  rewrite TwoQubitOpsOneParam_value.
  split; [left; reflexivity|].
  split; [right; left; reflexivity|].
  split; [exact CRX_CRY_distinct|].
  split; [reflexivity|].
  split.
  { rewrite map_size_insert_None.
    - rewrite map_size_insert_None by apply lookup_empty.
      rewrite map_size_empty. reflexivity.
    - rewrite lookup_insert_ne by discriminate. apply lookup_empty. }
  split.
  { rewrite !dom_insert_L, dom_empty_L. set_solver. }
  split.
  { rewrite !lookup_insert_ne by discriminate. apply lookup_empty. }
  split.
  { apply lookup_insert_eq. }
  rewrite lookup_insert_ne by discriminate. apply lookup_insert_eq.
Qed.

(** *** The reference matrices in exact arithmetic

    The product of a gate with the gate at the negated parameters is the
    identity matrix. These are facts about the matrices over the reals, not
    about the rounded arithmetic of the kernels. *)

Lemma X_involution : Gate_1q_mul X X = Identity.
Proof.
  unfold Gate_1q_mul, X, Identity, entry, Cadd, Cmul, of_real, re, im.
  simpl. repeat (f_equal; try lra).
Qed.

Lemma RX_inverse (theta : R) :
  Gate_1q_mul (RX (- theta)) (RX theta) = Identity.
Proof.
  unfold Gate_1q_mul, RX, Identity, entry, Cadd, Cmul, of_real, re, im.
  simpl.
  replace (- - theta / 2) with (theta / 2) by lra.
  replace (- theta / 2) with (- (theta / 2)) by lra.
  rewrite cos_neg, sin_neg.
  pose proof (sin2_cos2 (theta / 2)) as H. unfold Rsqr in H.
  repeat (f_equal; try lra).
Qed.

Lemma Rot_inverse (phi theta omega : R) :
  Gate_1q_mul (Rot (- omega) (- theta) (- phi)) (Rot phi theta omega)
  = Identity.
Proof.
  unfold Gate_1q_mul, Rot, Identity, entry, Cadd, Cmul, Cneg, pow_M_E,
    of_real, re, im.
  simpl. rewrite exp_0.
  replace ((- - omega - - phi) / 2) with ((phi + omega) / 2) by lra.
  replace ((- - omega + - phi) / 2) with (- ((phi - omega) / 2)) by lra.
  replace ((- omega - - phi) / 2) with ((phi - omega) / 2) by lra.
  replace ((- omega + - phi) / 2) with (- ((phi + omega) / 2)) by lra.
  replace ((- phi - omega) / 2) with (- ((phi + omega) / 2)) by lra.
  replace ((- phi + omega) / 2) with (- ((phi - omega) / 2)) by lra.
  replace (- theta / 2) with (- (theta / 2)) by lra.
  rewrite !cos_neg, !sin_neg.
  pose proof (sin2_cos2 (theta / 2)) as Ht. unfold Rsqr in Ht.
  pose proof (sin2_cos2 ((phi + omega) / 2)) as Ha. unfold Rsqr in Ha.
  pose proof (sin2_cos2 ((phi - omega) / 2)) as Hb. unfold Rsqr in Hb.
  generalize dependent (sin (theta / 2)).
  generalize dependent (cos (theta / 2)).
  generalize dependent (sin ((phi + omega) / 2)).
  generalize dependent (cos ((phi + omega) / 2)).
  generalize dependent (sin ((phi - omega) / 2)).
  generalize dependent (cos ((phi - omega) / 2)).
  intros cb sb Hb ca sa Ha ct st Ht.
  repeat f_equal; nra.
Qed.

(** The two matrices [applyRot] of the AVX512 family builds, for
    [inverse = true] and [inverse = false], are inverse to each other when
    [getRot] is the reference [Rot]. *)
Lemma applyRot_matrices_inverse (phi theta omega : R) :
  Gate_1q_mul (AVX512Facts.rotMat Gate_1q R Ropp Rot true phi theta omega)
              (AVX512Facts.rotMat Gate_1q R Ropp Rot false phi theta omega)
  = Identity.
Proof. apply Rot_inverse. Qed.

End OperationsFacts.

(** ** The dispatch map: rejection of registrations and what is reachable *)

Module KernelMapFacts.

Import KernelMap.

Lemma to_nat_inj (a b : GateOperation.t) :
  GateOperation.to_nat a = GateOperation.to_nat b -> a = b.
Proof. destruct a, b; simpl; intros H; try reflexivity; discriminate H. Qed.

Lemma eqb_eq (a b : GateOperation.t) :
  GateOperation.eqb a b = true <-> a = b.
Proof.
  destruct a, b; simpl; split; intros H; try reflexivity; discriminate H.
Qed.

Lemma key_of_inj (op op' : GateOperation.t) (th th' : Threading)
    (mm mm' : CPUMemoryModel) :
  key_of op th mm = key_of op' th' mm' -> op = op' /\ th = th' /\ mm = mm'.
Proof.
  unfold key_of. intros H. injection H as Hop Hth Hmm.
  split; [apply to_nat_inj; exact Hop|].
  split; [destruct th, th'; try reflexivity; discriminate
         |destruct mm, mm'; try reflexivity; discriminate].
Qed.

(** Two intervals overlap exactly when they share a qubit count. *)
Lemma overlaps_spec (i j : IntegerInterval) :
  overlaps i j = true <->
  exists n : Z, contains i n = true /\ contains j n = true.
Proof.
  unfold overlaps, contains. rewrite Z.ltb_lt. split.
  - intros H. exists (Z.max (min_ i) (min_ j)).
    rewrite !andb_true_iff, !Z.leb_le, !Z.ltb_lt. lia.
  - intros (n & Hi & Hj).
    rewrite !andb_true_iff, !Z.leb_le, !Z.ltb_lt in Hi, Hj. lia.
Qed.

Lemma conflict_spec (pds : PriorityDispatchSet) (p : Z)
    (i : IntegerInterval) :
  conflict pds p i = true <->
  exists e : DispatchElement,
    In e pds /\ priority e = p
    /\ exists n : Z, contains (interval e) n = true /\ contains i n = true.
Proof.
  unfold conflict. rewrite existsb_exists. split.
  - intros (e & Hin & H). apply andb_true_iff in H as [Hp Ho].
    exists e. rewrite <- overlaps_spec.
    split; [exact Hin|]. split; [apply Z.eqb_eq; exact Hp | exact Ho].
  - intros (e & Hin & Hp & Ho). exists e. split; [exact Hin|].
    apply andb_true_iff. split; [apply Z.eqb_eq; exact Hp|].
    apply overlaps_spec. exact Ho.
Qed.

Lemma In_insert_ordered (elt e : DispatchElement)
    (pds : PriorityDispatchSet) :
  In e (insert_ordered elt pds) <-> e = elt \/ In e pds.
Proof.
  induction pds as [|x pds IH]; simpl.
  - split; [intros [H|[]]; left; symmetry; exact H
           |intros [H|[]]; left; symmetry; exact H].
  - destruct (priority x <? priority elt); simpl.
    + split; [intros [H|H]; [left; symmetry; exact H | right; exact H]
             |intros [H|H]; [left; symmetry; exact H | right; exact H]].
    + rewrite IH. tauto.
Qed.

(** [emplace] keeps the entries in descending priority. *)
Lemma insert_ordered_sorted (elt : DispatchElement)
    (pds : PriorityDispatchSet) :
  Sorted (fun a b => priority b <= priority a)%Z pds ->
  Sorted (fun a b => priority b <= priority a)%Z (insert_ordered elt pds).
Proof.
  induction pds as [|x pds IH]; intros Hs; simpl.
  - repeat constructor.
  - destruct (Z.ltb_spec (priority x) (priority elt)) as [Hlt|Hge].
    + constructor; [exact Hs|]. constructor. lia.
    + inversion Hs as [|? ? Hs' Hhd]; subst.
      constructor; [apply IH; exact Hs'|].
      destruct pds as [|y pds]; simpl.
      * constructor. exact Hge.
      * destruct (priority y <? priority elt); constructor;
          [exact Hge | inversion Hhd; assumption].
Qed.

Lemma getKernel_found (pds : PriorityDispatchSet) (n : Z)
    (k : KernelType.t) :
  getKernel pds n = inr k ->
  exists e : DispatchElement,
    In e pds /\ kernel e = k /\ contains (interval e) n = true.
Proof.
  unfold getKernel.
  destruct (List.find _ pds) as [e|] eqn:Hfind; [|discriminate].
  intros [= <-]. apply find_some in Hfind as [Hin Hc].
  exists e. split; [exact Hin|]. split; [reflexivity | exact Hc].
Qed.

Lemma getKernel_none (pds : PriorityDispatchSet) (n : Z) :
  (forall e : DispatchElement, In e pds -> contains (interval e) n = false) ->
  getKernel pds n = inl CannotFindKernel.
Proof.
  intros Hnone. unfold getKernel.
  destruct (List.find _ pds) as [e|] eqn:Hfind; [|reflexivity].
  apply find_some in Hfind as [Hin Hc]. rewrite (Hnone e Hin) in Hc.
  discriminate.
Qed.

Section Registry.

Variable other_families : KernelType.t -> list GateOperation.t.

Local Abbreviation assignKernelForOp := (assignKernelForOp other_families).
Local Abbreviation implements := (implements other_families).
Local Abbreviation run := (run other_families).

Lemma entries_insert (m : gmap Key PriorityDispatchSet)
    (op op' : GateOperation.t) (th th' : Threading)
    (mm mm' : CPUMemoryModel) (pds : PriorityDispatchSet) :
  entries (<[key_of op th mm := pds]> m) op' th' mm'
  = if decide (key_of op th mm = key_of op' th' mm') then pds
    else entries m op' th' mm'.
Proof.
  unfold entries. rewrite lookup_insert. destruct (decide _); reflexivity.
Qed.

(** C8: a registration is rejected exactly when the kernel does not claim
    the operation or an entry of the same key has the same priority and an
    interval sharing a qubit count with the new one, and a rejected
    registration leaves the map as it was; [KernelType::None] claims no
    operation, so it is rejected for PauliX; and a priority set queried for
    a qubit count that no interval contains fails with the error whose text
    contains "Cannot find a kernel". *)
Theorem registration_rejected_iff (op : GateOperation.t) (th : Threading)
    (mm : CPUMemoryModel) (p : Z) (i : IntegerInterval) (k : KernelType.t)
    (m : gmap Key PriorityDispatchSet) :
  (snd (assignKernelForOp op th mm p i k m) <> None <->
   implements k op = false
   \/ exists e : DispatchElement,
        In e (entries m op th mm) /\ priority e = p
        /\ exists n : Z,
             contains (interval e) n = true /\ contains i n = true)
  /\ (snd (assignKernelForOp op th mm p i k m) <> None ->
      fst (assignKernelForOp op th mm p i k m) = m)
  /\ snd (assignKernelForOp GateOperation.PauliX th mm p i KernelType.None m)
     = Some KernelNotAllowed
  /\ forall (pds : PriorityDispatchSet) (n : Z),
       (forall e : DispatchElement,
          In e pds -> contains (interval e) n = false) ->
       getKernel pds n = inl CannotFindKernel
       /\ Contains "Cannot find a kernel" (what CannotFindKernel) = true.
Proof.
  split; [|split; [|split]].
  - unfold KernelMap.assignKernelForOp.
    destruct (implements k op) eqn:Himp; simpl.
    + destruct (conflict (entries m op th mm) p i) eqn:Hc; simpl.
      * split; [intros _; right; apply conflict_spec; exact Hc
               |intros _; discriminate].
      * split; [intros H; contradiction H; reflexivity|].
        intros [H|H]; [discriminate H|].
        apply conflict_spec in H. rewrite H in Hc. discriminate Hc.
    + split; [intros _; left; reflexivity | intros _; discriminate].
  - unfold KernelMap.assignKernelForOp.
    destruct (implements k op); simpl; [|reflexivity].
    destruct (conflict (entries m op th mm) p i); simpl; [reflexivity|].
    intros H. contradiction H. reflexivity.
  - reflexivity.
  - intros pds n Hnone. split; [apply getKernel_none; exact Hnone|].
    reflexivity.
Qed.

(** Every entry of the registry under an operation is of a kernel that
    claims the operation. *)
Definition consistent (m : gmap Key PriorityDispatchSet) : Prop :=
  forall (op : GateOperation.t) (th : Threading) (mm : CPUMemoryModel)
         (e : DispatchElement),
    In e (entries m op th mm) -> implements (kernel e) op = true.

Lemma consistent_empty : consistent ∅.
Proof.
  intros op th mm e H. unfold entries in H. rewrite lookup_empty in H.
  destruct H.
Qed.

Lemma run_consistent (m : gmap Key PriorityDispatchSet) (c : Command) :
  consistent m -> consistent (run m c).
Proof.
  intros Hm. destruct c as [op th mm p i k | op th mm p]; simpl.
  - unfold KernelMap.assignKernelForOp.
    destruct (implements k op) eqn:Himp; simpl; [|exact Hm].
    destruct (conflict (entries m op th mm) p i); simpl; [exact Hm|].
    intros op' th' mm' e. rewrite entries_insert.
    destruct (decide _) as [Heq|Hne]; [|apply Hm].
    apply key_of_inj in Heq as (<- & <- & <-).
    unfold emplace. rewrite In_insert_ordered.
    intros [-> | Hin]; [exact Himp | apply (Hm op th mm); exact Hin].
  - unfold removeKernelForOp.
    destruct (m !! key_of op th mm) as [pds|] eqn:Hpds; [|exact Hm].
    intros op' th' mm' e. rewrite entries_insert.
    destruct (decide _) as [Heq|Hne]; [|apply Hm].
    apply key_of_inj in Heq as (<- & <- & <-).
    unfold clearPriority. rewrite filter_In. intros [Hin _].
    apply (Hm op th mm). unfold entries, PriorityDispatchSet in *.
    rewrite Hpds. exact Hin.
Qed.

Lemma reachable_consistent (cmds : list Command) :
  forall m : gmap Key PriorityDispatchSet,
    consistent m -> consistent (fold_left run cmds m).
Proof.
  induction cmds as [|c cmds IH]; intros m Hm; simpl; [exact Hm|].
  apply IH. apply run_consistent. exact Hm.
Qed.

(** C10: the class defines [applyPauliZ], yet [PauliZ] is not among its
    [implemented_gates], which are all among the operations it defines and
    fewer; hence every registration of the AVX512 kernel for PauliZ is
    rejected, and in no registry built from the empty one by registrations
    and removals does a query for PauliZ resolve to the AVX512 kernel. *)
Theorem AVX512_never_dispatched_for_PauliZ :
  In GateOperation.PauliZ GateImplementationsAVX512.defined_gates
  /\ ~ In GateOperation.PauliZ GateImplementationsAVX512.implemented_gates
  /\ incl GateImplementationsAVX512.implemented_gates
          GateImplementationsAVX512.defined_gates
  /\ (length GateImplementationsAVX512.implemented_gates
      < length GateImplementationsAVX512.defined_gates)%nat
  /\ (forall (th : Threading) (mm : CPUMemoryModel) (p : Z)
             (i : IntegerInterval) (m : gmap Key PriorityDispatchSet),
        assignKernelForOp GateOperation.PauliZ th mm p i
          GateImplementationsAVX512.kernel_id m
        = (m, Some KernelNotAllowed))
  /\ (forall (cmds : list Command) (th : Threading) (mm : CPUMemoryModel)
             (n : Z),
        resolve GateOperation.PauliZ th mm n (fold_left run cmds ∅)
        <> inr GateImplementationsAVX512.kernel_id).
Proof.
  split; [simpl; tauto|].
  split; [simpl; intuition discriminate|].
  split; [intros g; simpl; intuition|].
  split; [simpl; lia|].
  split; [reflexivity|].
  intros cmds th mm n Hres. unfold resolve in Hres.
  apply getKernel_found in Hres as (e & Hin & Hk & _).
  pose proof (reachable_consistent cmds ∅ consistent_empty
                GateOperation.PauliZ th mm e Hin) as Himp.
  rewrite Hk in Himp. discriminate Himp.
Qed.

(** Removing the priority of a fresh registration gives back the entries
    of the key as they were, so the query resolves as before. *)
Lemma clearPriority_insert_ordered (elt : DispatchElement)
    (pds : PriorityDispatchSet) :
  (forall e : DispatchElement, In e pds -> priority e <> priority elt) ->
  clearPriority (insert_ordered elt pds) (priority elt) = pds.
Proof.
  unfold clearPriority. induction pds as [|x pds IH]; intros Hfresh; simpl.
  - rewrite Z.eqb_refl. reflexivity.
  - assert (Hx : (priority x =? priority elt)%Z = false)
      by (apply Z.eqb_neq; apply Hfresh; left; reflexivity).
    destruct (priority x <? priority elt)%Z; simpl.
    + rewrite Z.eqb_refl, Hx. simpl. f_equal.
      clear IH. induction pds as [|y pds IH]; simpl; [reflexivity|].
      assert (Hy : (priority y =? priority elt)%Z = false)
        by (apply Z.eqb_neq; apply Hfresh; right; left; reflexivity).
      rewrite Hy. simpl. f_equal. apply IH.
      intros e [He|He]; apply Hfresh; [left | right; right]; assumption.
    + rewrite Hx. simpl. f_equal. apply IH.
      intros e He. apply Hfresh. right. exact He.
Qed.

Lemma assign_then_remove_restores (op : GateOperation.t) (th : Threading)
    (mm : CPUMemoryModel) (p : Z) (i : IntegerInterval) (k : KernelType.t)
    (m : gmap Key PriorityDispatchSet) (n : Z) :
  (forall e : DispatchElement,
     In e (entries m op th mm) -> priority e <> p) ->
  resolve op th mm n
    (removeKernelForOp op th mm p
       (fst (assignKernelForOp op th mm p i k m)))
  = resolve op th mm n m.
Proof.
  intros Hfresh. unfold KernelMap.assignKernelForOp.
  destruct (implements k op); simpl.
  - destruct (conflict (entries m op th mm) p i) eqn:Hc; simpl.
    + apply conflict_spec in Hc as (e & Hin & Hp & _).
      contradiction (Hfresh e Hin Hp).
    + unfold removeKernelForOp, resolve. rewrite lookup_insert_eq.
      rewrite entries_insert. rewrite decide_True by reflexivity.
      unfold emplace.
      rewrite (clearPriority_insert_ordered
                 {| priority := p; interval := i; kernel := k |});
        [reflexivity | exact Hfresh].
  - unfold removeKernelForOp, resolve.
    destruct (m !! key_of op th mm) as [pds|] eqn:Hpds; [|reflexivity].
    rewrite entries_insert. rewrite decide_True by reflexivity.
    unfold entries, PriorityDispatchSet in *. rewrite Hpds. simpl.
    f_equal. unfold clearPriority.
    rewrite Hpds in Hfresh. simpl in Hfresh.
    clear Hpds. induction pds as [|x pds IH]; simpl; [reflexivity|].
    assert (Hx : (priority x =? p)%Z = false)
      by (apply Z.eqb_neq; apply Hfresh; left; reflexivity).
    rewrite Hx. simpl. f_equal. apply IH.
    intros e He. apply Hfresh. right. exact He.
Qed.

End Registry.

(** *** The cases of [Test_KernelMap.cpp] *)

Definition all_gates : list GateOperation.t :=
  [ GateOperation.PauliX; GateOperation.PauliY; GateOperation.PauliZ;
    GateOperation.Hadamard; GateOperation.S; GateOperation.T;
    GateOperation.RX; GateOperation.RY; GateOperation.RZ;
    GateOperation.PhaseShift; GateOperation.Rot; GateOperation.CZ;
    GateOperation.SWAP; GateOperation.IsingXX; GateOperation.IsingYY;
    GateOperation.IsingZZ; GateOperation.MultiRZ ].

(** The generic families, which the tests register for every gate. *)
Definition generic_families (k : KernelType.t) : list GateOperation.t :=
  match k with
  | KernelType.PI | KernelType.LM => all_gates
  | _ => []
  end.

(** The set of the first test case: [emplace(10, [10, 20), PI)]. *)
Definition pds_test : PriorityDispatchSet :=
  emplace [] 10 {| min_ := 10; max_ := 20 |} KernelType.PI.

Example test_conflict :
  conflict pds_test 10 {| min_ := 19; max_ := 23 |} = true.
Proof. reflexivity. Qed.

Example test_getKernel :
  getKernel pds_test 15 = inr KernelType.PI
  /\ getKernel pds_test 30 = inl CannotFindKernel
  /\ Contains "Cannot find a kernel" (what CannotFindKernel) = true.
Proof. repeat split. Qed.

Example test_unallowed_kernel :
  snd (assignKernelForOp generic_families GateOperation.PauliX SingleThread
         Unaligned 0 full_domain KernelType.None ∅)
  = Some KernelNotAllowed.
Proof. reflexivity. Qed.

(** A registry holding the set of the first test under the PauliX key. *)
Definition registry_test : gmap Key PriorityDispatchSet :=
  {[ key_of GateOperation.PauliX SingleThread Unaligned := pds_test ]}.

(** A second entry of priority 10 on [19, 23) is rejected and changes
    nothing; 19 is the shared qubit count. *)
Lemma registration_rejected_iff_witness :
  snd (assignKernelForOp generic_families GateOperation.PauliX SingleThread
         Unaligned 10 {| min_ := 19; max_ := 23 |} KernelType.LM
         registry_test)
  <> None
  /\ fst (assignKernelForOp generic_families GateOperation.PauliX
            SingleThread Unaligned 10 {| min_ := 19; max_ := 23 |}
            KernelType.LM registry_test)
     = registry_test.
Proof.
  destruct (registration_rejected_iff generic_families GateOperation.PauliX
              SingleThread Unaligned 10 {| min_ := 19; max_ := 23 |}
              KernelType.LM registry_test) as (Hiff & Hsame & _).
  assert (Hrej : snd (assignKernelForOp generic_families GateOperation.PauliX
                        SingleThread Unaligned 10
                        {| min_ := 19; max_ := 23 |} KernelType.LM
                        registry_test) <> None).
  { apply Hiff. right.
    exists {| priority := 10; interval := {| min_ := 10; max_ := 20 |};
              kernel := KernelType.PI |}.
    split; [left; reflexivity|]. split; [reflexivity|].
    exists 19. split; reflexivity. }
  split; [exact Hrej | exact (Hsame Hrej)].
Defined.

End KernelMapFacts.

(** * Compile-time permutations ([avx_common/Permutation.hpp]) *)

From Stdlib Require Import Permutation ZifyNat.
From stdpp Require Import sorting.
From Equations Require Import Equations.

Local Open Scope Z_scope.

Module Permutation.

Import GateImplementationsAVX512.

(** One pass of the [for] loop of [bubble_sort]: [a] is the element now at
    index [idx], [rest] the elements after it. The flag is [swapped]. *)
Fixpoint bubble_pass_from (a : Z) (rest : list Z) : list Z * bool :=
  match rest with
  | [] => ([a], false)
  | b :: rest' =>
      if b <? a then
        let r := bubble_pass_from a rest' in (b :: fst r, true)
      else
        let r := bubble_pass_from b rest' in (a :: fst r, snd r)
  end.

Definition bubble_pass (l : list Z) : list Z * bool :=
  match l with
  | [] => ([], false)
  | a :: rest => bubble_pass_from a rest
  end.

(** The pairs out of order, which every swapping pass makes fewer. *)
Definition count_below (a : Z) (l : list Z) : nat :=
  length (List.filter (fun x => x <? a) l).

Fixpoint inversions (l : list Z) : nat :=
  match l with
  | [] => 0%nat
  | a :: rest => (count_below a rest + inversions rest)%nat
  end.

Lemma count_below_Permutation (a : Z) (l l' : list Z) :
  Permutation l l' -> count_below a l = count_below a l'.
Proof.
  unfold count_below. induction 1 as [|x l l' _ IH|x y l|l l' l'' _ IH1 _ IH2];
    simpl.
  - reflexivity.
  - destruct (x <? a); simpl; congruence.
  - destruct (x <? a), (y <? a); reflexivity.
  - congruence.
Qed.

Lemma bubble_pass_from_spec (a : Z) (rest : list Z) :
  Permutation (fst (bubble_pass_from a rest)) (a :: rest)
  /\ (inversions (fst (bubble_pass_from a rest))
      <= inversions (a :: rest))%nat
  /\ (snd (bubble_pass_from a rest) = true ->
      (inversions (fst (bubble_pass_from a rest))
       < inversions (a :: rest))%nat)
  /\ (snd (bubble_pass_from a rest) = false ->
      fst (bubble_pass_from a rest) = a :: rest
      /\ Sorted Z.le (a :: rest)).
Proof.
  revert a. induction rest as [|b rest IH]; intros a.
  - simpl. split; [reflexivity|]. split; [apply Nat.le_refl|].
    split; [discriminate|]. intros _. split; [reflexivity|].
    repeat constructor.
  - simpl. destruct (Z.ltb_spec b a) as [Hlt|Hge]; simpl.
    + destruct (IH a) as (Hp & Hle & _ & _).
      split; [rewrite Hp; apply perm_swap|].
      rewrite (count_below_Permutation b _ _ Hp).
      unfold count_below in *. simpl.
      assert (Hab : (a <? b) = false) by (apply Z.ltb_ge; lia).
      assert (Hba : (b <? a) = true) by (apply Z.ltb_lt; lia).
      rewrite Hab, Hba. simpl in *. unfold count_below in *.
      split; [lia|]. split; [intros _; lia|]. intros Hf. discriminate Hf.
    + destruct (IH b) as (Hp & Hle & Hlt & Hsame).
      split; [rewrite Hp; reflexivity|].
      rewrite (count_below_Permutation a _ _ Hp).
      split; [simpl in *; lia|].
      split; [intros Hs; specialize (Hlt Hs); simpl in *; lia|].
      intros Hs. destruct (Hsame Hs) as [-> Hsorted].
      split; [reflexivity|]. constructor; [exact Hsorted|].
      constructor. exact Hge.
Qed.

Lemma bubble_pass_decreases (l l' : list Z) :
  bubble_pass l = (l', true) -> (inversions l' < inversions l)%nat.
Proof.
  destruct l as [|a rest]; simpl; [discriminate|].
  intros H. destruct (bubble_pass_from_spec a rest) as (_ & _ & Hlt & _).
  rewrite H in Hlt. simpl in Hlt. apply Hlt. reflexivity.
Defined.

Definition inspect {A : Type} (a : A) : {b : A | a = b} :=
  exist _ a eq_refl.

(** [Internal::bubble_sort]: passes are repeated while one swapped. *)
Equations? bubble_sort (l : list Z) : list Z by wf (inversions l) lt :=
bubble_sort l with inspect (bubble_pass l) := {
  | exist _ (l', true) e => bubble_sort l'
  | exist _ (l', false) e => l' }.
Proof. apply bubble_pass_decreases. exact e. Defined.

(** [16 / sizeof(PrecisionT)]: reals in one 128-bit lane. *)
Definition size_within_lane (p : PrecisionT) : nat :=
  Z.to_nat (16 / sizeof p).

(** Unchecked [operator[]] on [std::array<uint8_t, size>]. *)
Definition elt (permutation : list Z) (i : nat) : Z := nth i permutation 0.

(** The values of [k] in [for (k = 0; k < size; k += step)]. *)
Definition strides (size step : nat) : list nat :=
  map (fun q => (q * step)%nat) (seq 0 ((size + step - 1) / step)).

Definition isWithinLane (p : PrecisionT) (permutation : list Z) : bool :=
  let size_within_lane := size_within_lane p in
  let lane := map (elt permutation) (seq 0 size_within_lane) in
  let lane2 := bubble_sort lane in
  if negb (forallb (fun i => elt lane2 i =? Z.of_nat i)
             (seq 0 size_within_lane))
  then false
  else
    forallb
      (fun k =>
         forallb
           (fun idx =>
              elt lane idx + Z.of_nat k =? elt permutation (idx + k))
           (seq 0 size_within_lane))
      (strides (length permutation) size_within_lane).

Definition uint8 (x : Z) : Z := x mod 256.

Definition getPermutation2x (permutation : list Z) : Z :=
  let res := uint8 (Z.lor (uint8 (Z.shiftl (elt permutation 1) 1))
                          (elt permutation 0)) in
  uint8 (Z.lor (Z.lor (Z.lor (Z.shiftl res 6) (Z.shiftl res 4))
                      (Z.shiftl res 2)) res).

Definition getPermutation4x (permutation : list Z) : Z :=
  fold_left
    (fun res idx => uint8 (Z.lor (uint8 (Z.shiftl res 2))
                                 (elt permutation idx)))
    [3; 2; 1; 0]%nat 0.

(** [CompiledPermutation<PrecisionT, packed_size>]: the lane flag, the
    immediate and the index vector, the last two with their default member
    initializers when the constructor does not set them. *)
Record CompiledPermutation : Set := {
  within_lane_ : bool;
  imm8_ : Z;
  permute_ : list Z
}.

Definition with_imm8 (within_lane : bool) (imm8 : Z) : CompiledPermutation :=
  {| within_lane_ := within_lane; imm8_ := uint8 imm8; permute_ := [0] |}.

Definition with_permute (within_lane : bool) (permute : list Z)
    : CompiledPermutation :=
  {| within_lane_ := within_lane; imm8_ := 0; permute_ := permute |}.

(** The instances [CompiledPermutation<PrecisionT, packed_size>] is
    specialised for: float with 8 or 16 reals, double with 4 or 8. The
    primary template fails its [static_assert], so nothing that names
    another instance compiles. *)
Definition specialised (p : PrecisionT) (packed_size : nat) : bool :=
  match p with
  | Float => (packed_size =? 8)%nat || (packed_size =? 16)%nat
  | Double => (packed_size =? 4)%nat || (packed_size =? 8)%nat
  end.

(** [compilePermutation]; [packed_size] is the length of the array. The
    return type is [CompiledPermutation<PrecisionT, packed_size>]: there is
    no value ([None]) for a size it is not specialised for. *)
Definition compilePermutation (p : PrecisionT) (permutation : list Z)
    : option CompiledPermutation :=
  let packed_size := Z.of_nat (length permutation) in
  if negb (specialised p (length permutation)) then None
  else
    let within_lane := isWithinLane p permutation in
    if within_lane then
      match p with
      | Float => Some (with_imm8 within_lane (getPermutation4x permutation))
      | Double => Some (with_imm8 within_lane (getPermutation2x permutation))
      end
    else if sizeof p * packed_size =? 32 then
      match p with
      | Float => Some (with_permute within_lane permutation)
      | Double => Some (with_imm8 within_lane (getPermutation4x permutation))
      end
    else if sizeof p * packed_size =? 64 then
      Some (with_permute within_lane permutation)
    else None.

(** [i++] and [k++] on a [uint8_t] counter: 255 is followed by 0. *)
Definition uint8_succ (i : nat) : nat := (S i mod 256)%nat.

(** The array [identity<packed_size>()] returns when its loop ends: the
    iterations for [i = 0 .. packed_size - 1] in turn. *)
Definition identity (packed_size : nat) : list Z :=
  fold_left (fun res i => <[i := Z.of_nat i]> res) (seq 0 packed_size)
            (repeat 0 packed_size).

(** The loop of [identity] as it runs, from the counter [i] and the array
    [res]. The counter is a [uint8_t], so for [packed_size] above 255 the
    test [i < packed_size] never fails. [None]: the loop has not ended
    after [fuel] tests. *)
Fixpoint identity_loop (fuel packed_size i : nat) (res : list Z)
    : option (list Z) :=
  match fuel with
  | O => None
  | S fuel' =>
      if (i <? packed_size)%nat then
        identity_loop fuel' packed_size (uint8_succ i)
          (<[i := Z.of_nat i]> res)
      else Some res
  end.

Definition identity_run (fuel packed_size : nat) : option (list Z) :=
  identity_loop fuel packed_size 0 (repeat 0 packed_size).

(** [1U << rev_wire] and the exclusive or with [k]. *)
Definition flip_index (k rev_wire : nat) : nat :=
  Nat.lxor k (Nat.shiftl 1 rev_wire).

Definition flip (perm : list Z) (rev_wire : nat) : list Z :=
  let packed_size := length perm in
  fold_left
    (fun res k =>
       <[(2 * k + 1)%nat := elt perm (2 * flip_index k rev_wire + 1)]>
         (<[(2 * k + 0)%nat := elt perm (2 * flip_index k rev_wire + 0)]>
            res))
    (seq 0 (packed_size / 2)) (repeat 0 packed_size).

(** The array [swapRealImag] returns when its loop ends: the iterations
    for [k = 0 .. packed_size / 2 - 1] in turn. *)
Definition swapRealImag (perm : list Z) : list Z :=
  let packed_size := length perm in
  fold_left
    (fun res k =>
       <[(2 * k + 1)%nat := elt perm (2 * k + 0)]>
         (<[(2 * k + 0)%nat := elt perm (2 * k + 1)]> res))
    (seq 0 (packed_size / 2)) (repeat 0 packed_size).

(** The loop of [swapRealImag] as it runs. The counter [k] is a [uint8_t]
    (the products [2 * k] are computed in [int]), so for [packed_size / 2]
    above 255 the test [k < packed_size / 2] never fails. *)
Fixpoint swapRealImag_loop (fuel : nat) (perm : list Z) (k : nat)
    (res : list Z) : option (list Z) :=
  match fuel with
  | O => None
  | S fuel' =>
      if (k <? length perm / 2)%nat then
        swapRealImag_loop fuel' perm (uint8_succ k)
          (<[(2 * k + 1)%nat := elt perm (2 * k + 0)]>
             (<[(2 * k + 0)%nat := elt perm (2 * k + 1)]> res))
      else Some res
  end.

Definition swapRealImag_run (fuel : nat) (perm : list Z) : option (list Z) :=
  swapRealImag_loop fuel perm 0 (repeat 0 (length perm)).

End Permutation.

(** ** Sorting, lanes and immediates of the compiled permutations *)

Module PermutationFacts.

Import GateImplementationsAVX512 Permutation.

Local Open Scope nat_scope.

Lemma bubble_pass_Permutation (l : list Z) :
  Permutation (fst (bubble_pass l)) l.
Proof.
  destruct l as [|a rest]; [reflexivity|]. simpl.
  apply bubble_pass_from_spec.
Qed.

Lemma bubble_pass_fixed (l l' : list Z) :
  bubble_pass l = (l', false) -> l' = l /\ Sorted Z.le l.
Proof.
  destruct l as [|a rest]; simpl.
  - intros [= <-]. split; [reflexivity | constructor].
  - intros H. destruct (bubble_pass_from_spec a rest) as (_ & _ & _ & Hsame).
    rewrite H in Hsame. simpl in Hsame. apply Hsame. reflexivity.
Qed.

Lemma bubble_sort_spec (l : list Z) :
  Sorted Z.le (bubble_sort l) /\ Permutation (bubble_sort l) l.
Proof.
  funelim (bubble_sort l).
  - destruct H as [Hs Hp]. split; [exact Hs|]. rewrite Hp.
    pose proof (bubble_pass_Permutation l) as Hpass.
    rewrite e in Hpass. exact Hpass.
  - clear Heqcall. destruct (bubble_pass_fixed l l' e) as [-> Hs].
    split; [exact Hs | reflexivity].
Qed.

Lemma sorted_permutations_equal (l1 l2 : list Z) :
  Sorted Z.le l1 -> Sorted Z.le l2 -> Permutation l1 l2 -> l1 = l2.
Proof. intros H1 H2 Hp. exact (Sorted_unique Z.le l1 l2 H1 H2 Hp). Qed.

(** X1: [bubble_sort] returns (the passes end), and what it returns is
    the input in ascending order: sorted, with the same elements as often,
    and the input itself when that was sorted already. *)
Theorem bubble_sort_sorts (l : list Z) :
  Sorted Z.le (bubble_sort l)
  /\ Permutation (bubble_sort l) l
  /\ (Sorted Z.le l -> bubble_sort l = l).
Proof.
  destruct (bubble_sort_spec l) as [Hs Hp].
  split; [exact Hs|]. split; [exact Hp|].
  intros Hl. apply sorted_permutations_equal; assumption.
Qed.

(** The indices [0, 1, ..., n - 1] as array values. *)
Definition iota (n : nat) : list Z := map Z.of_nat (seq 0 n).

Lemma iota_sorted (n : nat) : Sorted Z.le (iota n).
Proof.
  unfold iota. generalize 0. induction n as [|n IH]; intros s; simpl.
  - constructor.
  - constructor; [apply IH|]. destruct n; simpl; constructor. lia.
Qed.

Lemma elt_iota (n i : nat) : i < n -> elt (iota n) i = Z.of_nat i.
Proof.
  intros Hi. unfold elt, iota.
  rewrite (nth_indep _ 0%Z (Z.of_nat 0)) by (rewrite length_map, length_seq; lia).
  rewrite map_nth, seq_nth by lia. reflexivity.
Qed.

Lemma elt_map_seq (f : nat -> Z) (n i : nat) :
  i < n -> elt (map f (seq 0 n)) i = f i.
Proof.
  intros Hi. unfold elt.
  rewrite (nth_indep _ 0%Z (f 0)) by (rewrite length_map, length_seq; lia).
  rewrite map_nth, seq_nth by lia. reflexivity.
Qed.

Lemma is_iota (l : list Z) (n : nat) :
  length l = n ->
  forallb (fun i => (elt l i =? Z.of_nat i)%Z) (seq 0 n) = true <->
  l = iota n.
Proof.
  intros Hlen. rewrite forallb_forall. split.
  - intros H. apply (nth_ext _ _ 0%Z 0%Z).
    + unfold iota. rewrite length_map, length_seq. exact Hlen.
    + intros i Hi. fold (elt l i). fold (elt (iota n) i).
      rewrite elt_iota by lia. apply Z.eqb_eq. apply H. apply in_seq. lia.
  - intros -> i Hi. apply in_seq in Hi. apply Z.eqb_eq. apply elt_iota. lia.
Qed.

(** The sorted lane is [0, ..., n - 1] exactly when the lane permutes
    these values. *)
Lemma sorted_lane_iota (lane : list Z) (n : nat) :
  length lane = n ->
  forallb (fun i => (elt (bubble_sort lane) i =? Z.of_nat i)%Z) (seq 0 n)
  = true <->
  Permutation lane (iota n).
Proof.
  intros Hlen. destruct (bubble_sort_spec lane) as [Hs Hp].
  rewrite is_iota by (rewrite (Permutation_length Hp); exact Hlen).
  split.
  - intros <-. symmetry. exact Hp.
  - intros Hi. apply sorted_permutations_equal;
      [exact Hs | apply iota_sorted | rewrite Hp; exact Hi].
Qed.

Lemma size_within_lane_pos (p : PrecisionT) : 0 < size_within_lane p.
Proof. destruct p; vm_compute; lia. Qed.

Lemma lane_is_firstn (perm : list Z) (n : nat) :
  n <= length perm -> map (elt perm) (seq 0 n) = firstn n perm.
Proof.
  intros Hn. apply (nth_ext _ _ 0%Z 0%Z).
  - rewrite length_map, length_seq, length_firstn. lia.
  - intros i Hi. rewrite length_map, length_seq in Hi.
    fold (elt (map (elt perm) (seq 0 n)) i). rewrite elt_map_seq by lia.
    rewrite nth_firstn. destruct (Nat.ltb_spec i n); [reflexivity | lia].
Qed.

Lemma strides_multiple (m step : nat) :
  0 < step ->
  strides (m * step) step = map (fun q => q * step) (seq 0 m).
Proof.
  intros Hstep. unfold strides. f_equal. f_equal.
  replace (m * step + step - 1) with (m * step + (step - 1)) by lia.
  rewrite Nat.div_add_l by lia. rewrite Nat.div_small by lia. lia.
Qed.

Lemma shifted_lanes_iff (perm lane : list Z) (m swl : nat) :
  0 < swl ->
  (forall idx, idx < swl -> elt lane idx = elt perm idx) ->
  forallb
    (fun k =>
       forallb
         (fun idx =>
            (elt lane idx + Z.of_nat k =? elt perm (idx + k))%Z)
         (seq 0 swl))
    (map (fun q => q * swl) (seq 0 m))
  = true <->
  forall i : nat,
    i < m * swl ->
    elt perm i = (elt perm (i mod swl) + Z.of_nat (swl * (i / swl)))%Z.
Proof.
  intros Hswl Hlane. rewrite forallb_forall. split.
  - intros H i Hi.
    assert (Hq : i / swl < m) by (apply Nat.Div0.div_lt_upper_bound; lia).
    assert (Hidx : i mod swl < swl) by (apply Nat.mod_upper_bound; lia).
    specialize (H (i / swl * swl)).
    rewrite forallb_forall in H.
    assert (Hin : In (i / swl * swl) (map (fun q => q * swl) (seq 0 m))).
    { apply in_map_iff. exists (i / swl). split; [reflexivity|].
      apply in_seq. lia. }
    specialize (H Hin (i mod swl)).
    assert (Hin' : In (i mod swl) (seq 0 swl)) by (apply in_seq; lia).
    specialize (H Hin'). apply Z.eqb_eq in H.
    rewrite Hlane in H by exact Hidx.
    replace (i mod swl + i / swl * swl) with i in H
      by (rewrite (Nat.div_mod_eq i swl) at 1; lia).
    rewrite <- H. f_equal. lia.
  - intros H k Hk. apply in_map_iff in Hk as (q & <- & Hq).
    apply in_seq in Hq. rewrite forallb_forall. intros idx Hidx.
    apply in_seq in Hidx. apply Z.eqb_eq.
    rewrite Hlane by lia.
    rewrite (H (idx + q * swl)) by nia.
    rewrite Nat.Div0.mod_add, Nat.div_add by lia.
    rewrite Nat.mod_small, Nat.div_small by lia. f_equal. lia.
Qed.

Lemma isWithinLane_spec (p : PrecisionT) (permutation : list Z) (m : nat) :
  length permutation = m * size_within_lane p ->
  0 < m ->
  isWithinLane p permutation = true <->
  Permutation (firstn (size_within_lane p) permutation)
              (iota (size_within_lane p))
  /\ forall i : nat,
       i < length permutation ->
       elt permutation i
       = (elt permutation (i mod size_within_lane p)
          + Z.of_nat (size_within_lane p * (i / size_within_lane p)))%Z.
Proof.
  intros Hlen Hm. pose proof (size_within_lane_pos p) as Hswl.
  unfold isWithinLane.
  set (swl := size_within_lane p) in *.
  set (lane := map (elt permutation) (seq 0 swl)).
  assert (Hlane_len : length lane = swl)
    by (unfold lane; rewrite length_map, length_seq; reflexivity).
  assert (Hlane : forall idx, idx < swl -> elt lane idx = elt permutation idx)
    by (intros idx Hidx; unfold lane; apply elt_map_seq; exact Hidx).
  rewrite <- (lane_is_firstn permutation swl) by nia. fold lane.
  rewrite <- (sorted_lane_iota lane swl Hlane_len).
  rewrite Hlen at 1. rewrite strides_multiple by exact Hswl.
  rewrite Hlen.
  rewrite <- (shifted_lanes_iff permutation lane m swl Hswl Hlane).
  destruct (forallb _ (seq 0 swl)); simpl; [tauto|].
  split; [discriminate | intros [H _]; discriminate H].
Qed.

(** X2: for an array of whole lanes, [isWithinLane] accepts exactly the
    permutations that act inside each 128-bit lane in the same way: the
    first lane permutes its own indices, and every entry is the entry at the
    same place of the first lane shifted by the start of its lane. *)
Theorem isWithinLane_iff (p : PrecisionT) (permutation : list Z) (m : nat) :
  length permutation = m * size_within_lane p ->
  0 < m ->
  isWithinLane p permutation = true <->
  Permutation (firstn (size_within_lane p) permutation)
              (iota (size_within_lane p))
  /\ forall i : nat,
       i < length permutation ->
       elt permutation i
       = (elt permutation (i mod size_within_lane p)
          + Z.of_nat (size_within_lane p * (i / size_within_lane p)))%Z.
Proof. exact (isWithinLane_spec p permutation m). Qed.

Lemma isWithinLane_iff_witness :
  length [1; 0; 3; 2; 5; 4; 7; 6]%Z = 2 * size_within_lane Float
  /\ 0 < 2
  /\ isWithinLane Float [1; 0; 3; 2; 5; 4; 7; 6]%Z = true
  /\ Permutation (firstn (size_within_lane Float) [1; 0; 3; 2; 5; 4; 7; 6]%Z)
                 (iota (size_within_lane Float)).
Proof.
  assert (Hlen : length [1; 0; 3; 2; 5; 4; 7; 6]%Z
                 = 2 * size_within_lane Float) by reflexivity.
  assert (Hm : 0 < 2) by lia.
  split; [exact Hlen|]. split; [exact Hm|]. split; [reflexivity|].
  apply (proj1 (isWithinLane_iff Float [1; 0; 3; 2; 5; 4; 7; 6]%Z 2 Hlen Hm)).
  reflexivity.
Defined.

Lemma uint8_small (x : Z) : (0 <= x < 256)%Z -> uint8 x = x.
Proof. intros H. unfold uint8. apply Z.mod_small. exact H. Qed.

Lemma getPermutation4x_fields (p0 p1 p2 p3 : Z) (rest : list Z) :
  (0 <= p0 < 4)%Z -> (0 <= p1 < 4)%Z -> (0 <= p2 < 4)%Z -> (0 <= p3 < 4)%Z ->
  getPermutation4x (p0 :: p1 :: p2 :: p3 :: rest)
  = (p0 + 4 * p1 + 16 * p2 + 64 * p3)%Z
  /\ Z.land (Z.shiftr (getPermutation4x (p0 :: p1 :: p2 :: p3 :: rest)) 0) 3
     = p0
  /\ Z.land (Z.shiftr (getPermutation4x (p0 :: p1 :: p2 :: p3 :: rest)) 2) 3
     = p1
  /\ Z.land (Z.shiftr (getPermutation4x (p0 :: p1 :: p2 :: p3 :: rest)) 4) 3
     = p2
  /\ Z.land (Z.shiftr (getPermutation4x (p0 :: p1 :: p2 :: p3 :: rest)) 6) 3
     = p3.
Proof.
  intros H0 H1 H2 H3. unfold getPermutation4x, elt. simpl.
  assert (C0 : (p0 = 0 \/ p0 = 1 \/ p0 = 2 \/ p0 = 3)%Z) by lia.
  assert (C1 : (p1 = 0 \/ p1 = 1 \/ p1 = 2 \/ p1 = 3)%Z) by lia.
  assert (C2 : (p2 = 0 \/ p2 = 1 \/ p2 = 2 \/ p2 = 3)%Z) by lia.
  assert (C3 : (p3 = 0 \/ p3 = 1 \/ p3 = 2 \/ p3 = 3)%Z) by lia.
  destruct C0 as [->|[->|[->| ->]]]; destruct C1 as [->|[->|[->| ->]]];
    destruct C2 as [->|[->|[->| ->]]]; destruct C3 as [->|[->|[->| ->]]];
    vm_compute; repeat split.
Qed.

Lemma getPermutation2x_bits (p0 p1 : Z) (rest : list Z) (j : nat) :
  (0 <= p0 < 2)%Z -> (0 <= p1 < 2)%Z -> j < 8 ->
  Z.b2z (Z.testbit (getPermutation2x (p0 :: p1 :: rest)) (Z.of_nat j))
  = if Nat.even j then p0 else p1.
Proof.
  intros H0 H1 Hj. unfold getPermutation2x, elt. simpl.
  assert (C0 : (p0 = 0 \/ p0 = 1)%Z) by lia.
  assert (C1 : (p1 = 0 \/ p1 = 1)%Z) by lia.
  do 8 (destruct j as [|j]; [destruct C0 as [->| ->]; destruct C1 as [->| ->];
                              reflexivity|]).
  lia.
Qed.

Lemma four_entries (perm : list Z) :
  4 <= length perm ->
  exists rest : list Z,
    perm = elt perm 0 :: elt perm 1 :: elt perm 2 :: elt perm 3 :: rest.
Proof.
  intros H. destruct perm as [|p0 [|p1 [|p2 [|p3 rest]]]]; simpl in H;
    try lia.
  exists rest. reflexivity.
Qed.

Lemma two_entries (perm : list Z) :
  2 <= length perm ->
  exists rest : list Z, perm = elt perm 0 :: elt perm 1 :: rest.
Proof.
  intros H. destruct perm as [|p0 [|p1 rest]]; simpl in H; try lia.
  exists rest. reflexivity.
Qed.

Lemma getPermutation4x_fields_at (permutation : list Z) :
  4 <= length permutation ->
  (forall i : nat, i < 4 -> (0 <= elt permutation i < 4)%Z) ->
  getPermutation4x permutation
  = (elt permutation 0 + 4 * elt permutation 1 + 16 * elt permutation 2
     + 64 * elt permutation 3)%Z
  /\ (0 <= getPermutation4x permutation < 256)%Z
  /\ forall i : nat,
       i < 4 ->
       Z.land (Z.shiftr (getPermutation4x permutation) (2 * Z.of_nat i)) 3
       = elt permutation i.
Proof.
  intros Hlen Hrange. destruct (four_entries permutation Hlen) as [rest Hp].
  destruct (getPermutation4x_fields (elt permutation 0) (elt permutation 1)
              (elt permutation 2) (elt permutation 3) rest)
    as (Hval & F0 & F1 & F2 & F3); try (apply Hrange; lia).
  rewrite <- Hp in *.
  split; [exact Hval|]. split.
  - rewrite Hval. pose proof (Hrange 0). pose proof (Hrange 1).
    pose proof (Hrange 2). pose proof (Hrange 3). lia.
  - intros i Hi.
    destruct i as [|[|[|[|i]]]]; [exact F0 | exact F1 | exact F2 | exact F3
                                  | lia].
Qed.

(** X3: when the first four entries are below 4, [getPermutation4x]
    packs them into the four 2-bit fields of one byte, entry [i] in bits
    [2i] and [2i + 1]: shifting and masking gives each entry back. *)
Theorem getPermutation4x_decode (permutation : list Z) :
  4 <= length permutation ->
  (forall i : nat, i < 4 -> (0 <= elt permutation i < 4)%Z) ->
  getPermutation4x permutation
  = (elt permutation 0 + 4 * elt permutation 1 + 16 * elt permutation 2
     + 64 * elt permutation 3)%Z
  /\ (0 <= getPermutation4x permutation < 256)%Z
  /\ forall i : nat,
       i < 4 ->
       Z.land (Z.shiftr (getPermutation4x permutation) (2 * Z.of_nat i)) 3
       = elt permutation i.
Proof. exact (getPermutation4x_fields_at permutation). Qed.

Lemma getPermutation4x_decode_witness :
  4 <= length [2; 3; 0; 1]%Z
  /\ getPermutation4x [2; 3; 0; 1]%Z = 78%Z
  /\ Z.land (Z.shiftr (getPermutation4x [2; 3; 0; 1]%Z) (2 * Z.of_nat 1)) 3
     = 3%Z.
Proof.
  assert (Hlen : 4 <= length [2; 3; 0; 1]%Z) by (simpl; lia).
  assert (Hrange : forall i : nat,
            i < 4 -> (0 <= elt [2; 3; 0; 1]%Z i < 4)%Z).
  { intros i Hi. destruct i as [|[|[|[|i]]]]; unfold elt; simpl; lia. }
  destruct (getPermutation4x_decode [2; 3; 0; 1]%Z Hlen Hrange)
    as (Hval & _ & Hfield).
  split; [exact Hlen|]. split; [exact Hval|].
  apply (Hfield 1). lia.
Defined.

Lemma getPermutation2x_bits_at (permutation : list Z) :
  2 <= length permutation ->
  (forall i : nat, i < 2 -> (0 <= elt permutation i < 2)%Z) ->
  forall j : nat,
    j < 8 ->
    Z.b2z (Z.testbit (getPermutation2x permutation) (Z.of_nat j))
    = elt permutation (j mod 2).
Proof.
  intros Hlen Hrange j Hj. destruct (two_entries permutation Hlen) as [rest Hp].
  pose proof (getPermutation2x_bits (elt permutation 0) (elt permutation 1)
                rest j (Hrange 0 ltac:(lia)) (Hrange 1 ltac:(lia)) Hj) as H.
  rewrite <- Hp in H. rewrite H.
  do 8 (destruct j as [|j]; [reflexivity|]). lia.
Qed.

(** X4: when the first two entries are 0 or 1, bit [j] of the byte that
    [getPermutation2x] returns is entry [j mod 2], for each of the eight
    bits: the pair is repeated for the four 128-bit lanes. *)
Theorem getPermutation2x_decode (permutation : list Z) :
  2 <= length permutation ->
  (forall i : nat, i < 2 -> (0 <= elt permutation i < 2)%Z) ->
  forall j : nat,
    j < 8 ->
    Z.b2z (Z.testbit (getPermutation2x permutation) (Z.of_nat j))
    = elt permutation (j mod 2).
Proof. exact (getPermutation2x_bits_at permutation). Qed.

Lemma getPermutation2x_decode_witness :
  2 <= length [1; 0; 3; 2]%Z
  /\ getPermutation2x [1; 0; 3; 2]%Z = 85%Z
  /\ Z.b2z (Z.testbit (getPermutation2x [1; 0; 3; 2]%Z) (Z.of_nat 5))
     = elt [1; 0; 3; 2]%Z (5 mod 2).
Proof.
  assert (Hlen : 2 <= length [1; 0; 3; 2]%Z) by (simpl; lia).
  assert (Hrange : forall i : nat,
            i < 2 -> (0 <= elt [1; 0; 3; 2]%Z i < 2)%Z).
  { intros i Hi. destruct i as [|[|i]]; unfold elt; simpl; lia. }
  split; [exact Hlen|]. split; [reflexivity|].
  apply (getPermutation2x_decode [1; 0; 3; 2]%Z Hlen Hrange 5). lia.
Defined.

Lemma first_lane_range (perm : list Z) (n idx : nat) :
  n <= length perm ->
  Permutation (firstn n perm) (iota n) ->
  idx < n ->
  (0 <= elt perm idx < Z.of_nat n)%Z.
Proof.
  intros Hn Hp Hidx.
  assert (Hin : In (elt perm idx) (firstn n perm)).
  { rewrite <- lane_is_firstn by exact Hn. apply in_map. apply in_seq. lia. }
  apply (Permutation_in _ Hp) in Hin. unfold iota in Hin.
  apply in_map_iff in Hin as (k & <- & Hk). apply in_seq in Hk. lia.
Qed.

(** X5: for the four instances that exist (float with 8 or 16 reals,
    double with 4 or 8), a permutation that [isWithinLane] accepts is
    compiled to an immediate from which the within-lane permute
    instructions read the permutation back. For float, entry [i] is the
    start of the lane of [i] plus the 2-bit field [i mod 4] of the
    immediate; for double it is the start of the lane plus bit [i] of the
    immediate. For any other size there is no compiled permutation. *)
Theorem compilePermutation_within_lane (p : PrecisionT)
    (permutation : list Z) :
  isWithinLane p permutation = true ->
  if specialised p (length permutation) then
    exists c : CompiledPermutation,
      compilePermutation p permutation = Some c
      /\ within_lane_ c = true
      /\ forall i : nat,
           i < length permutation ->
           match p with
           | Float =>
               elt permutation i
               = (4 * Z.of_nat (i / 4)
                  + Z.land (Z.shiftr (imm8_ c) (2 * Z.of_nat (i mod 4))) 3)%Z
           | Double =>
               elt permutation i
               = (2 * Z.of_nat (i / 2)
                  + Z.b2z (Z.testbit (imm8_ c) (Z.of_nat i)))%Z
           end
  else compilePermutation p permutation = None.
Proof.
  intros Hwl. unfold compilePermutation.
  destruct (specialised p (length permutation)) eqn:Hspec; [|reflexivity].
  cbn [negb]. rewrite Hwl.
  assert (Hm : exists m : nat,
            length permutation = m * size_within_lane p /\ 0 < m
            /\ length permutation <= 16
            /\ (p = Double -> length permutation <= 8)).
  { destruct p; simpl in Hspec; apply orb_true_iff in Hspec;
      destruct Hspec as [E|E]; apply Nat.eqb_eq in E; rewrite E.
    - exists 2. repeat split; try lia; discriminate.
    - exists 4. repeat split; try lia; discriminate.
    - exists 2. repeat split; lia.
    - exists 4. repeat split; lia. }
  destruct Hm as (m & Hlen & Hm & _ & H8).
  destruct (proj1 (isWithinLane_spec p permutation m Hlen Hm) Hwl)
    as [Hperm Hshift].
  pose proof (size_within_lane_pos p) as Hswl.
  assert (Hfirst : forall idx, idx < size_within_lane p ->
            (0 <= elt permutation idx < Z.of_nat (size_within_lane p))%Z).
  { intros idx Hidx. apply first_lane_range; [nia | exact Hperm | exact Hidx]. }
  destruct p.
  - change (size_within_lane Float) with 4 in *.
    assert (H4 : 4 <= length permutation) by lia.
    destruct (getPermutation4x_fields_at permutation H4
                ltac:(intros i Hi; apply (Hfirst i Hi)))
      as (_ & Hbyte & Hfield).
    eexists. split; [reflexivity|]. split; [reflexivity|].
    intros i Hi. simpl imm8_. rewrite uint8_small by exact Hbyte.
    rewrite (Hshift i Hi).
    rewrite (Hfield (i mod 4)) by (apply Nat.mod_upper_bound; lia). lia.
  - change (size_within_lane Double) with 2 in *.
    assert (H2 : 2 <= length permutation) by lia.
    assert (Hrange : forall i, i < 2 -> (0 <= elt permutation i < 2)%Z)
      by (intros i Hi; apply (Hfirst i Hi)).
    eexists. split; [reflexivity|]. split; [reflexivity|].
    intros i Hi. simpl imm8_.
    assert (Hi8 : i < 8) by (specialize (H8 eq_refl); lia).
    assert (Hbyte : (0 <= getPermutation2x permutation < 256)%Z)
      by (unfold getPermutation2x, uint8; apply Z.mod_pos_bound; lia).
    rewrite uint8_small by exact Hbyte.
    rewrite (getPermutation2x_bits_at permutation H2 Hrange i Hi8).
    rewrite (Hshift i Hi). lia.
Qed.

(** *** The array loops of [identity], [flip] and [swapRealImag] *)

Lemma elt_insert_eq (l : list Z) (i : nat) (x : Z) :
  i < length l -> elt (<[i := x]> l) i = x.
Proof.
  intros Hi. unfold elt. rewrite nth_lookup.
  rewrite list_lookup_insert_eq by exact Hi. reflexivity.
Qed.

Lemma elt_insert_ne (l : list Z) (i j : nat) (x : Z) :
  i <> j -> elt (<[i := x]> l) j = elt l j.
Proof.
  intros Hne. unfold elt. rewrite !nth_lookup.
  rewrite list_lookup_insert_ne by exact Hne. reflexivity.
Qed.

(** A loop that writes the pair of entries [2k], [2k + 1] in step [k]. *)
Definition pair_loop (f g : nat -> Z) (n : nat) (init : list Z) : list Z :=
  fold_left
    (fun res k => <[2 * k + 1 := g k]> (<[2 * k + 0 := f k]> res))
    (seq 0 n) init.

Lemma pair_loop_S (f g : nat -> Z) (n : nat) (init : list Z) :
  pair_loop f g (S n) init
  = <[2 * n + 1 := g n]> (<[2 * n + 0 := f n]> (pair_loop f g n init)).
Proof. unfold pair_loop. rewrite seq_S, fold_left_app. reflexivity. Qed.

Lemma pair_loop_length (f g : nat -> Z) (n : nat) (init : list Z) :
  length (pair_loop f g n init) = length init.
Proof.
  induction n as [|n IH]; [reflexivity|].
  rewrite pair_loop_S, !length_insert. exact IH.
Qed.

Lemma half_even (n : nat) : (2 * n) / 2 = n /\ (2 * n) mod 2 = 0.
Proof.
  split; [symmetry; apply (Nat.div_unique _ 2 n 0); lia
         |symmetry; apply (Nat.mod_unique _ 2 n 0); lia].
Qed.

Lemma half_odd (n : nat) : (2 * n + 1) / 2 = n /\ (2 * n + 1) mod 2 = 1.
Proof.
  split; [symmetry; apply (Nat.div_unique _ 2 n 1); lia
         |symmetry; apply (Nat.mod_unique _ 2 n 1); lia].
Qed.

Lemma parity_cases (j : nat) :
  (j = 2 * (j / 2) /\ j mod 2 = 0) \/ (j = 2 * (j / 2) + 1 /\ j mod 2 = 1).
Proof.
  pose proof (Nat.div_mod_eq j 2) as H.
  pose proof (Nat.mod_upper_bound j 2 ltac:(lia)) as Hm.
  destruct (j mod 2) as [|[|k]] eqn:E; [left | right |]; lia.
Qed.

Lemma pair_loop_elt (f g : nat -> Z) (n : nat) (init : list Z) (j : nat) :
  2 * n <= length init ->
  j < 2 * n ->
  elt (pair_loop f g n init) j
  = if j mod 2 =? 0 then f (j / 2) else g (j / 2).
Proof.
  induction n as [|n IH]; intros Hlen Hj; [lia|].
  rewrite pair_loop_S.
  pose proof (pair_loop_length f g n init) as Hl.
  destruct (Nat.eq_dec j (2 * n + 1)) as [->|Hne1].
  - rewrite elt_insert_eq by (rewrite length_insert; lia).
    destruct (half_odd n) as [-> ->]. reflexivity.
  - rewrite elt_insert_ne by lia.
    destruct (Nat.eq_dec j (2 * n)) as [->|Hne0].
    + replace (2 * n + 0) with (2 * n) by lia.
      rewrite elt_insert_eq by lia.
      destruct (half_even n) as [-> ->]. reflexivity.
    + rewrite elt_insert_ne by lia. apply IH; lia.
Qed.

Lemma identity_iota (n : nat) : identity n = iota n.
Proof.
  unfold identity, iota.
  assert (H : forall k, k <= n ->
            fold_left (fun res i => <[i := Z.of_nat i]> res) (seq 0 k)
                      (repeat 0%Z n)
            = map Z.of_nat (seq 0 k) ++ repeat 0%Z (n - k)).
  { induction k as [|k IH]; intros Hk.
    - simpl. rewrite Nat.sub_0_r. reflexivity.
    - rewrite seq_S, fold_left_app, IH by lia. simpl.
      rewrite map_app. simpl.
      replace (n - k) with (S (n - S k)) by lia. simpl.
      rewrite insert_app_r_alt by (rewrite length_map, length_seq; lia).
      rewrite length_map, length_seq, Nat.sub_diag. simpl.
      rewrite <- app_assoc. reflexivity. }
  rewrite (H n) by lia. rewrite Nat.sub_diag, app_nil_r. reflexivity.
Qed.

Lemma flip_length (perm : list Z) (rev_wire : nat) :
  length (flip perm rev_wire) = length perm.
Proof.
  unfold flip.
  change (length (pair_loop
                    (fun k => elt perm (2 * flip_index k rev_wire + 0))
                    (fun k => elt perm (2 * flip_index k rev_wire + 1))
                    (length perm / 2) (repeat 0%Z (length perm)))
          = length perm).
  rewrite pair_loop_length. apply repeat_length.
Qed.

Lemma flip_elt (perm : list Z) (rev_wire j : nat) :
  j < 2 * (length perm / 2) ->
  elt (flip perm rev_wire) j
  = elt perm (2 * flip_index (j / 2) rev_wire + j mod 2).
Proof.
  intros Hj. unfold flip.
  change (elt (pair_loop
                 (fun k => elt perm (2 * flip_index k rev_wire + 0))
                 (fun k => elt perm (2 * flip_index k rev_wire + 1))
                 (length perm / 2) (repeat 0%Z (length perm))) j
          = elt perm (2 * flip_index (j / 2) rev_wire + j mod 2)).
  rewrite pair_loop_elt; [|rewrite repeat_length;
                           pose proof (Nat.div_mod_eq (length perm) 2); lia
                          |exact Hj].
  destruct (parity_cases j) as [[_ ->]|[_ ->]]; reflexivity.
Qed.

Lemma swapRealImag_length (perm : list Z) :
  length (swapRealImag perm) = length perm.
Proof.
  unfold swapRealImag.
  change (length (pair_loop (fun k => elt perm (2 * k + 1))
                    (fun k => elt perm (2 * k + 0))
                    (length perm / 2) (repeat 0%Z (length perm)))
          = length perm).
  rewrite pair_loop_length. apply repeat_length.
Qed.

Lemma swapRealImag_elt (perm : list Z) (j : nat) :
  j < 2 * (length perm / 2) ->
  elt (swapRealImag perm) j = elt perm (2 * (j / 2) + (1 - j mod 2)).
Proof.
  intros Hj. unfold swapRealImag.
  change (elt (pair_loop (fun k => elt perm (2 * k + 1))
                 (fun k => elt perm (2 * k + 0))
                 (length perm / 2) (repeat 0%Z (length perm))) j
          = elt perm (2 * (j / 2) + (1 - j mod 2))).
  rewrite pair_loop_elt; [|rewrite repeat_length;
                           pose proof (Nat.div_mod_eq (length perm) 2); lia
                          |exact Hj].
  destruct (parity_cases j) as [[_ ->]|[_ ->]]; reflexivity.
Qed.

Lemma lookup_elt (l : list Z) (i : nat) :
  i < length l -> l !! i = Some (elt l i).
Proof.
  intros Hi. unfold elt.
  destruct (nth_lookup_or_length l i 0%Z) as [H|H]; [exact H | lia].
Qed.

(** Reading an array through an involution of its indices gives an array
    with the same entries. *)
Lemma reindexed_Permutation (l1 l2 : list Z) (sigma : nat -> nat) :
  length l1 = length l2 ->
  (forall j, j < length l2 -> sigma j < length l2) ->
  (forall j, j < length l2 -> sigma (sigma j) = j) ->
  (forall j, j < length l2 -> elt l1 j = elt l2 (sigma j)) ->
  Permutation l1 l2.
Proof.
  intros Hlen Hbound Hinv Helt. apply Permutation_inj.
  split; [exact Hlen|].
  exists (fun j => if j <? length l2 then sigma j else j). split.
  - intros a b Hab.
    destruct (Nat.ltb_spec a (length l2)) as [Ha|Ha];
      destruct (Nat.ltb_spec b (length l2)) as [Hb|Hb].
    + rewrite <- (Hinv a Ha), <- (Hinv b Hb), Hab. reflexivity.
    + pose proof (Hbound a Ha). lia.
    + pose proof (Hbound b Hb). lia.
    + exact Hab.
  - intros i. destruct (Nat.ltb_spec i (length l2)) as [Hi|Hi].
    + rewrite (lookup_elt l1 i) by lia.
      rewrite (lookup_elt l2 (sigma i)) by (apply Hbound; exact Hi).
      rewrite Helt by exact Hi. reflexivity.
    + rewrite !lookup_ge_None_2 by lia. reflexivity.
Qed.

Lemma flip_index_lt (k rev_wire m : nat) :
  k < 2 ^ m -> rev_wire < m -> flip_index k rev_wire < 2 ^ m.
Proof.
  intros Hk Hr. unfold flip_index. rewrite Nat.shiftl_1_l.
  destruct (Nat.eq_dec (Nat.lxor k (2 ^ rev_wire)) 0) as [->|Hne].
  - apply Nat.neq_0_lt_0. apply Nat.pow_nonzero. lia.
  - apply Nat.log2_lt_pow2; [lia|].
    eapply Nat.le_lt_trans; [apply Nat.log2_lxor|].
    rewrite Nat.log2_pow2 by lia.
    destruct (Nat.eq_dec k 0) as [->|Hk0].
    + rewrite Nat.log2_nonpos by lia. lia.
    + assert (Nat.log2 k < m) by (apply Nat.log2_lt_pow2; lia). lia.
Qed.

Lemma flip_index_involutive (k rev_wire : nat) :
  flip_index (flip_index k rev_wire) rev_wire = k.
Proof.
  unfold flip_index.
  rewrite Nat.lxor_assoc, Nat.lxor_nilpotent, Nat.lxor_0_r. reflexivity.
Qed.

(** The index that [flip] reads for entry [j]. *)
Definition flip_source (rev_wire j : nat) : nat :=
  2 * flip_index (j / 2) rev_wire + j mod 2.

Lemma flip_source_lt (m rev_wire j : nat) :
  rev_wire < m -> j < 2 * 2 ^ m -> flip_source rev_wire j < 2 * 2 ^ m.
Proof.
  intros Hr Hj. unfold flip_source.
  assert (Hhalf : j / 2 < 2 ^ m)
    by (apply Nat.Div0.div_lt_upper_bound; lia).
  pose proof (flip_index_lt (j / 2) rev_wire m Hhalf Hr).
  pose proof (Nat.mod_upper_bound j 2 ltac:(lia)). lia.
Qed.

Lemma flip_source_involutive (rev_wire j : nat) :
  flip_source rev_wire (flip_source rev_wire j) = j.
Proof.
  unfold flip_source.
  pose proof (Nat.mod_upper_bound j 2 ltac:(lia)) as Hm.
  assert (Hdiv : (2 * flip_index (j / 2) rev_wire + j mod 2) / 2
                 = flip_index (j / 2) rev_wire)
    by (symmetry; apply (Nat.div_unique _ 2 _ (j mod 2)); lia).
  assert (Hmod : (2 * flip_index (j / 2) rev_wire + j mod 2) mod 2
                 = j mod 2)
    by (symmetry;
        apply (Nat.mod_unique _ 2 (flip_index (j / 2) rev_wire)); lia).
  rewrite Hdiv, Hmod, flip_index_involutive.
  pose proof (Nat.div_mod_eq j 2). lia.
Qed.

Lemma even_length_half (m : nat) : (2 * 2 ^ m) / 2 = 2 ^ m.
Proof. apply half_even. Qed.

Lemma flip_twice (perm : list Z) (m rev_wire : nat) :
  length perm = 2 * 2 ^ m -> rev_wire < m ->
  flip (flip perm rev_wire) rev_wire = perm.
Proof.
  intros Hlen Hr. apply (nth_ext _ _ 0%Z 0%Z).
  - rewrite !flip_length. reflexivity.
  - intros j Hj. rewrite !flip_length in Hj.
    fold (elt (flip (flip perm rev_wire) rev_wire) j). fold (elt perm j).
    rewrite flip_elt
      by (rewrite flip_length, Hlen, even_length_half; lia).
    fold (flip_source rev_wire j).
    rewrite flip_elt.
    + fold (flip_source rev_wire (flip_source rev_wire j)).
      rewrite flip_source_involutive. reflexivity.
    + rewrite Hlen, even_length_half. apply flip_source_lt; [exact Hr | lia].
Qed.

(** X6: for an array of [2 * 2^m] reals and a reverse wire below [m],
    [flip] keeps the length, only moves entries around, and applied twice
    gives the array back. *)
Theorem flip_involution (perm : list Z) (m rev_wire : nat) :
  length perm = 2 * 2 ^ m ->
  rev_wire < m ->
  length (flip perm rev_wire) = length perm
  /\ Permutation (flip perm rev_wire) perm
  /\ flip (flip perm rev_wire) rev_wire = perm.
Proof.
  intros Hlen Hr. split; [apply flip_length|]. split.
  - apply (reindexed_Permutation _ _ (flip_source rev_wire)).
    + apply flip_length.
    + intros j Hj. rewrite Hlen in *. apply flip_source_lt; assumption.
    + intros j _. apply flip_source_involutive.
    + intros j Hj. apply flip_elt. rewrite Hlen, even_length_half. lia.
  - apply (flip_twice perm m rev_wire Hlen Hr).
Qed.

Lemma flip_involution_witness :
  length [10; 11; 12; 13; 14; 15; 16; 17]%Z = 2 * 2 ^ 2
  /\ 1 < 2
  /\ flip [10; 11; 12; 13; 14; 15; 16; 17]%Z 1
     = [14; 15; 16; 17; 10; 11; 12; 13]%Z
  /\ flip (flip [10; 11; 12; 13; 14; 15; 16; 17]%Z 1) 1
     = [10; 11; 12; 13; 14; 15; 16; 17]%Z.
Proof.
  assert (Hlen : length [10; 11; 12; 13; 14; 15; 16; 17]%Z = 2 * 2 ^ 2)
    by reflexivity.
  assert (Hr : 1 < 2) by lia.
  split; [exact Hlen|]. split; [exact Hr|]. split; [reflexivity|].
  apply (flip_involution [10; 11; 12; 13; 14; 15; 16; 17]%Z 2 1 Hlen Hr).
Defined.

Lemma flip_source_lxor (rev_wire j : nat) :
  flip_source rev_wire j = Nat.lxor j (2 ^ S rev_wire).
Proof.
  unfold flip_source, flip_index. rewrite Nat.shiftl_1_l.
  set (n := Nat.lxor j (2 ^ S rev_wire)).
  assert (Hdiv : n / 2 = Nat.lxor (j / 2) (2 ^ rev_wire)).
  { change (n / 2) with (n / 2 ^ 1).
    rewrite <- (Nat.shiftr_div_pow2 n 1). unfold n.
    rewrite Nat.shiftr_lxor, !Nat.shiftr_div_pow2.
    change (2 ^ 1) with 2. f_equal. rewrite Nat.pow_succ_r'.
    apply half_even. }
  assert (Hmod : n mod 2 = j mod 2).
  { unfold n. rewrite <- !Nat.bit0_mod. rewrite Nat.lxor_spec.
    rewrite (Nat.pow2_bits_false (S rev_wire) 0) by lia.
    rewrite xorb_false_r. reflexivity. }
  rewrite <- Hdiv, <- Hmod. pose proof (Nat.div_mod_eq n 2). lia.
Qed.

Lemma uint8_succ_small (i : nat) : i < 255 -> uint8_succ i = S i.
Proof. intros Hi. unfold uint8_succ. apply Nat.mod_small. lia. Qed.

Lemma uint8_succ_lt (i : nat) : uint8_succ i < 256.
Proof. unfold uint8_succ. apply Nat.mod_upper_bound. discriminate. Qed.

(** Up to 255 entries the loop of [identity] ends: from the counter [i],
    after the [d] iterations left and one more test. *)
Lemma identity_loop_ends (packed_size : nat) :
  packed_size <= 255 ->
  forall (d i fuel : nat) (res : list Z),
    i + d = packed_size ->
    d < fuel ->
    identity_loop fuel packed_size i res
    = Some (fold_left (fun res i => <[i := Z.of_nat i]> res) (seq i d) res).
Proof.
  intros Hps. induction d as [|d IH]; intros i fuel res Hid Hfuel;
    (destruct fuel as [|fuel]; [lia|]); cbn [identity_loop seq fold_left].
  - destruct (Nat.ltb_spec i packed_size); [lia|reflexivity].
  - destruct (Nat.ltb_spec i packed_size); [|lia].
    rewrite uint8_succ_small by lia. apply IH; lia.
Qed.

Lemma identity_run_ends (packed_size fuel : nat) :
  packed_size <= 255 ->
  packed_size < fuel ->
  identity_run fuel packed_size = Some (identity packed_size).
Proof.
  intros Hps Hfuel. unfold identity_run, identity.
  apply (identity_loop_ends packed_size Hps); lia.
Qed.

(** From 256 entries on the loop of [identity] does not end, whatever the
    number of tests. *)
Lemma identity_run_never_ends (packed_size fuel : nat) :
  256 <= packed_size -> identity_run fuel packed_size = None.
Proof.
  intros Hps. unfold identity_run.
  assert (H : forall (i : nat) (res : list Z),
            i < 256 -> identity_loop fuel packed_size i res = None).
  { induction fuel as [|fuel IH]; intros i res Hi; [reflexivity|].
    cbn [identity_loop]. destruct (Nat.ltb_spec i packed_size); [|lia].
    apply IH. apply uint8_succ_lt. }
  apply H. lia.
Qed.

(** X7: for [2 * 2^m] reals with [2 * 2^m] below 256, the loop of
    [identity] ends with the identity pattern, and on it [flip] for a
    reverse wire [r] below [m] puts at place [j] the index
    [j xor 2^(r + 1)]: real and imaginary part of amplitude [k] are taken
    from amplitude [k xor 2^r]. *)
Theorem flip_identity_is_xor (m rev_wire j : nat) :
  2 * 2 ^ m < 256 ->
  rev_wire < m ->
  j < 2 * 2 ^ m ->
  (forall fuel : nat,
     2 * 2 ^ m < fuel ->
     identity_run fuel (2 * 2 ^ m) = Some (identity (2 * 2 ^ m)))
  /\ elt (flip (identity (2 * 2 ^ m)) rev_wire) j
     = Z.of_nat (Nat.lxor j (2 ^ S rev_wire))
  /\ Nat.lxor j (2 ^ S rev_wire) < 2 * 2 ^ m
  /\ Nat.lxor j (2 ^ S rev_wire) / 2 = Nat.lxor (j / 2) (2 ^ rev_wire).
Proof.
  intros Hsize Hr Hj.
  split; [intros fuel Hfuel; apply identity_run_ends; lia|].
  rewrite identity_iota.
  assert (Hlen : length (iota (2 * 2 ^ m)) = 2 * 2 ^ m)
    by (unfold iota; rewrite length_map, length_seq; reflexivity).
  rewrite flip_elt by (rewrite Hlen, even_length_half; lia).
  fold (flip_source rev_wire j).
  pose proof (flip_source_lt m rev_wire j Hr Hj) as Hlt.
  rewrite elt_iota by exact Hlt.
  rewrite <- flip_source_lxor.
  split; [reflexivity|]. split; [exact Hlt|].
  unfold flip_source, flip_index. rewrite Nat.shiftl_1_l.
  pose proof (Nat.mod_upper_bound j 2 ltac:(lia)).
  symmetry. apply (Nat.div_unique _ 2 _ (j mod 2)); lia.
Qed.

Lemma flip_identity_is_xor_witness :
  2 * 2 ^ 3 < 256 /\ 1 < 3 /\ 5 < 2 * 2 ^ 3
  /\ identity_run 17 (2 * 2 ^ 3) = Some (identity (2 * 2 ^ 3))
  /\ elt (flip (identity (2 * 2 ^ 3)) 1) 5 = Z.of_nat (Nat.lxor 5 (2 ^ 2))
  /\ flip (identity (2 * 2 ^ 3)) 1
     = [4; 5; 6; 7; 0; 1; 2; 3; 12; 13; 14; 15; 8; 9; 10; 11]%Z.
Proof.
  assert (Hs : 2 * 2 ^ 3 < 256) by (simpl; lia).
  assert (Hr : 1 < 3) by lia.
  assert (Hj : 5 < 2 * 2 ^ 3) by (simpl; lia).
  pose proof (flip_identity_is_xor 3 1 5 Hs Hr Hj) as (Hrun & Helt & _).
  split; [exact Hs|]. split; [exact Hr|]. split; [exact Hj|].
  split; [apply Hrun; simpl; lia|].
  split; [exact Helt | reflexivity].
Defined.

(** X8: the flip of the identity pattern over a 32-byte or 64-byte
    register stays inside the 128-bit lanes only in single precision and
    only for reverse wire 0; in double precision no flip does, so it is
    always compiled to an index vector or, on 32 bytes, to a cross-lane
    immediate. *)
Theorem flip_identity_lanes (p : PrecisionT) (bytes : Z) (rev_wire : nat) :
  bytes = 32%Z \/ bytes = 64%Z ->
  2 * 2 ^ S rev_wire <= Z.to_nat (bytes / sizeof p) ->
  isWithinLane p (flip (identity (Z.to_nat (bytes / sizeof p))) rev_wire)
  = match p with
    | Float => rev_wire =? 0
    | Double => false
    end.
Proof.
  intros Hbytes Hr.
  destruct Hbytes as [-> | ->]; destruct p;
    (destruct rev_wire as [|[|[|r]]];
     [try reflexivity; exfalso; revert Hr; vm_compute; lia ..
     |exfalso; revert Hr;
      change (2 * 2 ^ S (S (S (S r)))) with (2 * (2 * (2 * (2 * (2 * 2 ^ r)))));
      pose proof (Nat.pow_nonzero 2 r ltac:(lia));
      vm_compute (Z.to_nat _); lia]).
Qed.

Lemma flip_identity_lanes_witness :
  (64 = 32 \/ 64 = 64)%Z
  /\ 2 * 2 ^ 1 <= Z.to_nat (64 / sizeof Float)
  /\ isWithinLane Float (flip (identity (Z.to_nat (64 / sizeof Float))) 0)
     = true.
Proof.
  assert (Hb : (64 = 32 \/ 64 = 64)%Z) by (right; reflexivity).
  assert (Hr : 2 * 2 ^ 1 <= Z.to_nat (64 / sizeof Float))
    by (vm_compute; lia).
  split; [exact Hb|]. split; [exact Hr|].
  exact (flip_identity_lanes Float 64 0 Hb Hr).
Defined.

(** The index that [swapRealImag] reads for entry [j]: the other half of
    the pair. *)
Definition partner (j : nat) : nat := 2 * (j / 2) + (1 - j mod 2).

Lemma partner_facts (j : nat) :
  partner j / 2 = j / 2
  /\ partner j mod 2 = 1 - j mod 2
  /\ partner (partner j) = j.
Proof.
  unfold partner. zify. Z.div_mod_to_equations. lia.
Qed.

Lemma partner_lt (n j : nat) : j < 2 * n -> partner j < 2 * n.
Proof. unfold partner. zify. Z.div_mod_to_equations. lia. Qed.

Lemma swapRealImag_partner (perm : list Z) (n j : nat) :
  length perm = 2 * n -> j < 2 * n ->
  elt (swapRealImag perm) j = elt perm (partner j).
Proof.
  intros Hlen Hj. apply swapRealImag_elt.
  rewrite Hlen. destruct (half_even n) as [-> _]. exact Hj.
Qed.

(** Up to 255 pairs the loop of [swapRealImag] ends. *)
Lemma swapRealImag_loop_ends (perm : list Z) :
  length perm / 2 <= 255 ->
  forall (d k fuel : nat) (res : list Z),
    k + d = length perm / 2 ->
    d < fuel ->
    swapRealImag_loop fuel perm k res
    = Some (fold_left
              (fun res k =>
                 <[2 * k + 1 := elt perm (2 * k + 0)]>
                   (<[2 * k + 0 := elt perm (2 * k + 1)]> res))
              (seq k d) res).
Proof.
  intros Hps. induction d as [|d IH]; intros k fuel res Hkd Hfuel;
    (destruct fuel as [|fuel]; [lia|]);
    cbn [swapRealImag_loop seq fold_left].
  - destruct (Nat.ltb_spec k (length perm / 2)); [lia|reflexivity].
  - destruct (Nat.ltb_spec k (length perm / 2)); [|lia].
    rewrite uint8_succ_small by lia. apply IH; lia.
Qed.

Lemma swapRealImag_run_ends (perm : list Z) (fuel : nat) :
  length perm < 512 ->
  length perm / 2 < fuel ->
  swapRealImag_run fuel perm = Some (swapRealImag perm).
Proof.
  intros Hps Hfuel. unfold swapRealImag_run, swapRealImag.
  apply (swapRealImag_loop_ends perm); lia.
Qed.

(** From 512 entries on the loop of [swapRealImag] does not end. *)
Lemma swapRealImag_run_never_ends (perm : list Z) (fuel : nat) :
  512 <= length perm -> swapRealImag_run fuel perm = None.
Proof.
  intros Hps. unfold swapRealImag_run.
  assert (Hhalf : 256 <= length perm / 2)
    by (apply Nat.div_le_lower_bound; lia).
  assert (H : forall (k : nat) (res : list Z),
            k < 256 -> swapRealImag_loop fuel perm k res = None).
  { induction fuel as [|fuel IH]; intros k res Hk; [reflexivity|].
    cbn [swapRealImag_loop].
    destruct (Nat.ltb_spec k (length perm / 2)); [|lia].
    apply IH. apply uint8_succ_lt. }
  apply H. lia.
Qed.

(** X9: on an array of even length below 512 the loop of [swapRealImag]
    ends, and it exchanges the two entries of every pair: it keeps the
    length, has the same entries, and applied twice gives the array
    back. *)
Theorem swapRealImag_involution (perm : list Z) (n : nat) :
  length perm = 2 * n ->
  length perm < 512 ->
  (forall fuel : nat,
     n < fuel ->
     swapRealImag_run fuel perm = Some (swapRealImag perm)
     /\ swapRealImag_run fuel (swapRealImag perm)
        = Some (swapRealImag (swapRealImag perm)))
  /\ length (swapRealImag perm) = length perm
  /\ (forall k : nat,
        k < n ->
        elt (swapRealImag perm) (2 * k) = elt perm (2 * k + 1)
        /\ elt (swapRealImag perm) (2 * k + 1) = elt perm (2 * k))
  /\ Permutation (swapRealImag perm) perm
  /\ swapRealImag (swapRealImag perm) = perm.
Proof.
  intros Hlen Hsize.
  assert (Hhalf : length perm / 2 = n)
    by (rewrite Hlen; destruct (half_even n) as [-> _]; reflexivity).
  split.
  { intros fuel Hfuel. split.
    - apply swapRealImag_run_ends; lia.
    - apply swapRealImag_run_ends; rewrite swapRealImag_length; lia. }
  split; [apply swapRealImag_length|]. split; [|split].
  - intros k Hk.
    rewrite !(swapRealImag_partner perm n) by lia.
    unfold partner. destruct (half_even k) as [-> ->].
    destruct (half_odd k) as [-> ->].
    split; f_equal; lia.
  - apply (reindexed_Permutation _ _ partner).
    + apply swapRealImag_length.
    + intros j Hj. rewrite Hlen in *. apply partner_lt. exact Hj.
    + intros j _. apply partner_facts.
    + intros j Hj. apply (swapRealImag_partner perm n); lia.
  - apply (nth_ext _ _ 0%Z 0%Z).
    + rewrite !swapRealImag_length. reflexivity.
    + intros j Hj. rewrite !swapRealImag_length in Hj.
      fold (elt (swapRealImag (swapRealImag perm)) j). fold (elt perm j).
      rewrite (swapRealImag_partner _ n)
        by (rewrite ?swapRealImag_length; lia).
      rewrite (swapRealImag_partner perm n)
        by (try apply partner_lt; lia).
      f_equal. apply partner_facts.
Qed.

Lemma swapRealImag_involution_witness :
  length [0; 1; 2; 3]%Z = 2 * 2
  /\ length [0; 1; 2; 3]%Z < 512
  /\ swapRealImag_run 3 [0; 1; 2; 3]%Z = Some [1; 0; 3; 2]%Z
  /\ swapRealImag [0; 1; 2; 3]%Z = [1; 0; 3; 2]%Z
  /\ swapRealImag (swapRealImag [0; 1; 2; 3]%Z) = [0; 1; 2; 3]%Z.
Proof.
  assert (Hlen : length [0; 1; 2; 3]%Z = 2 * 2) by reflexivity.
  assert (Hsize : length [0; 1; 2; 3]%Z < 512) by (simpl; lia).
  split; [exact Hlen|]. split; [exact Hsize|].
  split; [reflexivity|]. split; [reflexivity|].
  apply (swapRealImag_involution [0; 1; 2; 3]%Z 2 Hlen Hsize).
Defined.

Lemma elt_firstn (l : list Z) (n j : nat) :
  j < n -> elt (firstn n l) j = elt l j.
Proof.
  intros Hj. unfold elt. rewrite nth_firstn.
  destruct (Nat.ltb_spec j n); [reflexivity | lia].
Qed.

(** X10: [swapRealImag] does not leave the lanes: applied to a
    permutation of whole lanes that [isWithinLane] accepts, it gives one
    that [isWithinLane] accepts. *)
Theorem swapRealImag_within_lane (p : PrecisionT) (perm : list Z)
    (m : nat) :
  length perm = m * size_within_lane p ->
  0 < m ->
  isWithinLane p perm = true ->
  isWithinLane p (swapRealImag perm) = true.
Proof.
  intros Hlen Hm Hwl.
  destruct (proj1 (isWithinLane_spec p perm m Hlen Hm) Hwl)
    as [Hperm Hshift].
  assert (Hswl : exists s, size_within_lane p = 2 * s /\ 0 < s)
    by (destruct p; [exists 2 | exists 1]; split; vm_compute; lia).
  destruct Hswl as (s & Hs & Hspos).
  assert (Heven : length perm = 2 * (m * s)) by lia.
  apply (isWithinLane_spec p (swapRealImag perm) m);
    [rewrite swapRealImag_length; exact Hlen | exact Hm |].
  rewrite swapRealImag_length. rewrite Hs in *.
  split.
  - rewrite <- Hperm.
    apply (reindexed_Permutation _ _ partner).
    + rewrite !length_firstn, swapRealImag_length. reflexivity.
    + intros j Hj. rewrite length_firstn in *.
      assert (j < 2 * s) by lia.
      pose proof (partner_lt s j ltac:(lia)). nia.
    + intros j _. apply partner_facts.
    + intros j Hj. rewrite length_firstn in Hj.
      assert (Hjs : j < 2 * s) by lia.
      pose proof (partner_lt s j Hjs) as Hpj.
      rewrite !elt_firstn by lia.
      apply (swapRealImag_partner perm (m * s)); [exact Heven | nia].
  - intros i Hi.
    assert (Hi2 : i < 2 * (m * s)) by lia.
    assert (Hmod : i mod (2 * s) < 2 * s)
      by (apply Nat.mod_upper_bound; lia).
    rewrite (swapRealImag_partner perm (m * s)) by assumption.
    rewrite (swapRealImag_partner perm (m * s)) by (try exact Heven; nia).
    rewrite (Hshift (partner i))
      by (pose proof (partner_lt (m * s) i Hi2); lia).
    assert (Hq : partner i / (2 * s) = i / (2 * s)
                 /\ partner i mod (2 * s) = partner (i mod (2 * s))).
    { pose proof (Nat.div_mod_eq i (2 * s)) as Hdm.
      set (q := i / (2 * s)) in *. set (t := i mod (2 * s)) in *.
      assert (Hpi : partner i = (2 * s) * q + partner t).
      { unfold partner. rewrite Hdm.
        replace (2 * s * q + t) with (t + (s * q) * 2) by lia.
        rewrite Nat.div_add, Nat.Div0.mod_add by lia. lia. }
      pose proof (partner_lt s t Hmod) as Hpt.
      rewrite Hpi. split.
      - symmetry. apply (Nat.div_unique _ _ q (partner t)); [exact Hpt | lia].
      - symmetry. apply (Nat.mod_unique _ _ q (partner t)); [exact Hpt | lia]. }
    destruct Hq as [-> ->]. reflexivity.
Qed.

Lemma swapRealImag_within_lane_witness :
  length (identity 16) = 4 * size_within_lane Float
  /\ 0 < 4
  /\ isWithinLane Float (identity 16) = true
  /\ isWithinLane Float (swapRealImag (identity 16)) = true.
Proof.
  assert (Hlen : length (identity 16) = 4 * size_within_lane Float)
    by reflexivity.
  assert (Hm : 0 < 4) by lia.
  assert (Hid : isWithinLane Float (identity 16) = true) by reflexivity.
  split; [exact Hlen|]. split; [exact Hm|]. split; [exact Hid|].
  exact (swapRealImag_within_lane Float (identity 16) 4 Hlen Hm Hid).
Defined.

(** The pattern that exchanges real and imaginary parts over a 512-bit
    register in single precision compiles to the immediate [0xB1]; over a
    128-bit array of four floats there is no compiled permutation. *)
Lemma compilePermutation_within_lane_witness :
  isWithinLane Float (swapRealImag (identity 16)) = true
  /\ (exists c : CompiledPermutation,
        compilePermutation Float (swapRealImag (identity 16)) = Some c
        /\ within_lane_ c = true
        /\ imm8_ c = 177%Z)
  /\ isWithinLane Float (swapRealImag (identity 4)) = true
  /\ compilePermutation Float (swapRealImag (identity 4)) = None.
Proof.
  assert (Hwl : isWithinLane Float (swapRealImag (identity 16)) = true)
    by reflexivity.
  assert (Hwl4 : isWithinLane Float (swapRealImag (identity 4)) = true)
    by reflexivity.
  split; [exact Hwl|]. split.
  - destruct (compilePermutation_within_lane Float
                (swapRealImag (identity 16)) Hwl)
      as (c & Hc & Hlane & _).
    exists c. split; [exact Hc|]. split; [exact Hlane|].
    vm_compute in Hc. injection Hc as <-. reflexivity.
  - split; [exact Hwl4|].
    exact (compilePermutation_within_lane Float
             (swapRealImag (identity 4)) Hwl4).
Defined.

End PermutationFacts.

(** * Wire lists for the tests ([tests/CreateAllWires.hpp]) *)

Module CreateAllWires.

Local Open Scope nat_scope.

(** The members of a generator: the vector being filled, the elements
    still available (used by [PermutationGenerator] only) and the results
    pushed so far. *)
Record Generator : Set := {
  v_ : list nat;
  available_elts_ : list nat;
  all_perms_ : list (list nat)
}.

Definition push_back (g : Generator) : Generator :=
  {| v_ := v_ g; available_elts_ := available_elts_ g;
     all_perms_ := all_perms_ g ++ [v_ g] |}.

(** [v_[i] = x]. *)
Definition set_v (i x : nat) (g : Generator) : Generator :=
  {| v_ := <[i := x]> (v_ g); available_elts_ := available_elts_ g;
     all_perms_ := all_perms_ g |}.

(** [std::swap(available_elts_[i], available_elts_[j])]. *)
Definition swap_available (i j : nat) (g : Generator) : Generator :=
  let a := available_elts_ g in
  {| v_ := v_ g;
     available_elts_ := <[j := nth i a 0]> (<[i := nth j a 0]> a);
     all_perms_ := all_perms_ g |}.

(** [CombinationGenerator::comb]. Below the test [n < r] the first
    argument is positive, so [n - 1] is the predecessor. *)
Fixpoint comb (n r : nat) (g : Generator) : Generator :=
  match r with
  | 0 => push_back g
  | S _ =>
      if n <? r then g
      else
        match n with
        | 0 => g
        | S n' =>
            let g1 := set_v (r - 1) (n - 1) g in
            let g2 := comb n' (r - 1) g1 in
            comb n' r g2
        end
  end.

(** The constructor: [v_.resize(r); comb(n, r);], then [all_perms()]. *)
Definition CombinationGenerator (n r : nat) : list (list nat) :=
  all_perms_
    (comb n r {| v_ := repeat 0 r; available_elts_ := [];
                 all_perms_ := [] |}).

(** [PermutationGenerator::perm]. *)
Fixpoint perm (r n : nat) (g : Generator) : Generator :=
  match r with
  | 0 => push_back g
  | S r' =>
      fold_left
        (fun g i =>
           let g1 := set_v (r - 1) (nth i (available_elts_ g) 0) g in
           let g2 := swap_available (n - 1) i g1 in
           let g3 := perm r' (n - 1) g2 in
           swap_available (n - 1) i g3)
        (seq 0 n) g
  end.

(** The constructor: [v.resize(r)], [available_elts_] filled by
    [std::iota] from 0, [perm(n, r)]. *)
Definition PermutationGenerator (n r : nat) : list (list nat) :=
  all_perms_
    (perm r n {| v_ := repeat 0 r; available_elts_ := seq 0 n;
                 all_perms_ := [] |}).

(** The wires of one value of [k] in the loop for the multi-qubit gates:
    the positions below [n_qubits] of the bits set in [k]. *)
Definition wires_of_mask (n_qubits k : nat) : list nat :=
  List.filter (fun i => Nat.land (Nat.shiftr k i) 1 =? 1) (seq 0 n_qubits).

Section Tables.

(** The tables [Gates::Constant::multi_qubit_gates] and
    [Gates::Constant::gate_wires], which are declared outside the
    sources. *)
Variable multi_qubit_gates : list GateOperation.t.
Variable gate_wires : GateOperation.t -> nat.

(** [crateAllWires], for [n_qubits] below the 32 bits of [1U]. *)
Definition crateAllWires (n_qubits : nat) (gate_op : GateOperation.t)
    (order : bool) : list (list nat) :=
  if existsb (GateOperation.eqb gate_op) multi_qubit_gates then
    map (wires_of_mask n_qubits) (seq 1 (Nat.shiftl 1 n_qubits - 1))
  else
    let n_wires := gate_wires gate_op in
    if order then PermutationGenerator n_qubits n_wires
    else CombinationGenerator n_qubits n_wires.

End Tables.

End CreateAllWires.

(** ** What the generators of wire lists produce *)

Module CreateAllWiresFacts.

Import CreateAllWires.

Local Open Scope nat_scope.

(** The combinations as a function: those that end in [n - 1], then those
    below [n - 1]. *)
Fixpoint combos (n r : nat) : list (list nat) :=
  match r with
  | 0 => [[]]
  | S r' =>
      match n with
      | 0 => []
      | S n' => map (fun c => c ++ [n']) (combos n' r') ++ combos n' r
      end
  end.

(** Pascal's triangle. *)
Fixpoint binomial (n k : nat) : nat :=
  match k with
  | 0 => 1
  | S k' =>
      match n with
      | 0 => 0
      | S n' => binomial n' k' + binomial n' k
      end
  end.

Lemma binomial_gt (n k : nat) : n < k -> binomial n k = 0.
Proof.
  revert k. induction n as [|n IH]; intros k Hk; destruct k as [|k];
    try lia; simpl; [reflexivity|].
  rewrite !IH by lia. reflexivity.
Qed.

Lemma binomial_diag (n : nat) : binomial n n = 1.
Proof.
  induction n as [|n IH]; [reflexivity|]. simpl.
  rewrite IH, binomial_gt by lia. reflexivity.
Qed.

Lemma binomial_fact (n k : nat) :
  k <= n -> binomial n k * (fact k * fact (n - k)) = fact n.
Proof.
  revert k. induction n as [|n IH]; intros k Hk.
  - assert (k = 0) by lia. subst. reflexivity.
  - destruct k as [|k].
    + simpl binomial. rewrite Nat.sub_0_r. simpl fact at 1. lia.
    + simpl binomial. replace (S n - S k) with (n - k) by lia.
      destruct (Nat.eq_dec k n) as [->|Hne].
      * rewrite binomial_diag, binomial_gt by lia.
        rewrite Nat.sub_diag. simpl fact at 2. lia.
      * pose proof (IH k ltac:(lia)) as H1.
        pose proof (IH (S k) ltac:(lia)) as H2.
        replace (n - k) with (S (n - S k)) in * by lia.
        change (fact (S (n - S k))) with (S (n - S k) * fact (n - S k)) in *.
        change (fact (S k)) with (S k * fact k) in *.
        change (fact (S n)) with (S n * fact n).
        nia.
Qed.

Lemma combos_gt (n r : nat) : n < r -> combos n r = [].
Proof.
  revert r. induction n as [|n IH]; intros r Hr; destruct r as [|r];
    try lia; simpl; [reflexivity|].
  rewrite !IH by lia. reflexivity.
Qed.

Lemma combos_length (n r : nat) : length (combos n r) = binomial n r.
Proof.
  revert r. induction n as [|n IH]; intros r; destruct r as [|r];
    try reflexivity.
  simpl. rewrite length_app, length_map, !IH. reflexivity.
Qed.

Lemma skipn_insert_here (l : list nat) (i x : nat) :
  i < length l -> skipn i (<[i := x]> l) = x :: skipn (S i) l.
Proof.
  revert i. induction l as [|a l IH]; intros i Hi; simpl in Hi; [lia|].
  destruct i as [|i]; [reflexivity|]. simpl. apply IH. lia.
Qed.

Lemma skipn_S_tail (l : list nat) (i : nat) :
  skipn (S i) l = tl (skipn i l).
Proof.
  revert i. induction l as [|a l IH]; intros i.
  - destruct i; reflexivity.
  - destruct i as [|i]; [reflexivity|]. simpl skipn at 2.
    rewrite <- IH. reflexivity.
Qed.

(** What [comb] leaves in the generator: the results so far, then every
    combination written over the first [r] entries of [v_], and the
    entries of [v_] from [r] on untouched. *)
Lemma comb_spec (n : nat) :
  forall (r : nat) (g : Generator),
    r <= length (v_ g) ->
    all_perms_ (comb n r g)
    = all_perms_ g ++ map (fun c => c ++ skipn r (v_ g)) (combos n r)
    /\ skipn r (v_ (comb n r g)) = skipn r (v_ g)
    /\ length (v_ (comb n r g)) = length (v_ g).
Proof.
  induction n as [|n IH]; intros r g Hr.
  - destruct r as [|r]; simpl.
    + repeat split.
    + rewrite app_nil_r. repeat split.
  - destruct r as [|r].
    + simpl. repeat split.
    + cbn [comb]. destruct (Nat.ltb_spec (S n) (S r)) as [Hlt|Hge].
      * rewrite combos_gt by lia. simpl. rewrite app_nil_r. repeat split.
      * replace (S r - 1) with r by lia. replace (S n - 1) with n by lia.
        set (g1 := set_v r n g).
        assert (Hg1 : length (v_ g1) = length (v_ g))
          by (unfold g1; simpl; apply length_insert).
        destruct (IH r g1 ltac:(lia)) as (Ha2 & Hs2 & Hl2).
        set (g2 := comb n r g1) in *.
        destruct (IH (S r) g2 ltac:(lia)) as (Ha3 & Hs3 & Hl3).
        assert (Hskip1 : skipn r (v_ g1) = n :: skipn (S r) (v_ g))
          by (unfold g1; simpl; apply skipn_insert_here; lia).
        assert (Hskip2 : skipn (S r) (v_ g2) = skipn (S r) (v_ g)).
        { rewrite skipn_S_tail, Hs2, Hskip1. reflexivity. }
        split; [|split].
        -- rewrite Ha3, Ha2, Hskip2, Hskip1. simpl combos.
           rewrite map_app, map_map, <- app_assoc.
           f_equal. f_equal. apply map_ext. intros c.
           rewrite <- app_assoc. reflexivity.
        -- rewrite Hs3. exact Hskip2.
        -- lia.
Qed.

Lemma CombinationGenerator_combos (n r : nat) :
  CombinationGenerator n r = combos n r.
Proof.
  unfold CombinationGenerator.
  destruct (comb_spec n r {| v_ := repeat 0 r; available_elts_ := [];
                             all_perms_ := [] |}) as (H & _).
  - simpl. rewrite repeat_length. lia.
  - rewrite H. simpl.
    rewrite skipn_all2 by (rewrite repeat_length; lia).
    rewrite <- (map_id (combos n r)) at 2. apply map_ext.
    intros c. apply app_nil_r.
Qed.

(** A combination of [r] wires out of [n]: [r] wires below [n] in
    strictly increasing order. *)
Definition is_combination (n r : nat) (c : list nat) : Prop :=
  length c = r /\ StronglySorted lt c /\ Forall (fun w => w < n) c.

Lemma sorted_snoc (c : list nat) (x : nat) :
  StronglySorted lt (c ++ [x])
  <-> StronglySorted lt c /\ Forall (fun w => w < x) c.
Proof.
  rewrite StronglySorted_app. split.
  - intros (Hlt & Hc & _). split; [exact Hc|].
    apply List.Forall_forall. intros w Hw. apply Hlt.
    + apply list_elem_of_In. exact Hw.
    + apply list_elem_of_In. left. reflexivity.
  - intros (Hc & Hlt). split; [|split].
    + intros x1 x2 H1 H2. apply list_elem_of_In in H1, H2.
      destruct H2 as [<-|[]].
      rewrite List.Forall_forall in Hlt. apply Hlt. exact H1.
    + exact Hc.
    + repeat constructor.
Qed.

Lemma combos_spec (n : nat) :
  forall (r : nat) (c : list nat),
    In c (combos n r) <-> is_combination n r c.
Proof.
  unfold is_combination.
  induction n as [|n IH]; intros r c.
  - destruct r as [|r]; simpl.
    + split.
      * intros [<-|[]]. repeat split; constructor.
      * intros (Hl & _). destruct c; [left; reflexivity|discriminate].
    + split; [intros []|].
      intros (Hl & _ & Hb). destruct c as [|w c]; [discriminate|].
      inversion Hb; subst. lia.
  - destruct r as [|r].
    + simpl. split.
      * intros [<-|[]]. repeat split; constructor.
      * intros (Hl & _). destruct c; [left; reflexivity|discriminate].
    + cbn [combos]. rewrite in_app_iff, in_map_iff. split.
      * intros [(c' & <- & Hc')|Hc].
        -- apply IH in Hc'. destruct Hc' as (Hl & Hs & Hb).
           rewrite length_app, sorted_snoc, List.Forall_app. simpl.
           repeat split; try assumption; try lia.
           ++ eapply List.Forall_impl; [|exact Hb]. simpl. intros; lia.
           ++ repeat constructor.
        -- apply IH in Hc. destruct Hc as (Hl & Hs & Hb).
           repeat split; try assumption.
           eapply List.Forall_impl; [|exact Hb]. simpl. intros; lia.
      * intros (Hl & Hs & Hb).
        destruct (exists_last (l := c)) as (c' & x & ->);
          [intros ->; discriminate|].
        rewrite length_app in Hl. simpl in Hl.
        apply sorted_snoc in Hs. destruct Hs as (Hs & Hlt).
        apply List.Forall_app in Hb. destruct Hb as (Hb & Hx).
        inversion Hx as [|? ? Hxn _]; subst.
        destruct (Nat.eq_dec x n) as [->|Hne].
        -- left. exists c'. split; [reflexivity|]. apply IH.
           repeat split; [lia|exact Hs|exact Hlt].
        -- right. apply IH. rewrite length_app, sorted_snoc, List.Forall_app.
           simpl. repeat split; try assumption; try lia.
           ++ eapply List.Forall_impl; [|exact Hlt]. simpl. intros; lia.
           ++ repeat constructor. lia.
Qed.

Lemma combos_NoDup (n : nat) : forall r : nat, List.NoDup (combos n r).
Proof.
  induction n as [|n IH]; intros r; destruct r as [|r]; simpl;
    try (repeat constructor; intros []); try constructor.
  apply List.NoDup_app.
  - apply Finite.Injective_map_NoDup; [|apply IH].
    intros c1 c2 H. apply app_inj_tail in H. apply H.
  - apply IH.
  - intros c H1 H2. apply in_map_iff in H1. destruct H1 as (c' & <- & _).
    apply combos_spec in H2. destruct H2 as (_ & _ & Hb).
    apply List.Forall_app in Hb. destruct Hb as (_ & Hx).
    inversion Hx; subst. lia.
Qed.

(** X11: [CombinationGenerator(n, r)] produces exactly the selections of
    [r] wires out of [0 .. n - 1] written in strictly increasing order,
    and each of them once. *)
Theorem CombinationGenerator_exact (n r : nat) :
  List.NoDup (CombinationGenerator n r)
  /\ forall c : list nat,
       In c (CombinationGenerator n r)
       <-> length c = r /\ StronglySorted lt c /\ Forall (fun w => w < n) c.
Proof.
  rewrite CombinationGenerator_combos. split.
  - apply combos_NoDup.
  - intros c. apply combos_spec.
Qed.

(** X12: for [r <= n] the number of wire lists of
    [CombinationGenerator(n, r)] is the binomial coefficient:
    multiplied by [r! (n - r)!] it gives [n!]. *)
Theorem CombinationGenerator_count (n r : nat) :
  r <= n ->
  length (CombinationGenerator n r) * (fact r * fact (n - r)) = fact n.
Proof.
  intros Hr. rewrite CombinationGenerator_combos, combos_length.
  apply binomial_fact. exact Hr.
Qed.

Lemma CombinationGenerator_count_witness :
  2 <= 4 /\ length (CombinationGenerator 4 2) * (fact 2 * fact (4 - 2)) = fact 4.
Proof. split; [lia | apply (CombinationGenerator_count 4 2); lia]. Defined.

(** X13: asking for more wires than there are qubits gives no wire list
    at all. *)
Theorem CombinationGenerator_too_many (n r : nat) :
  n < r -> CombinationGenerator n r = [].
Proof.
  intros H. rewrite CombinationGenerator_combos. apply combos_gt. exact H.
Qed.

Lemma CombinationGenerator_too_many_witness :
  2 < 3 /\ CombinationGenerator 2 3 = [].
Proof. split; [lia | apply (CombinationGenerator_too_many 2 3); lia]. Defined.

(** *** The multi-qubit gates: one wire list per non-zero bit mask *)

Lemma mask_test (k i : nat) :
  (Nat.land (Nat.shiftr k i) 1 =? 1) = Nat.testbit k i.
Proof.
  rewrite Nat.testbit_eqb, Nat.shiftr_div_pow2.
  replace (Nat.land (k / 2 ^ i) 1) with ((k / 2 ^ i) mod 2 ^ 1)
    by (rewrite <- Nat.land_ones; reflexivity).
  reflexivity.
Qed.

Lemma In_wires_of_mask (n k i : nat) :
  In i (wires_of_mask n k) <-> i < n /\ Nat.testbit k i = true.
Proof.
  unfold wires_of_mask. rewrite filter_In, in_seq, mask_test.
  split; intros [H1 H2]; (split; [lia|exact H2]).
Qed.

Lemma sorted_lt_seq (n a : nat) : StronglySorted lt (seq a n).
Proof.
  revert a. induction n as [|n IH]; intros a; simpl; constructor.
  - apply IH.
  - apply List.Forall_forall. intros x Hx. apply in_seq in Hx. lia.
Qed.

Lemma sorted_lt_filter (f : nat -> bool) (l : list nat) :
  StronglySorted lt l -> StronglySorted lt (List.filter f l).
Proof.
  induction 1 as [|a l Hs IH Ha]; simpl; [constructor|].
  destruct (f a); [|exact IH]. constructor; [exact IH|].
  rewrite List.Forall_forall in *. intros x Hx.
  apply filter_In in Hx. apply Ha, Hx.
Qed.

Lemma sorted_lt_ext (l1 : list nat) :
  forall l2 : list nat,
    StronglySorted lt l1 -> StronglySorted lt l2 ->
    (forall x, In x l1 <-> In x l2) -> l1 = l2.
Proof.
  induction l1 as [|a l1 IH]; intros l2 H1 H2 Hin.
  - destruct l2 as [|b l2]; [reflexivity|].
    destruct (proj2 (Hin b)). left. reflexivity.
  - destruct l2 as [|b l2]; [destruct (proj1 (Hin a)); left; reflexivity|].
    inversion H1 as [|? ? Hs1 Ha]; subst.
    inversion H2 as [|? ? Hs2 Hb]; subst.
    rewrite List.Forall_forall in Ha, Hb.
    assert (a = b) as ->.
    { destruct (proj1 (Hin a) (or_introl eq_refl)) as [E|E]; [congruence|].
      destruct (proj2 (Hin b) (or_introl eq_refl)) as [E'|E']; [congruence|].
      apply Hb in E. apply Ha in E'. lia. }
    f_equal. apply IH; try assumption.
    intros x. split; intros Hx.
    + destruct (proj1 (Hin x) (or_intror Hx)) as [E|E]; [|exact E].
      apply Ha in Hx. lia.
    + destruct (proj2 (Hin x) (or_intror Hx)) as [E|E]; [|exact E].
      apply Hb in Hx. lia.
Qed.

Lemma wires_of_mask_sorted (n k : nat) :
  StronglySorted lt (wires_of_mask n k).
Proof. apply sorted_lt_filter, sorted_lt_seq. Qed.

Lemma bits_above (n k i : nat) :
  k < 2 ^ n -> n <= i -> Nat.testbit k i = false.
Proof.
  intros Hk Hi. destruct (Nat.eq_dec k 0) as [->|Hk0]; [apply Nat.bits_0|].
  apply Nat.bits_above_log2.
  apply Nat.log2_lt_pow2 in Hk; lia.
Qed.

Lemma wires_of_mask_inj (n k1 k2 : nat) :
  k1 < 2 ^ n -> k2 < 2 ^ n ->
  wires_of_mask n k1 = wires_of_mask n k2 -> k1 = k2.
Proof.
  intros H1 H2 E. apply Nat.bits_inj. intros i.
  destruct (Nat.lt_ge_cases i n) as [Hi|Hi].
  - pose proof (In_wires_of_mask n k1 i) as I1.
    pose proof (In_wires_of_mask n k2 i) as I2.
    rewrite E in I1.
    destruct (Nat.testbit k1 i), (Nat.testbit k2 i); try reflexivity.
    + destruct (proj1 I2 (proj2 I1 (conj Hi eq_refl))). discriminate.
    + destruct (proj1 I1 (proj2 I2 (conj Hi eq_refl))). discriminate.
  - rewrite !(bits_above n) by assumption. reflexivity.
Qed.

Lemma wires_of_mask_nonempty (n k : nat) :
  1 <= k -> k < 2 ^ n -> wires_of_mask n k <> [].
Proof.
  intros H1 H2 E.
  assert (Hb : Nat.testbit k (Nat.log2 k) = true)
    by (apply Nat.bit_log2; lia).
  assert (Hl : Nat.log2 k < n) by (apply Nat.log2_lt_pow2; lia).
  pose proof (proj2 (In_wires_of_mask n k (Nat.log2 k)) (conj Hl Hb)) as Hin.
  rewrite E in Hin. destruct Hin.
Qed.

(** The mask with exactly the bits of [c] set. *)
Definition mask_of (c : list nat) : nat :=
  fold_right (fun w m => Nat.setbit m w) 0 c.

Lemma mask_of_bits (c : list nat) (i : nat) :
  Nat.testbit (mask_of c) i = true <-> In i c.
Proof.
  induction c as [|w c IH]; simpl.
  - rewrite Nat.bits_0. split; [discriminate|intros []].
  - rewrite Nat.setbit_iff, IH. reflexivity.
Qed.

Lemma mask_of_lt (n : nat) (c : list nat) :
  Forall (fun w => w < n) c -> mask_of c < 2 ^ n.
Proof.
  intros Hb. destruct (Nat.eq_dec (mask_of c) 0) as [->|H0].
  - pose proof (Nat.pow_nonzero 2 n). lia.
  - apply Nat.log2_lt_pow2; [lia|].
    apply Nat.bit_log2 in H0. apply mask_of_bits in H0.
    rewrite List.Forall_forall in Hb. apply Hb. exact H0.
Qed.

Lemma mask_of_pos (c : list nat) : c <> [] -> 1 <= mask_of c.
Proof.
  intros Hc. destruct c as [|w c]; [congruence|].
  destruct (Nat.eq_dec (mask_of (w :: c)) 0) as [E|E]; [|lia].
  pose proof (proj2 (mask_of_bits (w :: c) w) (or_introl eq_refl)) as Hb.
  rewrite E, Nat.bits_0 in Hb. discriminate.
Qed.

Lemma wires_of_mask_of (n : nat) (c : list nat) :
  StronglySorted lt c -> Forall (fun w => w < n) c ->
  wires_of_mask n (mask_of c) = c.
Proof.
  intros Hs Hb. apply sorted_lt_ext; [apply wires_of_mask_sorted|exact Hs|].
  intros i. rewrite In_wires_of_mask, mask_of_bits.
  rewrite List.Forall_forall in Hb. split; [tauto|].
  intros Hi. split; [apply Hb|]; exact Hi.
Qed.

Lemma masks_spec (n : nat) (c : list nat) :
  In c (map (wires_of_mask n) (seq 1 (Nat.shiftl 1 n - 1)))
  <-> c <> [] /\ StronglySorted lt c /\ Forall (fun w => w < n) c.
Proof.
  rewrite Nat.shiftl_1_l, in_map_iff. split.
  - intros (k & <- & Hk). apply in_seq in Hk.
    split; [apply wires_of_mask_nonempty; lia|].
    split; [apply wires_of_mask_sorted|].
    apply List.Forall_forall. intros i Hi.
    apply In_wires_of_mask in Hi. apply Hi.
  - intros (Hc & Hs & Hb). exists (mask_of c).
    split; [apply wires_of_mask_of; assumption|].
    pose proof (mask_of_pos c Hc). pose proof (mask_of_lt n c Hb).
    apply in_seq. lia.
Qed.

Lemma masks_NoDup (n : nat) :
  List.NoDup (map (wires_of_mask n) (seq 1 (Nat.shiftl 1 n - 1))).
Proof.
  rewrite Nat.shiftl_1_l.
  apply Finite.Injective_map_NoDup_in; [|apply List.seq_NoDup].
  intros k1 k2 H1 H2. apply in_seq in H1, H2.
  apply wires_of_mask_inj; lia.
Qed.

Section MultiQubit.

Variable multi_qubit_gates : list GateOperation.t.
Variable gate_wires : GateOperation.t -> nat.

(** X14: for a gate of [multi_qubit_gates] and fewer than 32 qubits,
    [crateAllWires] returns every non-empty set of wires below [n_qubits]
    exactly once, each written in increasing order, whatever [order] is:
    [2 ^ n_qubits - 1] wire lists. *)
Theorem crateAllWires_multi_qubit (n_qubits : nat) (gate_op : GateOperation.t)
    (order : bool) :
  In gate_op multi_qubit_gates ->
  n_qubits < 32 ->
  let res := crateAllWires multi_qubit_gates gate_wires n_qubits gate_op order in
  length res = 2 ^ n_qubits - 1
  /\ List.NoDup res
  /\ forall c : list nat,
       In c res
       <-> c <> [] /\ StronglySorted lt c /\ Forall (fun w => w < n_qubits) c.
Proof.
  intros Hin _. unfold crateAllWires.
  assert (E : existsb (GateOperation.eqb gate_op) multi_qubit_gates = true).
  { apply existsb_exists. exists gate_op. split; [exact Hin|].
    destruct gate_op; reflexivity. }
  rewrite E. cbv zeta. split; [|split].
  - rewrite length_map, length_seq, Nat.shiftl_1_l. reflexivity.
  - apply masks_NoDup.
  - apply masks_spec.
Qed.

End MultiQubit.

Lemma crateAllWires_multi_qubit_witness :
  In GateOperation.MultiRZ [GateOperation.MultiRZ] /\ 3 < 32
  /\ length (crateAllWires [GateOperation.MultiRZ] (fun _ => 1) 3
               GateOperation.MultiRZ true) = 2 ^ 3 - 1.
Proof.
  split; [left; reflexivity|]. split; [lia|].
  apply (crateAllWires_multi_qubit [GateOperation.MultiRZ] (fun _ => 1) 3
           GateOperation.MultiRZ true); [left; reflexivity | lia].
Defined.

(** *** [PermutationGenerator]: the ordered selections *)

(** [std::swap] on two positions of a vector. *)
Definition swap_list (i j : nat) (a : list nat) : list nat :=
  <[j := nth i a 0]> (<[i := nth j a 0]> a).

Lemma lookup_nth0 (a : list nat) (k : nat) :
  k < length a -> a !! k = Some (nth k a 0).
Proof.
  intros Hk. rewrite nth_lookup.
  destruct (lookup_lt_is_Some_2 a k Hk) as (x & ->). reflexivity.
Qed.

Lemma swap_list_length (i j : nat) (a : list nat) :
  length (swap_list i j a) = length a.
Proof. unfold swap_list. rewrite !length_insert. reflexivity. Qed.

Lemma swap_list_nth_r (i j : nat) (a : list nat) :
  i < length a -> j < length a -> nth j (swap_list i j a) 0 = nth i a 0.
Proof.
  intros Hi Hj. unfold swap_list. apply nth_lookup_Some.
  apply list_lookup_insert_eq. rewrite length_insert. exact Hj.
Qed.

Lemma swap_list_nth_l (i j : nat) (a : list nat) :
  i < length a -> j < length a -> nth i (swap_list i j a) 0 = nth j a 0.
Proof.
  intros Hi Hj. destruct (Nat.eq_dec i j) as [->|Hne].
  - apply swap_list_nth_r; assumption.
  - unfold swap_list. apply nth_lookup_Some.
    rewrite list_lookup_insert_ne by congruence.
    apply list_lookup_insert_eq. exact Hi.
Qed.

Lemma swap_list_involutive (i j : nat) (a : list nat) :
  i < length a -> j < length a -> swap_list i j (swap_list i j a) = a.
Proof.
  intros Hi Hj. unfold swap_list at 1.
  rewrite swap_list_nth_l, swap_list_nth_r by assumption.
  unfold swap_list. destruct (Nat.eq_dec i j) as [->|Hne].
  - rewrite !list_insert_insert_eq. apply list_insert_id, lookup_nth0, Hj.
  - rewrite (list_insert_insert_ne _ i j) by exact Hne.
    rewrite !list_insert_insert_eq.
    rewrite (list_insert_id a i) by (apply lookup_nth0, Hi).
    apply list_insert_id, lookup_nth0, Hj.
Qed.

(** After the swap of positions [n - 1] and [i], the first [n - 1]
    elements are the first [n] elements without the one at [i]. *)
Lemma swap_list_removes (n i : nat) (a : list nat) :
  i < n -> n <= length a ->
  Permutation (nth i a 0 :: firstn (n - 1) (swap_list (n - 1) i a))
              (firstn n a).
Proof.
  intros Hi Hn.
  set (b := swap_list (n - 1) i a).
  assert (Hb : firstn n b = firstn (n - 1) b ++ [nth i a 0]).
  { replace n with (S (n - 1)) at 1 by lia. apply take_S_r.
    rewrite lookup_nth0 by (unfold b; rewrite swap_list_length; lia).
    unfold b. rewrite swap_list_nth_l by lia. reflexivity. }
  rewrite Permutation_cons_append, <- Hb.
  unfold b, swap_list. rewrite !take_insert_lt by lia.
  apply Permutation_insert_swap.
  - rewrite lookup_take_lt by lia. apply lookup_nth0. lia.
  - rewrite lookup_take_lt by lia. apply lookup_nth0. lia.
Qed.

(** The ordered selections as a function of the available elements. *)
Fixpoint perms (r n : nat) (a : list nat) : list (list nat) :=
  match r with
  | 0 => [[]]
  | S r' =>
      flat_map
        (fun i =>
           map (fun c => c ++ [nth i a 0])
               (perms r' (n - 1) (swap_list (n - 1) i a)))
        (seq 0 n)
  end.

(** What [perm] leaves in the generator: the results so far, then every
    selection written over the first [r] entries of [v], the available
    elements as they were, and the entries of [v] from [r] on untouched. *)
Lemma perm_spec (r : nat) :
  forall (n : nat) (g : Generator),
    r <= length (v_ g) -> n <= length (available_elts_ g) ->
    all_perms_ (perm r n g)
    = all_perms_ g
      ++ map (fun c => c ++ skipn r (v_ g)) (perms r n (available_elts_ g))
    /\ available_elts_ (perm r n g) = available_elts_ g
    /\ skipn r (v_ (perm r n g)) = skipn r (v_ g)
    /\ length (v_ (perm r n g)) = length (v_ g).
Proof.
  induction r as [|r IH]; intros n g Hr Hn.
  - simpl. repeat split.
  - cbn [perm perms]. replace (S r - 1) with r by lia.
    assert (Hloop : forall (idx : list nat) (g0 : Generator),
      S r <= length (v_ g0) -> n <= length (available_elts_ g0) ->
      Forall (fun i => i < n) idx ->
      let g' :=
        fold_left
          (fun g i =>
             let g1 := set_v r (nth i (available_elts_ g) 0) g in
             let g2 := swap_available (n - 1) i g1 in
             let g3 := perm r (n - 1) g2 in
             swap_available (n - 1) i g3) idx g0 in
      all_perms_ g'
      = all_perms_ g0
        ++ map (fun c => c ++ skipn (S r) (v_ g0))
             (flat_map
                (fun i =>
                   map (fun c => c ++ [nth i (available_elts_ g0) 0])
                     (perms r (n - 1)
                        (swap_list (n - 1) i (available_elts_ g0)))) idx)
      /\ available_elts_ g' = available_elts_ g0
      /\ skipn (S r) (v_ g') = skipn (S r) (v_ g0)
      /\ length (v_ g') = length (v_ g0)).
    { induction idx as [|i idx IHidx]; intros g0 Hr0 Hn0 Hidx.
      - simpl. rewrite app_nil_r. repeat split.
      - inversion Hidx as [|? ? Hi Hidx']; subst.
        cbn [fold_left].
        set (x := nth i (available_elts_ g0) 0).
        set (g1 := set_v r x g0).
        set (g2 := swap_available (n - 1) i g1).
        assert (Hv2 : length (v_ g2) = length (v_ g0))
          by (simpl; apply length_insert).
        assert (Ha2 : available_elts_ g2
                      = swap_list (n - 1) i (available_elts_ g0))
          by reflexivity.
        assert (Hs2 : skipn r (v_ g2) = x :: skipn (S r) (v_ g0))
          by (simpl; apply skipn_insert_here; lia).
        destruct (IH (n - 1) g2) as (Hp3 & Ha3 & Hs3 & Hl3).
        { lia. }
        { rewrite Ha2, swap_list_length. lia. }
        set (g3 := perm r (n - 1) g2) in *.
        set (g4 := swap_available (n - 1) i g3).
        assert (Ha4 : available_elts_ g4 = available_elts_ g0).
        { change (available_elts_ g4)
            with (swap_list (n - 1) i (available_elts_ g3)).
          rewrite Ha3, Ha2. apply swap_list_involutive; lia. }
        assert (Hv4 : v_ g4 = v_ g3) by reflexivity.
        assert (Hp4 : all_perms_ g4 = all_perms_ g3) by reflexivity.
        destruct (IHidx g4) as (Hp & Ha & Hs & Hl).
        { rewrite Hv4, Hl3, Hv2. exact Hr0. }
        { rewrite Ha4. exact Hn0. }
        { exact Hidx'. }
        assert (Hs4 : skipn (S r) (v_ g4) = skipn (S r) (v_ g0)).
        { rewrite Hv4, skipn_S_tail, Hs3, Hs2. reflexivity. }
        cbv zeta in Hp, Ha, Hs, Hl |- *.
        split; [|split; [|split]].
        + rewrite Hp, Hp4, Hp3, Ha4, Hs4, Hs2, Ha2.
          cbn [flat_map]. rewrite map_app, map_map, <- app_assoc.
          f_equal. f_equal. apply map_ext. intros c.
          rewrite <- app_assoc. reflexivity.
        + rewrite Ha. exact Ha4.
        + rewrite Hs. exact Hs4.
        + rewrite Hl, Hv4, Hl3. exact Hv2. }
    apply Hloop; try assumption.
    apply List.Forall_forall. intros i Hi. apply in_seq in Hi. lia.
Qed.

Lemma PermutationGenerator_perms (n r : nat) :
  PermutationGenerator n r = perms r n (seq 0 n).
Proof.
  unfold PermutationGenerator.
  destruct (perm_spec r n {| v_ := repeat 0 r; available_elts_ := seq 0 n;
                             all_perms_ := [] |}) as (H & _).
  - simpl. rewrite repeat_length. lia.
  - simpl. rewrite length_seq. lia.
  - rewrite H. simpl.
    rewrite skipn_all2 by (rewrite repeat_length; lia).
    rewrite <- (map_id (perms r n (seq 0 n))) at 2. apply map_ext.
    intros c. apply app_nil_r.
Qed.

(** The number of ordered selections of [r] out of [n]. *)
Fixpoint falling (n r : nat) : nat :=
  match r with
  | 0 => 1
  | S r' => n * falling (n - 1) r'
  end.

Lemma falling_fact (r : nat) :
  forall n : nat, r <= n -> falling n r * fact (n - r) = fact n.
Proof.
  induction r as [|r IH]; intros n Hr.
  - simpl. rewrite Nat.sub_0_r. lia.
  - destruct n as [|n]; [lia|].
    cbn [falling]. replace (S n - 1) with n by lia.
    replace (S n - S r) with (n - r) by lia.
    rewrite <- Nat.mul_assoc, IH by lia. reflexivity.
Qed.

Lemma swap_list_pre (n i : nat) (a : list nat) :
  i < n -> n <= length a -> List.NoDup (firstn n a) ->
  let rest := firstn (n - 1) (swap_list (n - 1) i a) in
  n - 1 <= length (swap_list (n - 1) i a)
  /\ List.NoDup rest
  /\ ~ In (nth i a 0) rest
  /\ forall y, In y (firstn n a) <-> y = nth i a 0 \/ In y rest.
Proof.
  intros Hi Hn Hnd rest.
  pose proof (swap_list_removes n i a Hi Hn) as HP. fold rest in HP.
  assert (Hnd' : List.NoDup (nth i a 0 :: rest))
    by (eapply Permutation_NoDup; [symmetry; exact HP|exact Hnd]).
  inversion Hnd' as [|? ? Hnotin Hrest]; subst.
  split; [rewrite swap_list_length; lia|].
  split; [exact Hrest|]. split; [exact Hnotin|].
  intros y. split.
  - intros Hy. apply (Permutation_in _ (Permutation_sym HP)) in Hy.
    destruct Hy as [<-|Hy]; [left; reflexivity|right; exact Hy].
  - intros Hy. apply (Permutation_in _ HP).
    destruct Hy as [->|Hy]; [left; reflexivity|right; exact Hy].
Qed.

Lemma perms_spec (r : nat) :
  forall (n : nat) (a c : list nat),
    n <= length a -> List.NoDup (firstn n a) ->
    (In c (perms r n a)
     <-> length c = r /\ List.NoDup c /\ incl c (firstn n a)).
Proof.
  induction r as [|r IH]; intros n a c Hn Hnd.
  - simpl. split.
    + intros [<-|[]]. repeat split; [constructor|intros y []].
    + intros (Hl & _). destruct c; [left; reflexivity|discriminate].
  - cbn [perms]. rewrite in_flat_map. split.
    + intros (i & Hi & Hc). apply in_seq in Hi.
      apply in_map_iff in Hc. destruct Hc as (c' & <- & Hc').
      destruct (swap_list_pre n i a) as (Hlen & Hrest & Hnotin & Hiff);
        [lia|exact Hn|exact Hnd|].
      apply IH in Hc'; [|exact Hlen|exact Hrest].
      destruct Hc' as (Hl & Hndc & Hincl).
      split; [rewrite length_app; simpl; lia|]. split.
      * apply List.NoDup_app; [exact Hndc|repeat constructor; intros []|].
        intros y Hy [<-|[]]. apply Hnotin, Hincl, Hy.
      * intros y Hy. apply in_app_iff in Hy. apply Hiff.
        destruct Hy as [Hy|[<-|[]]]; [right; apply Hincl, Hy|left; reflexivity].
    + intros (Hl & Hndc & Hincl).
      destruct (exists_last (l := c)) as (c' & x & ->);
        [intros ->; discriminate|].
      rewrite length_app in Hl. simpl in Hl.
      assert (Hx : In x (firstn n a))
        by (apply Hincl, in_app_iff; right; left; reflexivity).
      destruct (In_nth _ _ 0 Hx) as (i & Hi & Hnth).
      rewrite length_firstn in Hi.
      rewrite nth_firstn in Hnth.
      destruct (Nat.ltb_spec i n) as [Hin|Hin]; [|lia].
      destruct (swap_list_pre n i a) as (Hlen & Hrest & Hnotin & Hiff);
        [lia|exact Hn|exact Hnd|].
      exists i. split; [apply in_seq; lia|].
      apply in_map_iff. exists c'. split; [rewrite Hnth; reflexivity|].
      apply IH; [exact Hlen|exact Hrest|].
      split; [lia|]. split; [eapply NoDup_app_remove_r; exact Hndc|].
      intros y Hy.
      assert (Hy' : In y (firstn n a))
        by (apply Hincl, in_app_iff; left; exact Hy).
      apply Hiff in Hy'. destruct Hy' as [->|Hy']; [|exact Hy'].
      exfalso. rewrite Hnth in Hy.
      apply NoDup_remove_2 in Hndc. apply Hndc.
      rewrite app_nil_r. exact Hy.
Qed.

Lemma NoDup_flat_map_disjoint {A B : Type} (f : A -> list B) (l : list A) :
  List.NoDup l ->
  (forall x, In x l -> List.NoDup (f x)) ->
  (forall x y z, In x l -> In y l -> In z (f x) -> In z (f y) -> x = y) ->
  List.NoDup (flat_map f l).
Proof.
  induction 1 as [|x l Hx Hl IH]; intros Hf Hd; simpl; [constructor|].
  apply List.NoDup_app.
  - apply Hf. left. reflexivity.
  - apply IH.
    + intros y Hy. apply Hf. right. exact Hy.
    + intros y1 y2 z H1 H2. apply Hd; right; assumption.
  - intros z Hz Hz'. apply in_flat_map in Hz'. destruct Hz' as (y & Hy & Hzy).
    assert (x = y) by (apply (Hd x y z); [left; reflexivity|right; exact Hy|exact Hz|exact Hzy]).
    subst. contradiction.
Qed.

Lemma perms_NoDup (r : nat) :
  forall (n : nat) (a : list nat),
    n <= length a -> List.NoDup (firstn n a) -> List.NoDup (perms r n a).
Proof.
  induction r as [|r IH]; intros n a Hn Hnd.
  - simpl. repeat constructor. intros [].
  - cbn [perms]. apply NoDup_flat_map_disjoint.
    + apply List.seq_NoDup.
    + intros i Hi. apply in_seq in Hi.
      destruct (swap_list_pre n i a) as (Hlen & Hrest & _);
        [lia|exact Hn|exact Hnd|].
      apply Finite.Injective_map_NoDup; [|apply IH; assumption].
      intros c1 c2 H. apply app_inj_tail in H. apply H.
    + intros i j c Hi Hj Hci Hcj. apply in_seq in Hi, Hj.
      apply in_map_iff in Hci, Hcj.
      destruct Hci as (c1 & <- & _). destruct Hcj as (c2 & E & _).
      apply app_inj_tail in E. destruct E as (_ & E).
      apply (proj1 (NoDup_nth (firstn n a) 0) Hnd).
      * rewrite length_firstn. lia.
      * rewrite length_firstn. lia.
      * rewrite !nth_firstn.
        destruct (Nat.ltb_spec i n); [|lia].
        destruct (Nat.ltb_spec j n); [|lia]. congruence.
Qed.

Lemma perms_length (r : nat) :
  forall (n : nat) (a : list nat), length (perms r n a) = falling n r.
Proof.
  induction r as [|r IH]; intros n a; [reflexivity|].
  cbn [perms falling].
  rewrite (flat_map_constant_length (c := falling (n - 1) r)).
  - rewrite length_seq. reflexivity.
  - intros i _. rewrite length_map. apply IH.
Qed.

(** X15: [PermutationGenerator(n, r)] produces exactly the ordered
    selections of [r] distinct wires out of [0 .. n - 1], and each of them
    once. *)
Theorem PermutationGenerator_exact (n r : nat) :
  List.NoDup (PermutationGenerator n r)
  /\ forall c : list nat,
       In c (PermutationGenerator n r)
       <-> length c = r /\ List.NoDup c /\ Forall (fun w => w < n) c.
Proof.
  rewrite PermutationGenerator_perms.
  assert (Hn : n <= length (seq 0 n)) by (rewrite length_seq; lia).
  assert (Hf : firstn n (seq 0 n) = seq 0 n)
    by (apply firstn_all2; rewrite length_seq; lia).
  assert (Hnd : List.NoDup (firstn n (seq 0 n)))
    by (rewrite Hf; apply List.seq_NoDup).
  split; [apply perms_NoDup; assumption|].
  intros c. rewrite perms_spec, Hf by assumption.
  rewrite List.Forall_forall. unfold incl.
  split; intros (Hl & Hc & Hb); (split; [exact Hl|split; [exact Hc|]]);
    intros w Hw; specialize (Hb w Hw); [apply in_seq in Hb|apply in_seq]; lia.
Qed.

(** X16: for [r <= n] the number of wire lists of
    [PermutationGenerator(n, r)] is [n! / (n - r)!]. *)
Theorem PermutationGenerator_count (n r : nat) :
  r <= n -> length (PermutationGenerator n r) * fact (n - r) = fact n.
Proof.
  intros Hr. rewrite PermutationGenerator_perms, perms_length.
  apply falling_fact. exact Hr.
Qed.

Lemma PermutationGenerator_count_witness :
  2 <= 3 /\ length (PermutationGenerator 3 2) * fact (3 - 2) = fact 3.
Proof. split; [lia | apply (PermutationGenerator_count 3 2); lia]. Defined.

End CreateAllWiresFacts.

(** * The other reference matrices of [operations.hpp] *)

Module ReferenceGates.

Import Operations.

Local Open Scope R_scope.

Definition SQRT_2 : R := sqrt 2.

Definition Y : Gate_1q :=
  [[of_real 0; NEGATIVE_IMAG]; [IMAG; of_real 0]].

Definition Z : Gate_1q :=
  [[of_real 1; of_real 0]; [of_real 0; of_real (-1)]].

Definition H : Gate_1q :=
  [[of_real (1 / SQRT_2); of_real (1 / SQRT_2)];
   [of_real (1 / SQRT_2); of_real (-1 / SQRT_2)]].

Definition S : Gate_1q :=
  [[of_real 1; of_real 0]; [of_real 0; IMAG]].

Definition T : Gate_1q :=
  let exponent : complex := (0, - PI / 4) in
  [[of_real 1; of_real 0]; [of_real 0; pow_M_E exponent]].

Definition RY (parameter : R) : Gate_1q :=
  let c := cos (parameter / 2) in
  let s := sin (parameter / 2) in
  [[of_real c; of_real (- s)]; [of_real s; of_real c]].

Definition RZ (parameter : R) : Gate_1q :=
  let exponent : complex := (0, - parameter / 2) in
  let exponent_second : complex := (0, parameter / 2) in
  let first := pow_M_E exponent in
  let second := pow_M_E exponent_second in
  [[first; of_real 0]; [of_real 0; second]].

Definition CNOT : Gate_2q :=
  [[[[of_real 1; of_real 0]; [of_real 0; of_real 0]];
    [[of_real 0; of_real 1]; [of_real 0; of_real 0]]];
   [[[of_real 0; of_real 0]; [of_real 0; of_real 1]];
    [[of_real 0; of_real 0]; [of_real 1; of_real 0]]]].

Definition CRot (phi theta omega : R) : Gate_2q :=
  let e00 : complex := (0, (- phi - omega) / 2) in
  let e10 : complex := (0, (- phi + omega) / 2) in
  let e01 : complex := (0, (phi - omega) / 2) in
  let e11 : complex := (0, (phi + omega) / 2) in
  let exp00 := pow_M_E e00 in
  let exp10 := pow_M_E e10 in
  let exp01 := pow_M_E e01 in
  let exp11 := pow_M_E e11 in
  let c := cos (theta / 2) in
  let s := sin (theta / 2) in
  [[[[of_real 1; of_real 0]; [of_real 0; of_real 0]];
    [[of_real 0; of_real 1]; [of_real 0; of_real 0]]];
   [[[of_real 0; of_real 0];
     [Cmul exp00 (of_real c); Cmul (Cneg exp01) (of_real s)]];
    [[of_real 0; of_real 0];
     [Cmul exp10 (of_real s); Cmul exp11 (of_real c)]]]].

End ReferenceGates.

(** ** Relations between the reference matrices, over the reals *)

Module ReferenceGatesFacts.

Import Operations.

Local Open Scope R_scope.

(** The tensor of a gate controlled by the first of two qubits: index
    [(i, j, k, l)] relates control [k] and target [l] of the input to
    control [i] and target [j] of the output. *)
Definition controlled_entry (U : Gate_1q) (i j k l : nat) : complex :=
  if (i =? k)%nat then
    if (i =? 0)%nat then
      if (j =? l)%nat then of_real 1 else of_real 0
    else entry U j l
  else of_real 0.

Definition is_controlled (G : Gate_2q) (U : Gate_1q) : Prop :=
  forall i j k l : nat,
    (i < 2)%nat -> (j < 2)%nat -> (k < 2)%nat -> (l < 2)%nat ->
    entry4 G i j k l = controlled_entry U i j k l.

Ltac bits_cases :=
  repeat match goal with
         | H : (?i < 2)%nat |- _ =>
             destruct i as [|[|?]]; [clear H | clear H | exfalso; lia]
         end.

(** X17: the two-qubit tensors are the controlled versions of the
    one-qubit matrices: with control 0 they act as the identity on the
    target, with control 1 as [X], [RX], [RY], [RZ] and [Rot], and they
    never change the control. *)
Theorem controlled_gates (parameter phi theta omega : R) :
  is_controlled ReferenceGates.CNOT X
  /\ is_controlled (CRX parameter) (RX parameter)
  /\ is_controlled (CRY parameter) (ReferenceGates.RY parameter)
  /\ is_controlled (CRZ parameter) (ReferenceGates.RZ parameter)
  /\ is_controlled (ReferenceGates.CRot phi theta omega)
                   (Rot phi theta omega).
Proof.
  repeat split; intros i j k l Hi Hj Hk Hl; bits_cases; reflexivity.
Qed.

Lemma complex_eq (a b c d : R) : a = c -> b = d -> (a, b) = (c, d).
Proof. intros -> ->. reflexivity. Qed.

Lemma half_sum (a b : R) : (a + b) / 2 = a / 2 + b / 2.
Proof. lra. Qed.

Lemma neg_half (a : R) : - a / 2 = - (a / 2).
Proof. lra. Qed.

(** X18: each of [RX], [RY] and [RZ] is the identity at angle 0, and the
    product of two rotations about one axis is the rotation by the sum of
    the angles. *)
Theorem rotations_add (a b : R) :
  RX 0 = Identity
  /\ ReferenceGates.RY 0 = Identity
  /\ ReferenceGates.RZ 0 = Identity
  /\ Gate_1q_mul (RX a) (RX b) = RX (a + b)
  /\ Gate_1q_mul (ReferenceGates.RY a) (ReferenceGates.RY b)
     = ReferenceGates.RY (a + b)
  /\ Gate_1q_mul (ReferenceGates.RZ a) (ReferenceGates.RZ b)
     = ReferenceGates.RZ (a + b).
Proof.
  unfold Gate_1q_mul, RX, ReferenceGates.RY, ReferenceGates.RZ, Identity,
    entry, Cadd, Cmul, pow_M_E, of_real, re, im.
  cbn [nth fst snd].
  rewrite !neg_half, !half_sum, !exp_0.
  replace (0 / 2) with 0 by lra.
  rewrite ?Ropp_0, ?cos_0, ?sin_0.
  rewrite !cos_neg, !sin_neg, !cos_plus, !sin_plus.
  repeat split; repeat (f_equal; try apply complex_eq; try ring).
Qed.

(** X19: [Rot(phi, theta, omega)] is the product
    [RZ(omega) RY(theta) RZ(phi)]: the rotation about Z by [phi] acts
    first. *)
Theorem Rot_decomposition (phi theta omega : R) :
  Gate_1q_mul (ReferenceGates.RZ omega)
    (Gate_1q_mul (ReferenceGates.RY theta) (ReferenceGates.RZ phi))
  = Rot phi theta omega.
Proof.
  unfold Gate_1q_mul, Rot, ReferenceGates.RY, ReferenceGates.RZ,
    entry, Cadd, Cmul, Cneg, pow_M_E, of_real, re, im.
  cbn [nth fst snd].
  replace ((- phi - omega) / 2) with (- (phi / 2) + - (omega / 2)) by lra.
  replace ((- phi + omega) / 2) with (- (phi / 2) + omega / 2) by lra.
  replace ((phi - omega) / 2) with (phi / 2 + - (omega / 2)) by lra.
  replace ((phi + omega) / 2) with (phi / 2 + omega / 2) by lra.
  rewrite !neg_half, !exp_0.
  rewrite !cos_plus, !sin_plus, !cos_neg, !sin_neg.
  repeat (f_equal; try apply complex_eq; try ring).
Qed.

Lemma inv_sqrt2_sqr : (1 / sqrt 2) * (1 / sqrt 2) = 1 / 2.
Proof.
  assert (H : sqrt 2 * sqrt 2 = 2) by (apply sqrt_sqrt; lra).
  unfold Rdiv. rewrite !Rmult_1_l, <- Rinv_mult, H. reflexivity.
Qed.

Lemma cos_sin_quarter :
  cos (- PI / 4) = 1 / sqrt 2 /\ sin (- PI / 4) = - (1 / sqrt 2).
Proof.
  replace (- PI / 4) with (- (PI / 4)) by lra.
  rewrite cos_neg, sin_neg, cos_PI4, sin_PI4. split; reflexivity.
Qed.

(** X20: the fixed matrices over the reals, with [M_PI] read as pi: [Y],
    [Z] and [H] are their own inverses, [S] squared is [Z], and [T] holds
    the phase [exp(-i pi / 4)], so that [T] squared is the inverse of [S]
    and not [S]. *)
Theorem fixed_gates_relations :
  Gate_1q_mul ReferenceGates.Y ReferenceGates.Y = Identity
  /\ Gate_1q_mul ReferenceGates.Z ReferenceGates.Z = Identity
  /\ Gate_1q_mul ReferenceGates.H ReferenceGates.H = Identity
  /\ Gate_1q_mul ReferenceGates.S ReferenceGates.S = ReferenceGates.Z
  /\ Gate_1q_mul (Gate_1q_mul ReferenceGates.T ReferenceGates.T)
       ReferenceGates.S = Identity
  /\ Gate_1q_mul ReferenceGates.T ReferenceGates.T <> ReferenceGates.S.
Proof.
  pose proof inv_sqrt2_sqr as Hh.
  destruct cos_sin_quarter as [Hc Hs].
  unfold Gate_1q_mul, ReferenceGates.Y, ReferenceGates.Z, ReferenceGates.H,
    ReferenceGates.S, ReferenceGates.T, ReferenceGates.SQRT_2, Identity,
    entry, Cadd, Cmul, pow_M_E, IMAG, NEGATIVE_IMAG, of_real, re, im.
  cbn [nth fst snd].
  rewrite exp_0, Hc, Hs.
  replace (-1 / sqrt 2) with (- (1 / sqrt 2)) by lra.
  set (h := 1 / sqrt 2) in *.
  repeat split; try (repeat (f_equal; try apply complex_eq; try nra)).
  intros E.
  apply (f_equal (fun g => snd (nth 1 (nth 1 g []) (0, 0)))) in E.
  cbn [nth fst snd] in E. nra.
Qed.

End ReferenceGatesFacts.

(** * Sequencing in [AlgUtil.hpp]: order, first failure, concatenation *)

Module AlgUtilSequencing.

Import Algorithms.

Local Open Scope nat_scope.

Section Sequencing.

Variables CFP_t T Exn : Type.
Variable applyOperation :
  string -> list Z -> bool -> list T -> Stmt CFP_t Exn.
Variable applyMatrix : list CFP_t -> list Z -> bool -> Stmt CFP_t Exn.

Local Abbreviation SV := (StateVectorManaged CFP_t).
Local Abbreviation Stmt := (Stmt CFP_t Exn).
Local Abbreviation OpsData := (OpsData T).
Local Abbreviation ObsDatum := (ObsDatum CFP_t T).
Local Abbreviation Memory := (Memory CFP_t).

(** The first [k] operations of a list, and two lists one after the
    other. *)
Definition take_ops (k : nat) (operations : OpsData) : OpsData :=
  {| getOpsName := firstn k (getOpsName operations);
     getOpsWires := firstn k (getOpsWires operations);
     getOpsInverses := firstn k (getOpsInverses operations);
     getOpsParams := firstn k (getOpsParams operations) |}.

Definition append_ops (ops1 ops2 : OpsData) : OpsData :=
  {| getOpsName := getOpsName ops1 ++ getOpsName ops2;
     getOpsWires := getOpsWires ops1 ++ getOpsWires ops2;
     getOpsInverses := getOpsInverses ops1 ++ getOpsInverses ops2;
     getOpsParams := getOpsParams ops1 ++ getOpsParams ops2 |}.

(** Every operation has its name, wires, flag and parameters. *)
Definition well_formed (operations : OpsData) : Prop :=
  length (getOpsWires operations) = length (getOpsName operations)
  /\ length (getOpsInverses operations) = length (getOpsName operations)
  /\ length (getOpsParams operations) = length (getOpsName operations).

(** The call [applyOperations] makes for one index. *)
Definition operation_at (operations : OpsData) (adj : bool) (op_idx : nat)
    : Stmt :=
  applyOperation (at_ (getOpsName operations) op_idx "")
                 (at_ (getOpsWires operations) op_idx [])
                 (xorb (at_ (getOpsInverses operations) op_idx false) adj)
                 (at_ (getOpsParams operations) op_idx []).

Lemma for_each_ext_in (f g : nat -> Stmt) (idxs : list nat) :
  (forall (i : nat) (sv : SV), In i idxs -> f i sv = g i sv) ->
  forall sv : SV, for_each f idxs sv = for_each g idxs sv.
Proof.
  induction idxs as [|i idxs IH]; intros Hfg sv; [reflexivity|].
  simpl. unfold and_then. rewrite Hfg by (left; reflexivity).
  destruct (g i sv) as [sv' [|e]]; [|reflexivity].
  apply IH. intros j sv'' Hj. apply Hfg. right. exact Hj.
Qed.

Lemma for_each_app (body : nat -> Stmt) (l1 l2 : list nat) (sv : SV) :
  for_each body (l1 ++ l2) sv
  = and_then (for_each body l1) (for_each body l2) sv.
Proof.
  revert sv. induction l1 as [|i l1 IH]; intros sv; simpl.
  - reflexivity.
  - unfold and_then. destruct (body i sv) as [sv' [|e]].
    + rewrite IH. reflexivity.
    + reflexivity.
Qed.

Lemma for_each_shift (body : nat -> Stmt) (a n : nat) (sv : SV) :
  for_each body (seq a n) sv
  = for_each (fun j => body (a + j)) (seq 0 n) sv.
Proof.
  revert a body sv. induction n as [|n IH]; intros a body sv; [reflexivity|].
  simpl. unfold and_then. rewrite Nat.add_0_r.
  destruct (body a sv) as [sv' [|e]]; [|reflexivity].
  rewrite (IH (S a)), (IH 1). apply for_each_ext_in.
  intros j sv'' _. rewrite Nat.add_succ_r. reflexivity.
Qed.

Lemma at_firstn {A : Type} (v : list A) (k i : nat) (d : A) :
  i < k -> at_ (firstn k v) i d = at_ v i d.
Proof.
  intros Hi. unfold at_. rewrite nth_firstn.
  destruct (Nat.ltb_spec i k); [reflexivity|lia].
Qed.

Lemma applyOperations_take (operations : OpsData) (adj : bool) (k : nat)
    (sv : SV) :
  k <= length (getOpsName operations) ->
  applyOperations applyOperation (take_ops k operations) adj sv
  = for_each (operation_at operations adj) (seq 0 k) sv.
Proof.
  intros Hk. unfold applyOperations. cbn [take_ops getOpsName].
  rewrite length_firstn, Nat.min_l by exact Hk.
  apply for_each_ext_in. intros i sv' Hi. apply in_seq in Hi.
  unfold operation_at, take_ops.
  cbn [getOpsName getOpsWires getOpsInverses getOpsParams].
  rewrite !at_firstn by lia. reflexivity.
Qed.

(** X21: [applyOperations] stops at the first operation that throws. If
    the first [k] operations run normally and leave [sv1], and operation
    [k] throws [e] on [sv1] leaving [sv2], then the call throws [e] with
    the state [sv2]: the operations after [k] are not applied, whatever
    they are. *)
Theorem applyOperations_stops_at_first_throw (operations : OpsData)
    (adj : bool) (k : nat) (sv sv1 sv2 : SV) (e : Exn) :
  k < length (getOpsName operations) ->
  applyOperations applyOperation (take_ops k operations) adj sv
  = (sv1, Normal) ->
  operation_at operations adj k sv1 = (sv2, Throw e) ->
  applyOperations applyOperation operations adj sv = (sv2, Throw e).
Proof.
  intros Hk Hpre Hthrow. rewrite applyOperations_take in Hpre by lia.
  unfold applyOperations. fold (operation_at operations adj).
  replace (length (getOpsName operations))
    with (k + S (length (getOpsName operations) - S k)) by lia.
  rewrite seq_app, for_each_app. unfold and_then at 1. rewrite Hpre.
  cbn [seq for_each]. unfold and_then. change (0 + k) with k.
  rewrite Hthrow.
  reflexivity.
Qed.

(** X22: running the concatenation of two operation lists is running the
    first and then, unless it threw, the second, when the first list is
    well formed (as many wires, flags and parameters as names). *)
Theorem applyOperations_append (ops1 ops2 : OpsData) (adj : bool) (sv : SV) :
  well_formed ops1 ->
  applyOperations applyOperation (append_ops ops1 ops2) adj sv
  = and_then (applyOperations applyOperation ops1 adj)
             (applyOperations applyOperation ops2 adj) sv.
Proof.
  intros (Hw & Hi & Hp). unfold applyOperations at 1.
  cbn [append_ops getOpsName getOpsWires getOpsInverses getOpsParams].
  rewrite length_app, seq_app, for_each_app. unfold and_then.
  assert (E1 : forall sv0 : SV,
    for_each
      (fun op_idx =>
         applyOperation
           (at_ (getOpsName ops1 ++ getOpsName ops2) op_idx "")
           (at_ (getOpsWires ops1 ++ getOpsWires ops2) op_idx [])
           (xorb (at_ (getOpsInverses ops1 ++ getOpsInverses ops2) op_idx
                    false) adj)
           (at_ (getOpsParams ops1 ++ getOpsParams ops2) op_idx []))
      (seq 0 (length (getOpsName ops1))) sv0
    = applyOperations applyOperation ops1 adj sv0).
  { intros sv0. unfold applyOperations. apply for_each_ext_in.
    intros i sv' Hin. apply in_seq in Hin. unfold at_.
    rewrite !app_nth1 by lia. reflexivity. }
  assert (E2 : forall sv0 : SV,
    for_each
      (fun op_idx =>
         applyOperation
           (at_ (getOpsName ops1 ++ getOpsName ops2) op_idx "")
           (at_ (getOpsWires ops1 ++ getOpsWires ops2) op_idx [])
           (xorb (at_ (getOpsInverses ops1 ++ getOpsInverses ops2) op_idx
                    false) adj)
           (at_ (getOpsParams ops1 ++ getOpsParams ops2) op_idx []))
      (seq (0 + length (getOpsName ops1)) (length (getOpsName ops2))) sv0
    = applyOperations applyOperation ops2 adj sv0).
  { intros sv0. unfold applyOperations. rewrite for_each_shift.
    apply for_each_ext_in. intros i sv' Hin. unfold at_.
    rewrite !app_nth2 by lia.
    replace (0 + length (getOpsName ops1) + i - length (getOpsName ops1))
      with i by lia.
    replace (0 + length (getOpsName ops1) + i - length (getOpsWires ops1))
      with i by lia.
    replace (0 + length (getOpsName ops1) + i
             - length (getOpsInverses ops1)) with i by lia.
    replace (0 + length (getOpsName ops1) + i - length (getOpsParams ops1))
      with i by lia.
    reflexivity. }
  rewrite E1. destruct (applyOperations applyOperation ops1 adj sv)
    as [sv' [|e]]; [apply E2|reflexivity].
Qed.

(** X23: [applyOperations] with [adj = true] toggles the flag of every
    operation but keeps the order of the list: it is [applyOperationAdj]
    at the indices 0, 1, ... in this order, the first operation of the
    list first. *)
Theorem applyOperations_adj_keeps_order (operations : OpsData) (sv : SV) :
  applyOperations applyOperation operations true sv
  = for_each (applyOperationAdj applyOperation operations)
      (seq 0 (length (getOpsName operations))) sv
  /\ forall op_idx : nat,
       applyOperationAdj applyOperation operations op_idx
       = operation_at operations true op_idx.
Proof.
  split.
  - apply AlgUtilFacts.applyOperations_adj.
  - intros op_idx. unfold applyOperationAdj, operation_at.
    rewrite xorb_true_r. reflexivity.
Qed.

(** X24: the loop of [applyObservables] may run its iterations in any
    order: when each index below the number of observables is run once,
    the states are those of the loop in index order, and an exception is
    left captured exactly when the call in index order throws. *)
Theorem applyObservables_any_order (observables : list ObsDatum)
    (m : Memory) (idxs : list nat) :
  List.NoDup idxs ->
  (forall j : nat, In j idxs <-> j < length observables) ->
  let st :=
    fold_left
      (fun st h_i =>
         observable_iteration applyOperation applyMatrix observables h_i st)
      idxs (m, None) in
  fst st = fst (applyObservables applyOperation applyMatrix observables m)
  /\ (snd st = None
      <-> snd (applyObservables applyOperation applyMatrix observables m)
          = Normal).
Proof.
  intros Hnd Hidx.
  rewrite AlgUtilFacts.fold_observable_iteration,
    AlgUtilFacts.applyObservables_loop.
  cbn [fst snd].
  destruct (AlgUtilFacts.any_order_same_outcome _ _
              (AlgUtilFacts.observable_bodies _ _ _ applyOperation
                 applyMatrix observables (reference_state m))
              (length observables) idxs (states m) Hnd Hidx) as [Hs Hex].
  split.
  - rewrite Hs. reflexivity.
  - rewrite Hex.
    destruct (snd (AlgUtilFacts.loop _ _
                (AlgUtilFacts.observable_bodies _ _ _ applyOperation
                   applyMatrix observables (reference_state m))
                (length observables) (states m, None))) as [e|]; simpl.
    + split; discriminate.
    + split; reflexivity.
Qed.

End Sequencing.

Arguments take_ops {T} k operations.
Arguments append_ops {T} ops1 ops2.
Arguments well_formed {T} operations.
Arguments operation_at {CFP_t T Exn} applyOperation operations adj op_idx.

(** Three operations for the one-qubit dispatcher; it does not know the
    second. *)
Definition ops_failing : OpsData float :=
  {| getOpsName := ["PauliX"; "Toffoli"; "S"]%string;
     getOpsWires := [[0%Z]; [0%Z]; [0%Z]];
     getOpsInverses := [false; false; false];
     getOpsParams := [[]; []; []] |}.

Lemma applyOperations_stops_at_first_throw_witness :
  1 < length (getOpsName ops_failing)
  /\ applyOperations AlgUtilFacts.applyOperation_1q (take_ops 1 ops_failing)
       false (AlgUtilFacts.ket (1, 0)%Z (0, 2)%Z)
     = (AlgUtilFacts.ket (0, 2)%Z (1, 0)%Z, Normal)
  /\ operation_at AlgUtilFacts.applyOperation_1q ops_failing false 1
       (AlgUtilFacts.ket (0, 2)%Z (1, 0)%Z)
     = (AlgUtilFacts.ket (0, 2)%Z (1, 0)%Z,
        Throw "unknown gate Toffoli"%string)
  /\ applyOperations AlgUtilFacts.applyOperation_1q ops_failing false
       (AlgUtilFacts.ket (1, 0)%Z (0, 2)%Z)
     = (AlgUtilFacts.ket (0, 2)%Z (1, 0)%Z,
        Throw "unknown gate Toffoli"%string).
Proof.
  split; [simpl; lia|]. split; [reflexivity|]. split; [reflexivity|].
  apply (applyOperations_stops_at_first_throw (Z * Z) float string
           AlgUtilFacts.applyOperation_1q ops_failing false 1
           (AlgUtilFacts.ket (1, 0)%Z (0, 2)%Z)
           (AlgUtilFacts.ket (0, 2)%Z (1, 0)%Z)
           (AlgUtilFacts.ket (0, 2)%Z (1, 0)%Z)
           "unknown gate Toffoli"%string);
    [simpl; lia | reflexivity | reflexivity].
Defined.

Lemma applyOperations_append_witness :
  well_formed AlgUtilFacts.ops_1q
  /\ applyOperations AlgUtilFacts.applyOperation_1q
       (append_ops AlgUtilFacts.ops_1q ops_failing) true
       (AlgUtilFacts.ket (1, 0)%Z (0, 2)%Z)
     = and_then
         (applyOperations AlgUtilFacts.applyOperation_1q AlgUtilFacts.ops_1q
            true)
         (applyOperations AlgUtilFacts.applyOperation_1q ops_failing true)
         (AlgUtilFacts.ket (1, 0)%Z (0, 2)%Z).
Proof.
  split; [repeat split|].
  apply (applyOperations_append (Z * Z) float string
           AlgUtilFacts.applyOperation_1q AlgUtilFacts.ops_1q ops_failing
           true (AlgUtilFacts.ket (1, 0)%Z (0, 2)%Z)).
  repeat split.
Defined.

Lemma applyObservables_any_order_witness :
  List.NoDup [1; 0]
  /\ (forall j : nat,
        In j [1; 0]
        <-> j < length [AlgUtilFacts.named_observable "PauliX";
                        AlgUtilFacts.named_observable "S"])
  /\ fst (fold_left
            (fun st h_i =>
               observable_iteration AlgUtilFacts.applyOperation_1q
                 AlgUtilFacts.applyMatrix_1q
                 [AlgUtilFacts.named_observable "PauliX";
                  AlgUtilFacts.named_observable "S"] h_i st)
            [1; 0] (AlgUtilFacts.memory_1q, None))
     = fst (applyObservables AlgUtilFacts.applyOperation_1q
              AlgUtilFacts.applyMatrix_1q
              [AlgUtilFacts.named_observable "PauliX";
               AlgUtilFacts.named_observable "S"] AlgUtilFacts.memory_1q).
Proof.
  assert (Hnd : List.NoDup [1; 0]).
  { constructor; [simpl; lia|]. constructor; [simpl; lia|constructor]. }
  assert (Hidx : forall j : nat,
            In j [1; 0]
            <-> j < length [AlgUtilFacts.named_observable "PauliX";
                            AlgUtilFacts.named_observable "S"])
    by (intros j; simpl; lia).
  split; [exact Hnd|]. split; [exact Hidx|].
  exact (proj1 (applyObservables_any_order (Z * Z) float string
                  AlgUtilFacts.applyOperation_1q AlgUtilFacts.applyMatrix_1q
                  [AlgUtilFacts.named_observable "PauliX";
                   AlgUtilFacts.named_observable "S"]
                  AlgUtilFacts.memory_1q [1; 0] Hnd Hidx)).
Defined.

End AlgUtilSequencing.

(** * Edge cases of the AVX512 entry points *)

Module AVX512Edges.

Import GateImplementationsAVX512.

Local Open Scope Z_scope.

Lemma rev_wire_of_out_of_range (num_qubits wire : Z) :
  0 < num_qubits <= wire -> wire < Util.size_t_modulus ->
  Util.rev_wire_of num_qubits wire
  = Util.size_t_modulus + num_qubits - wire - 1.
Proof.
  intros Hn Hw. unfold Util.rev_wire_of, Util.size_t_sub.
  unfold Util.size_t_modulus in *.
  destruct (Z.eq_dec num_qubits wire) as [->|Hne].
  - rewrite Z.sub_diag.
    replace (2 ^ 64 + wire - wire - 1) with (2 ^ 64 - 1) by lia.
    reflexivity.
  - replace ((num_qubits - wire) mod 2 ^ 64)
      with (2 ^ 64 + num_qubits - wire).
    + apply Z.mod_small. lia.
    + apply (Z.mod_unique _ _ (-1)); lia.
Qed.

Section Edges.

Variables Arr Mat ParamT : Type.
Variable opp : ParamT -> ParamT.
Variable getRot : ParamT -> ParamT -> ParamT -> Mat.

Local Abbreviation Effect := (Effect Arr Mat ParamT).

(** X25: the entry points check the number of wires before anything else:
    with a wire list of another length than one (two for [applyCZ],
    [applySWAP] and [applyIsingZZ]) the assertion fails and no kernel is
    called, neither of this family nor of the generic one. *)
Theorem wrong_wire_count_asserts (p : PrecisionT) (arr : Arr)
    (num_qubits : Z) (wires : list Z) (inverse : bool)
    (angle phi theta omega : ParamT) :
  (length wires <> 1%nat ->
   applyPauliX p arr num_qubits wires inverse =@{Effect} AssertFailed
   /\ applyPauliY p arr num_qubits wires inverse =@{Effect} AssertFailed
   /\ applyPauliZ p arr num_qubits wires inverse =@{Effect} AssertFailed
   /\ applyHadamard p arr num_qubits wires inverse =@{Effect} AssertFailed
   /\ applyS p arr num_qubits wires inverse =@{Effect} AssertFailed
   /\ applyRX p arr num_qubits wires inverse angle =@{Effect} AssertFailed
   /\ applyRZ p arr num_qubits wires inverse angle =@{Effect} AssertFailed
   /\ applyRot opp getRot p arr num_qubits wires inverse phi theta omega
      =@{Effect} AssertFailed)
  /\ (length wires <> 2%nat ->
      applyCZ p arr num_qubits wires inverse =@{Effect} AssertFailed
      /\ applySWAP p arr num_qubits wires inverse =@{Effect} AssertFailed
      /\ applyIsingZZ p arr num_qubits wires inverse angle
         =@{Effect} AssertFailed).
Proof.
  split; intros Hlen.
  - assert (E : (length wires =? 1)%nat = false)
      by (apply Nat.eqb_neq; exact Hlen).
    unfold applyPauliX, applyPauliY, applyPauliZ, applyHadamard, apply_fixed,
      applyS, applyRX, applyRZ, apply_angle, applyRot.
    rewrite E. repeat split.
  - assert (E : (length wires =? 2)%nat = false)
      by (apply Nat.eqb_neq; exact Hlen).
    unfold applyCZ, applySWAP, applyIsingZZ.
    rewrite E. repeat split.
Qed.

(** X26: a wire that is not below the number of qubits is not rejected.
    On the vectorised path the reverse wire [num_qubits - wire - 1] wraps
    around to [2^64 + num_qubits - wire - 1], which is not a bit position
    of the state, and every one-wire entry point hands it to the external
    kernel. *)
Theorem out_of_range_wire_goes_external (p : PrecisionT) (arr : Arr)
    (num_qubits wire : Z) (matrix : Mat) (inverse : bool) (angle : ParamT) :
  internal_wires_v (packed_size p) <= num_qubits ->
  num_qubits <= wire < Util.size_t_modulus ->
  let r := Util.size_t_modulus + num_qubits - wire - 1 in
  num_qubits <= r
  /\ applySingleQubitOp p arr num_qubits matrix wire inverse
     =@{Effect} Call (applyExternal ApplySingleQubitOp)
                  [a_arr arr; a_size num_qubits; a_size r; a_matrix matrix;
                   a_bool inverse]
  /\ applyPauliX p arr num_qubits [wire] inverse
     =@{Effect} Call (applyExternal ApplyPauliX)
                  [a_arr arr; a_size num_qubits; a_size r]
  /\ applyPauliY p arr num_qubits [wire] inverse
     =@{Effect} Call (applyExternal ApplyPauliY)
                  [a_arr arr; a_size num_qubits; a_size r]
  /\ applyPauliZ p arr num_qubits [wire] inverse
     =@{Effect} Call (applyExternal ApplyPauliZ)
                  [a_arr arr; a_size num_qubits; a_size r]
  /\ applyHadamard p arr num_qubits [wire] inverse
     =@{Effect} Call (applyExternal ApplyHadamard)
                  [a_arr arr; a_size num_qubits; a_size r]
  /\ applyS p arr num_qubits [wire] inverse
     =@{Effect} Call (applyExternal ApplyS)
                  [a_arr arr; a_size num_qubits; a_size r; a_bool inverse]
  /\ applyRX p arr num_qubits [wire] inverse angle
     =@{Effect} Call (applyExternal ApplyRX)
                  [a_arr arr; a_size num_qubits; a_size r; a_bool inverse;
                   a_param angle]
  /\ applyRZ p arr num_qubits [wire] inverse angle
     =@{Effect} Call (applyExternal ApplyRZ)
                  [a_arr arr; a_size num_qubits; a_size r; a_bool inverse;
                   a_param angle].
Proof.
  clear opp getRot. intros Hn Hw r.
  destruct (AVX512Facts.guard_not_taken p num_qubits Hn) as [Hguard Hlit].
  assert (Hpos : 0 < num_qubits).
  { rewrite AVX512Facts.internal_wires_literal in Hn.
    destruct p; simpl in Hn; lia. }
  assert (Hr : Util.rev_wire_of num_qubits wire = r)
    by (apply rev_wire_of_out_of_range; lia).
  assert (Hge : num_qubits <= r) by (unfold r; lia).
  assert (Hext : AVX512Facts.is_internal p r = false).
  { unfold AVX512Facts.is_internal. apply Z.ltb_ge. lia. }
  assert (Hlit' : (r <? literal_bound p) = false).
  { rewrite <- AVX512Facts.internal_wires_literal. exact Hext. }
  split; [exact Hge|].
  unfold applySingleQubitOp, applyPauliX, applyPauliY, applyPauliZ,
    applyHadamard, apply_fixed, applyS, applyRX, applyRZ, apply_angle,
    wire_at.
  simpl length. simpl negb. cbv iota. simpl nth.
  rewrite Hguard, Hr.
  rewrite !AVX512Facts.switch_rev_wire_spec by lia. rewrite Hext.
  repeat split.
  destruct p; simpl in Hlit, Hlit' |- *; rewrite Hlit;
    [rewrite AVX512Facts.switch_float_spec by lia
    |rewrite AVX512Facts.switch_double_spec by lia];
    rewrite Hlit'; reflexivity.
Qed.

(** X27: on the vectorised path the entry points of the gates that are
    their own inverse do not look at the flag: the kernel called and its
    arguments are the same for any two values of [inverse]. *)
Theorem inverse_flag_ignored (p : PrecisionT) (arr : Arr)
    (num_qubits : Z) (wires : list Z) (inverse inverse' : bool) :
  internal_wires_v (packed_size p) <= num_qubits ->
  applyPauliX p arr num_qubits wires inverse
  =@{Effect} applyPauliX p arr num_qubits wires inverse'
  /\ applyPauliY p arr num_qubits wires inverse
     =@{Effect} applyPauliY p arr num_qubits wires inverse'
  /\ applyPauliZ p arr num_qubits wires inverse
     =@{Effect} applyPauliZ p arr num_qubits wires inverse'
  /\ applyHadamard p arr num_qubits wires inverse
     =@{Effect} applyHadamard p arr num_qubits wires inverse'
  /\ applyCZ p arr num_qubits wires inverse
     =@{Effect} applyCZ p arr num_qubits wires inverse'
  /\ applySWAP p arr num_qubits wires inverse
     =@{Effect} applySWAP p arr num_qubits wires inverse'.
Proof.
  intros Hn.
  destruct (AVX512Facts.guard_not_taken p num_qubits Hn) as [Hguard Hlit].
  unfold applyPauliX, applyPauliY, applyPauliZ, applyHadamard, apply_fixed,
    applyCZ, applySWAP.
  rewrite Hguard.
  repeat split; try reflexivity.
  destruct (negb (length wires =? 2)%nat); [reflexivity|].
  destruct p; simpl in Hlit |- *; rewrite Hlit; reflexivity.
Qed.

(** X28: [applySWAP] with one wire given twice. On the vectorised path,
    when the wire is internal, single precision runs into the branch marked
    unreachable, and double precision calls the kernel that swaps the
    reverse wires 0 and 1, whichever of them the wire is; when the wire is
    external the external kernel is called with the reverse wire twice. *)
Theorem applySWAP_repeated_wire (p : PrecisionT) (arr : Arr)
    (num_qubits wire : Z) (inverse : bool) :
  internal_wires_v (packed_size p) <= num_qubits < Util.size_t_modulus ->
  0 <= wire < num_qubits ->
  let r := num_qubits - wire - 1 in
  applySWAP p arr num_qubits [wire; wire] inverse
  =@{Effect}
  if AVX512Facts.is_internal p r then
    match p with
    | Float => Unreachable
    | Double =>
        Call (applyInternalInternal ApplySWAP [0; 1])
          [a_arr arr; a_size num_qubits]
    end
  else
    Call (applyExternalExternal ApplySWAP)
      [a_arr arr; a_size num_qubits; a_size r; a_size r].
Proof.
  intros Hn Hw r.
  destruct (AVX512Facts.guard_not_taken p num_qubits (proj1 Hn))
    as [_ Hlit].
  unfold applySWAP, AVX512Facts.is_internal, wire_at.
  rewrite AVX512Facts.internal_wires_literal.
  simpl length. simpl negb. cbv iota. simpl nth.
  rewrite !AVX512Facts.rev_wire_of_in_range by lia. fold r.
  rewrite Z.min_id, Z.max_id, Z.lxor_nilpotent.
  destruct p; simpl in Hlit |- *; rewrite Hlit;
    destruct (r <? _); reflexivity.
Qed.

(** X29: [applySWAP] does not depend on the order of its two wires as
    soon as one of them is internal: the call is the same for
    [wires = {a, b}] and [wires = {b, a}]. With two external wires the
    external kernel receives the two reverse wires in exchanged order. *)
Theorem applySWAP_symmetric (p : PrecisionT) (arr : Arr)
    (num_qubits a b : Z) (inverse : bool) :
  internal_wires_v (packed_size p) <= num_qubits < Util.size_t_modulus ->
  0 <= a < num_qubits ->
  0 <= b < num_qubits ->
  let ra := num_qubits - a - 1 in
  let rb := num_qubits - b - 1 in
  if AVX512Facts.is_internal p ra || AVX512Facts.is_internal p rb then
    applySWAP p arr num_qubits [a; b] inverse
    =@{Effect} applySWAP p arr num_qubits [b; a] inverse
  else
    applySWAP p arr num_qubits [a; b] inverse
    =@{Effect} Call (applyExternalExternal ApplySWAP)
                 [a_arr arr; a_size num_qubits; a_size rb; a_size ra]
    /\ applySWAP p arr num_qubits [b; a] inverse
       =@{Effect} Call (applyExternalExternal ApplySWAP)
                    [a_arr arr; a_size num_qubits; a_size ra; a_size rb].
Proof.
  intros Hn Ha Hb ra rb.
  destruct (AVX512Facts.guard_not_taken p num_qubits (proj1 Hn))
    as [_ Hlit].
  pose proof (AVX512Facts.is_internal_min p ra rb) as Hmin.
  pose proof (AVX512Facts.is_internal_min p rb ra) as Hmin'.
  unfold applySWAP, AVX512Facts.is_internal, wire_at in *.
  rewrite AVX512Facts.internal_wires_literal in *.
  simpl length. simpl negb. cbv iota. simpl nth.
  rewrite !AVX512Facts.rev_wire_of_in_range by lia. fold ra rb.
  rewrite (Z.min_comm rb ra), (Z.max_comm rb ra) in *.
  destruct p; simpl in Hlit, Hmin, Hmin' |- *; rewrite Hlit, Hmin;
    destruct (ra <? _), (rb <? _); simpl; try reflexivity;
    split; reflexivity.
Qed.

End Edges.

(** Three qubits in double precision, wire 5. *)
Lemma out_of_range_wire_goes_external_witness :
  internal_wires_v (packed_size Double) <= 3
  /\ 3 <= 5 < Util.size_t_modulus
  /\ applyPauliX (Mat := float * float * float) (ParamT := float)
       Double 4096 3 [5] false
     = Call (applyExternal ApplyPauliX)
         [a_arr 4096; a_size 3; a_size (Util.size_t_modulus + 3 - 5 - 1)].
Proof.
  assert (Hn : internal_wires_v (packed_size Double) <= 3) by discriminate.
  assert (Hw : 3 <= 5 < Util.size_t_modulus)
    by (split; [discriminate | reflexivity]).
  pose proof (out_of_range_wire_goes_external Z (float * float * float) float
                Double 4096 3 5 (0, 0, 0)%float false 0.5%float Hn Hw) as H.
  cbv zeta in H.
  split; [exact Hn|]. split; [exact Hw|]. apply H.
Defined.

Lemma inverse_flag_ignored_witness :
  internal_wires_v (packed_size Float) <= 4
  /\ applySWAP (Mat := float * float * float) (ParamT := float)
       Float 4096 4 [0; 1] true
     = applySWAP Float 4096 4 [0; 1] false.
Proof.
  assert (Hn : internal_wires_v (packed_size Float) <= 4) by discriminate.
  split; [exact Hn|].
  apply (inverse_flag_ignored Z (float * float * float) float
           Float 4096 4 [0; 1] true false Hn).
Defined.

(** Four qubits, wire 3 twice: its reverse wire 0 is internal. *)
Lemma applySWAP_repeated_wire_witness :
  internal_wires_v (packed_size Float) <= 4 < Util.size_t_modulus
  /\ 0 <= 3 < 4
  /\ applySWAP (Mat := float * float * float) (ParamT := float)
       Float 4096 4 [3; 3] false
     = Unreachable.
Proof.
  assert (Hn : internal_wires_v (packed_size Float) <= 4
               < Util.size_t_modulus)
    by (split; [discriminate | reflexivity]).
  assert (Hw : 0 <= 3 < 4) by lia.
  split; [exact Hn|]. split; [exact Hw|].
  exact (applySWAP_repeated_wire Z (float * float * float) float
           Float 4096 4 3 false Hn Hw).
Defined.

Lemma applySWAP_symmetric_witness :
  internal_wires_v (packed_size Float) <= 4 < Util.size_t_modulus
  /\ 0 <= 0 < 4
  /\ 0 <= 1 < 4
  /\ applySWAP (Mat := float * float * float) (ParamT := float)
       Float 4096 4 [0; 1] false
     = applySWAP Float 4096 4 [1; 0] false.
Proof.
  assert (Hn : internal_wires_v (packed_size Float) <= 4
               < Util.size_t_modulus)
    by (split; [discriminate | reflexivity]).
  assert (Ha : 0 <= 0 < 4) by lia.
  assert (Hb : 0 <= 1 < 4) by lia.
  split; [exact Hn|]. split; [exact Ha|]. split; [exact Hb|].
  exact (applySWAP_symmetric Z (float * float * float) float
           Float 4096 4 0 1 false Hn Ha Hb).
Defined.

End AVX512Edges.

(** * The loops of [AlgUtil.hpp] in the build with OpenMP *)

Module AlgUtilOpenMP.

Import Algorithms.

Local Open Scope nat_scope.

Section Region.

Variables CFP_t T Exn : Type.
Variable applyOperation :
  string -> list Z -> bool -> list T -> Stmt CFP_t Exn.
Variable applyMatrix : list CFP_t -> list Z -> bool -> Stmt CFP_t Exn.

Local Abbreviation SV := (StateVectorManaged CFP_t).
Local Abbreviation Stmt := (Stmt CFP_t Exn).
Local Abbreviation Captured := (Captured CFP_t Exn).
Local Abbreviation Completion := (Completion Exn).
Local Abbreviation ObsDatum := (ObsDatum CFP_t T).
Local Abbreviation OpsData := (OpsData T).
Local Abbreviation Memory := (Memory CFP_t).
Local Abbreviation Batch := (AlgUtilFacts.Batch CFP_t T).
Local Abbreviation step := (AlgUtilFacts.step CFP_t Exn).
Local Abbreviation slot_after := (AlgUtilFacts.slot_after CFP_t Exn).

(** The team of threads inside [#pragma omp parallel], between two
    iterations of the loop under [#pragma omp for]:
    - [shared]: the variables of the [shared] clause that are written,
      [states] and [ex];
    - [cancelled]: [#pragma omp cancel for] has activated the cancellation
      of the loop;
    - [pending]: for each thread, the iterations the loop gave it that it
      has not started, in the order in which it will run them.
    The body for [h_i] reads and writes [states[h_i]] only and [ex] is
    assigned inside [#pragma omp critical], so the iterations of different
    threads do not interfere, and a run of the region is given by the order
    in which the threads complete iterations. *)
Record Team : Type := {
  shared : Captured;
  cancelled : bool;
  pending : list (list nat)
}.

(** The [try] block of iteration [i] ends in the [catch] clause. *)
Definition threw (bodies : nat -> option Stmt) (st : Captured) (i : nat)
    : bool :=
  match bodies i, fst st !! i with
  | Some b, Some sv =>
      match snd (b sv) with Normal => false | Throw _ => true end
  | _, _ => false
  end.

(** A thread, whose pending iterations are [i :: rest], runs [i]: the
    [try] block on [states[i]] and, when it throws, the [catch] clause,
    which assigns [ex] and meets [#pragma omp cancel for]. With
    cancellation enabled ([cancel_var], the ICV that [OMP_CANCELLATION]
    sets) this activates the cancellation and the thread leaves the loop;
    with cancellation disabled the directive is ignored and the thread goes
    on with [rest]. *)
Definition after_iteration (cancel_var : bool)
    (bodies : nat -> option Stmt) (tm : Team)
    (before after : list (list nat)) (i : nat) (rest : list nat) : Team :=
  let cancels := threw bodies (shared tm) i && cancel_var in
  {| shared := step bodies (shared tm) i;
     cancelled := cancelled tm || cancels;
     pending := before ++ (if cancels then [] else rest) :: after |}.

(** One step of the region. A thread with pending iterations runs the
    next one, or, once the cancellation is active, leaves the loop without
    running them. The standard obliges a thread to notice the cancellation
    at a cancellation point only; here it may do so before any
    iteration, or never. *)
Inductive omp_step (cancel_var : bool) (bodies : nat -> option Stmt)
    : Team -> Team -> Prop :=
| omp_iteration (tm : Team) (before after : list (list nat)) (i : nat)
    (rest : list nat) :
    pending tm = before ++ (i :: rest) :: after ->
    omp_step cancel_var bodies tm
      (after_iteration cancel_var bodies tm before after i rest)
| omp_leave (tm : Team) (before after : list (list nat)) (i : nat)
    (rest : list nat) :
    cancelled tm = true ->
    pending tm = before ++ (i :: rest) :: after ->
    omp_step cancel_var bodies tm
      {| shared := shared tm; cancelled := true;
         pending := before ++ [] :: after |}.

Inductive omp_runs (cancel_var : bool) (bodies : nat -> option Stmt)
    : Team -> Team -> Prop :=
| omp_runs_refl (tm : Team) : omp_runs cancel_var bodies tm tm
| omp_runs_step (tm1 tm2 tm3 : Team) :
    omp_step cancel_var bodies tm1 tm2 ->
    omp_runs cancel_var bodies tm2 tm3 ->
    omp_runs cancel_var bodies tm1 tm3.

(** Every thread has left the loop: the barrier at its end opens. *)
Definition finished (tm : Team) : Prop := concat (pending tm) = [].

(** How [#pragma omp for] may give the iterations [0 .. n - 1] to the
    threads: each to one thread, in any number of threads and any order. *)
Definition distribution (n : nat) (chunks : list (list nat)) : Prop :=
  Permutation (concat chunks) (seq 0 n).

(** The parallel region with its loop, and the statement after it:
    [ex] starts empty, the team runs until every thread has left the loop
    ([#pragma omp cancel parallel] after the loop has nothing left to
    skip), and [if (ex) std::rethrow_exception(ex)] follows the region. *)
Definition omp_for (cancel_var : bool) (bodies : nat -> option Stmt)
    (n : nat) (sts : list SV) (r : list SV * Completion) : Prop :=
  exists (chunks : list (list nat)) (tm : Team),
    distribution n chunks
    /\ omp_runs cancel_var bodies
         {| shared := (sts, None); cancelled := false; pending := chunks |}
         tm
    /\ finished tm
    /\ r = (fst (shared tm), rethrow (snd (shared tm))).

(** [applyObservables] built with OpenMP. *)
Definition applyObservables_omp (cancel_var : bool)
    (observables : list ObsDatum) (m : Memory) (r : Memory * Completion)
    : Prop :=
  exists sts' : list SV,
    omp_for cancel_var
      (fun h_i =>
         (fun ob sv =>
            applyObservable applyOperation applyMatrix ob
              (updateData sv (getDataVector (reference_state m))))
         <$> observables !! h_i)
      (length observables) (states m) (sts', snd r)
    /\ fst r = {| states := sts'; reference_state := reference_state m |}.

(** [applyOperationsAdj] built with OpenMP. *)
Definition applyOperationsAdj_omp (cancel_var : bool)
    (operations : OpsData) (op_idx : nat) (sts : list SV)
    (r : list SV * Completion) : Prop :=
  omp_for cancel_var
    (fun _ => Some (applyOperationAdj applyOperation operations op_idx))
    (length sts) sts r.

(** What the caller of either may get back. *)
Definition run_batch_omp (cancel_var : bool) (c : Batch)
    (r : list SV * Completion) : Prop :=
  match c with
  | AlgUtilFacts.ObservablesBatch observables m =>
      exists r' : Memory * Completion,
        applyObservables_omp cancel_var observables m r'
        /\ r = (states (fst r'), snd r')
  | AlgUtilFacts.OperationsAdjBatch operations op_idx sts =>
      applyOperationsAdj_omp cancel_var operations op_idx sts r
  end.

(** The slots of the state vectors before the call. *)
Definition batch_states (c : Batch) : list SV :=
  match c with
  | AlgUtilFacts.ObservablesBatch _ m => states m
  | AlgUtilFacts.OperationsAdjBatch _ _ sts => sts
  end.

(** *** Runs of the region *)

(** The iterations not yet started. *)
Definition todo (tm : Team) : list nat := concat (pending tm).

Lemma concat_middle (before after : list (list nat)) (l : list nat) :
  concat (before ++ l :: after) = concat before ++ l ++ concat after.
Proof. rewrite concat_app, concat_cons. reflexivity. Qed.

Lemma NoDup_remove_middle (a b c : list nat) :
  List.NoDup (a ++ b ++ c) -> List.NoDup (a ++ c).
Proof.
  induction b as [|x b IH]; simpl; [auto|].
  intros H. apply IH. eapply NoDup_remove_1. exact H.
Qed.

(** A thread that runs its next iteration [i], or leaves the loop, takes
    iterations away from those not yet started, [i] among them. *)
Lemma pending_shrinks (before after : list (list nat)) (i : nat)
    (rest rest' : list nat) :
  rest' = rest \/ rest' = [] ->
  List.NoDup (concat (before ++ (i :: rest) :: after)) ->
  List.NoDup (concat (before ++ rest' :: after))
  /\ ~ In i (concat (before ++ rest' :: after))
  /\ In i (concat (before ++ (i :: rest) :: after))
  /\ (forall k : nat,
        In k (concat (before ++ rest' :: after)) ->
        In k (concat (before ++ (i :: rest) :: after)))
  /\ (rest' = rest ->
      forall k : nat,
        In k (concat (before ++ (i :: rest) :: after)) ->
        k = i \/ In k (concat (before ++ rest' :: after)))
  /\ length (concat (before ++ rest' :: after))
     < length (concat (before ++ (i :: rest) :: after)).
Proof.
  rewrite !concat_middle. intros Hor Hnd. simpl in Hnd.
  destruct (NoDup_remove _ _ _ Hnd) as [Hnd1 Hnotin].
  assert (Hin : In i (concat before ++ (i :: rest) ++ concat after))
    by (apply in_app_iff; right; left; reflexivity).
  destruct Hor as [->| ->].
  - split; [exact Hnd1|]. split; [exact Hnotin|]. split; [exact Hin|].
    split; [|split].
    + intros k Hk. apply in_app_iff in Hk. apply in_app_iff.
      destruct Hk as [Hk|Hk]; [left; exact Hk|right; right; exact Hk].
    + intros _ k Hk. apply in_app_iff in Hk.
      destruct Hk as [Hk|[Hk|Hk]].
      * right. apply in_app_iff. left. exact Hk.
      * left. symmetry. exact Hk.
      * right. apply in_app_iff. right. exact Hk.
    + rewrite ?length_app. simpl. rewrite ?length_app. simpl. lia.
  - simpl. split; [apply (NoDup_remove_middle _ rest); exact Hnd1|].
    split; [|split; [exact Hin|split; [|split]]].
    + intros Hk. apply Hnotin. apply in_app_iff in Hk. apply in_app_iff.
      destruct Hk as [Hk|Hk]; [left; exact Hk|].
      right. apply in_app_iff. right. exact Hk.
    + intros k Hk. apply in_app_iff in Hk. apply in_app_iff.
      destruct Hk as [Hk|Hk]; [left; exact Hk|].
      right. right. apply in_app_iff. right. exact Hk.
    + intros <-. intros k Hk. apply in_app_iff in Hk.
      destruct Hk as [Hk|[Hk|Hk]].
      * right. apply in_app_iff. left. exact Hk.
      * left. symmetry. exact Hk.
      * right. apply in_app_iff. right. exact Hk.
    + rewrite ?length_app. simpl. rewrite ?length_app. simpl. lia.
Qed.

Lemma threw_true (bodies : nat -> option Stmt) (st : Captured) (i : nat) :
  threw bodies st i = true ->
  exists (b : Stmt) (sv : SV) (e0 : Exn),
    bodies i = Some b /\ fst st !! i = Some sv /\ snd (b sv) = Throw e0
    /\ snd (step bodies st i) = Some e0.
Proof.
  unfold threw. rewrite AlgUtilFacts.step_captured.
  destruct (bodies i) as [b|]; [|discriminate].
  destruct (fst st !! i) as [sv|]; [|discriminate].
  destruct (snd (b sv)) as [|e0] eqn:Hc; [discriminate|].
  intros _. exists b, sv, e0. repeat split. exact Hc.
Qed.

Lemma threw_false (bodies : nat -> option Stmt) (st : Captured) (i : nat) :
  threw bodies st i = false ->
  snd (step bodies st i) = snd st
  /\ forall (b : Stmt) (sv : SV),
       bodies i = Some b -> fst st !! i = Some sv -> snd (b sv) = Normal.
Proof.
  unfold threw. rewrite AlgUtilFacts.step_captured.
  destruct (bodies i) as [b|]; [|split; [reflexivity|discriminate]].
  destruct (fst st !! i) as [sv|]; [|split; [reflexivity|discriminate]].
  destruct (snd (b sv)) as [|e0] eqn:Hc; [|discriminate].
  intros _. split; [reflexivity|].
  intros b' sv' [= <-] [= <-]. exact Hc.
Qed.

(** What holds between any two steps of a region started on [sts] with an
    empty [ex]. *)
Record region_invariant (cancel_var : bool) (bodies : nat -> option Stmt)
    (n : nat) (sts : list SV) (tm : Team) : Prop := {
  inv_nodup : List.NoDup (todo tm);
  inv_pending :
    forall k : nat,
      In k (todo tm) -> k < n /\ fst (shared tm) !! k = sts !! k;
  inv_slot :
    forall k : nat,
      fst (shared tm) !! k = slot_after bodies sts k
      \/ fst (shared tm) !! k = sts !! k;
  inv_all_run :
    cancelled tm = false ->
    forall k : nat,
      k < n -> ~ In k (todo tm) ->
      fst (shared tm) !! k = slot_after bodies sts k;
  inv_cancel_var : cancel_var = false -> cancelled tm = false;
  inv_ex :
    match snd (shared tm) with
    | Some e' =>
        exists (j : nat) (bj : Stmt) (svj : SV),
          j < n /\ bodies j = Some bj /\ sts !! j = Some svj
          /\ snd (bj svj) = Throw e' /\ ~ In j (todo tm)
          /\ fst (shared tm) !! j = Some (fst (bj svj))
    | None =>
        cancelled tm = false
        /\ forall (k : nat) (bk : Stmt) (svk : SV),
             k < n -> ~ In k (todo tm) ->
             bodies k = Some bk -> sts !! k = Some svk ->
             snd (bk svk) = Normal
    end
}.

Lemma invariant_start (cancel_var : bool) (bodies : nat -> option Stmt)
    (n : nat) (sts : list SV) (chunks : list (list nat)) :
  distribution n chunks ->
  region_invariant cancel_var bodies n sts
    {| shared := (sts, None); cancelled := false; pending := chunks |}.
Proof.
  intros Hd. unfold distribution in Hd.
  assert (Hall : forall k, k < n -> In k (concat chunks)).
  { intros k Hk. apply (Permutation_in _ (Permutation_sym Hd)).
    apply in_seq. lia. }
  constructor; unfold todo; simpl.
  - apply (Permutation_NoDup (Permutation_sym Hd)). apply List.seq_NoDup.
  - intros k Hk. apply (Permutation_in _ Hd) in Hk. apply in_seq in Hk.
    split; [lia|reflexivity].
  - intros k. right. reflexivity.
  - intros _ k Hk Hnot. destruct (Hnot (Hall k Hk)).
  - reflexivity.
  - split; [reflexivity|]. intros k bk svk Hk Hnot.
    destruct (Hnot (Hall k Hk)).
Qed.

Lemma invariant_step (cancel_var : bool) (bodies : nat -> option Stmt)
    (n : nat) (sts : list SV) (tm tm' : Team) :
  omp_step cancel_var bodies tm tm' ->
  region_invariant cancel_var bodies n sts tm ->
  region_invariant cancel_var bodies n sts tm'.
Proof.
  intros Hstep [Hnd Hpend Hslot Hall Hvar Hex].
  destruct Hstep as [tm before after i rest Hp
                    | tm before after i rest Hc Hp];
    unfold todo in *; rewrite Hp in *.
  - set (cancels := threw bodies (shared tm) i && cancel_var).
    set (rest' := if cancels then [] else rest).
    assert (Hor : rest' = rest \/ rest' = [])
      by (unfold rest'; destruct cancels; [right|left]; reflexivity).
    destruct (pending_shrinks before after i rest rest' Hor Hnd)
      as (Hnd' & Hi' & Hi & Hsub & Hsame & _).
    destruct (Hpend i Hi) as [Hin Hsi].
    assert (F1 : forall k, k <> i ->
              fst (step bodies (shared tm) i) !! k = fst (shared tm) !! k).
    { intros k Hk. apply AlgUtilFacts.step_lookup_ne.
      intros E. apply Hk. symmetry. exact E. }
    assert (F2 : fst (step bodies (shared tm) i) !! i
                 = slot_after bodies sts i).
    { rewrite AlgUtilFacts.step_slot. unfold AlgUtilFacts.slot_after.
      rewrite Hsi. reflexivity. }
    constructor; unfold todo, after_iteration; simpl;
      fold cancels; fold rest'.
    + exact Hnd'.
    + intros k Hk.
      assert (Hne : k <> i) by (intros ->; contradiction).
      rewrite F1 by exact Hne. apply Hpend, Hsub, Hk.
    + intros k. destruct (Nat.eq_dec k i) as [->|Hne].
      * left. exact F2.
      * rewrite F1 by exact Hne. apply Hslot.
    + intros Hc k Hk Hnot. apply orb_false_iff in Hc.
      destruct Hc as [Hc Hcs].
      destruct (Nat.eq_dec k i) as [->|Hne]; [exact F2|].
      rewrite F1 by exact Hne. apply (Hall Hc k Hk).
      intros Hk'. unfold rest' in Hsame. rewrite Hcs in Hsame.
      destruct (Hsame eq_refl k Hk') as [->|Hk'']; [congruence|].
      apply Hnot. unfold rest'. rewrite Hcs. exact Hk''.
    + intros Hv. rewrite (Hvar Hv). unfold cancels. rewrite Hv.
      rewrite andb_false_r. reflexivity.
    + destruct (threw bodies (shared tm) i) eqn:Ht.
      * destruct (threw_true _ _ _ Ht) as (b & sv & e0 & Hb & Hsv & Hthrow
                                            & He0).
        rewrite He0. exists i, b, sv.
        split; [exact Hin|]. split; [exact Hb|].
        split; [rewrite <- Hsi; exact Hsv|]. split; [exact Hthrow|].
        split; [exact Hi'|].
        rewrite F2. unfold AlgUtilFacts.slot_after.
        rewrite Hb, <- Hsi, Hsv. reflexivity.
      * destruct (threw_false _ _ _ Ht) as [He0 Hnormal].
        rewrite He0.
        assert (Hcs : cancels = false) by (unfold cancels; reflexivity).
        assert (Hrest : rest' = rest) by (unfold rest'; rewrite Hcs; reflexivity).
        destruct (snd (shared tm)) as [e'|].
        -- destruct Hex as (j & bj & svj & Hj & Hbj & Hsvj & Hthrow & Hnot
                            & Hsj).
           exists j, bj, svj. repeat split; try assumption.
           ++ intros Hj'. apply Hnot, Hsub, Hj'.
           ++ assert (Hne : j <> i) by (intros ->; contradiction).
              rewrite F1 by exact Hne. exact Hsj.
        -- destruct Hex as [Hc Hnone]. rewrite Hc, Hcs.
           split; [reflexivity|].
           intros k bk svk Hk Hnot Hbk Hsvk.
           destruct (Nat.eq_dec k i) as [->|Hne].
           ++ apply (Hnormal bk svk Hbk). rewrite Hsi. exact Hsvk.
           ++ apply (Hnone k bk svk Hk); try assumption.
              intros Hk'. destruct (Hsame Hrest k Hk') as [->|Hk''].
              ** congruence.
              ** contradiction.
  - destruct (pending_shrinks before after i rest [] (or_intror eq_refl) Hnd)
      as (Hnd' & Hi' & Hi & Hsub & _ & _).
    constructor; unfold todo; simpl.
    + exact Hnd'.
    + intros k Hk. apply Hpend, Hsub, Hk.
    + exact Hslot.
    + discriminate.
    + intros Hv. rewrite (Hvar Hv) in Hc. discriminate.
    + destruct (snd (shared tm)) as [e'|].
      * destruct Hex as (j & bj & svj & Hj & Hbj & Hsvj & Hthrow & Hnot
                         & Hsj).
        exists j, bj, svj. repeat split; try assumption.
        intros Hj'. apply Hnot, Hsub, Hj'.
      * destruct Hex as [Hc' _]. rewrite Hc' in Hc. discriminate.
Qed.

Lemma invariant_runs (cancel_var : bool) (bodies : nat -> option Stmt)
    (n : nat) (sts : list SV) (tm tm' : Team) :
  omp_runs cancel_var bodies tm tm' ->
  region_invariant cancel_var bodies n sts tm ->
  region_invariant cancel_var bodies n sts tm'.
Proof.
  induction 1 as [tm|tm1 tm2 tm3 Hstep _ IH]; intros Hinv; [exact Hinv|].
  apply IH. exact (invariant_step _ _ _ _ _ _ Hstep Hinv).
Qed.

(** The region cannot run for ever: each step takes iterations away from
    those not yet started. *)
Lemma omp_step_decreases (cancel_var : bool) (bodies : nat -> option Stmt)
    (tm tm' : Team) :
  List.NoDup (todo tm) ->
  omp_step cancel_var bodies tm tm' ->
  length (todo tm') < length (todo tm).
Proof.
  intros Hnd Hstep.
  destruct Hstep as [tm before after i rest Hp
                    | tm before after i rest Hc Hp];
    unfold todo, after_iteration in *; simpl; rewrite Hp in *.
  - apply pending_shrinks; [|exact Hnd].
    destruct (threw bodies (shared tm) i && cancel_var);
      [right|left]; reflexivity.
  - apply (pending_shrinks before after i rest []);
      [right; reflexivity|exact Hnd].
Qed.

Lemma pending_next (p : list (list nat)) :
  concat p <> [] ->
  exists (before : list (list nat)) (i : nat) (rest : list nat)
         (after : list (list nat)),
    p = before ++ (i :: rest) :: after.
Proof.
  induction p as [|l p IH]; intros Hne; [destruct (Hne eq_refl)|].
  destruct l as [|i rest].
  - destruct (IH Hne) as (before & i & rest & after & ->).
    exists ([] :: before), i, rest, after. reflexivity.
  - exists [], i, rest, p. reflexivity.
Qed.

(** And it can always run to its end. *)
Lemma region_ends (cancel_var : bool) (bodies : nat -> option Stmt)
    (tm : Team) :
  List.NoDup (todo tm) ->
  exists tm' : Team, omp_runs cancel_var bodies tm tm' /\ finished tm'.
Proof.
  remember (length (todo tm)) as m eqn:Hm.
  revert tm Hm. induction m as [m IH] using lt_wf_ind. intros tm Hm Hnd.
  destruct (todo tm) as [|x l] eqn:Htodo.
  - exists tm. split; [apply omp_runs_refl|exact Htodo].
  - destruct (pending_next (pending tm)) as (before & i & rest & after & Hp).
    { unfold todo in Htodo. rewrite Htodo. discriminate. }
    pose proof (omp_iteration cancel_var bodies tm before after i rest Hp)
      as Hstep.
    assert (Hnd0 : List.NoDup (todo tm)) by (rewrite Htodo; exact Hnd).
    pose proof (omp_step_decreases _ _ _ _ Hnd0 Hstep) as Hlt.
    assert (Hnd' : List.NoDup
                     (todo (after_iteration cancel_var bodies tm before
                              after i rest))).
    { unfold todo, after_iteration. simpl. unfold todo in Hnd0.
      rewrite Hp in Hnd0. apply (pending_shrinks before after i rest);
        [|exact Hnd0].
      destruct (threw bodies (shared tm) i && cancel_var);
        [right|left]; reflexivity. }
    destruct (IH _ ltac:(rewrite Hm, <- Htodo; exact Hlt) _ eq_refl Hnd')
      as (tm' & Hruns & Hfin).
    exists tm'. split; [|exact Hfin].
    eapply omp_runs_step; [exact Hstep|exact Hruns].
Qed.

(** The loop has some way to end, whatever the distribution. *)
Lemma omp_for_ends (cancel_var : bool) (bodies : nat -> option Stmt)
    (n : nat) (sts : list SV) :
  exists r : list SV * Completion, omp_for cancel_var bodies n sts r.
Proof.
  assert (Hd : distribution n [seq 0 n])
    by (unfold distribution; simpl; rewrite app_nil_r; reflexivity).
  destruct (region_ends cancel_var bodies
              {| shared := (sts, None); cancelled := false;
                 pending := [seq 0 n] |}) as (tm & Hruns & Hfin).
  { apply (inv_nodup cancel_var bodies n sts).
    apply invariant_start. exact Hd. }
  exists (fst (shared tm), rethrow (snd (shared tm))).
  exists [seq 0 n], tm. repeat split; assumption.
Qed.

(** When the application for some index throws, every way the loop can
    end is by throwing. *)
Lemma omp_for_failure (cancel_var : bool) (bodies : nat -> option Stmt)
    (n : nat) (sts : list SV) (i : nat) (b : Stmt) (sv : SV) (e : Exn)
    (r : list SV * Completion) :
  i < n -> bodies i = Some b -> sts !! i = Some sv ->
  snd (b sv) = Throw e ->
  omp_for cancel_var bodies n sts r ->
  exists (e' : Exn) (j : nat) (bj : Stmt) (svj : SV),
    snd r = Throw e'
    /\ j < n /\ bodies j = Some bj /\ sts !! j = Some svj
    /\ snd (bj svj) = Throw e'
    /\ fst r !! j = Some (fst (bj svj))
    /\ (forall k : nat,
          fst r !! k = slot_after bodies sts k \/ fst r !! k = sts !! k)
    /\ (cancel_var = false ->
        forall k : nat, k < n -> fst r !! k = slot_after bodies sts k).
Proof.
  intros Hi Hb Hsv Hthrow (chunks & tm & Hd & Hruns & Hfin & ->).
  pose proof (invariant_runs cancel_var bodies n sts _ _ Hruns
                (invariant_start cancel_var bodies n sts chunks Hd))
    as [Hnd Hpend Hslot Hall Hvar Hex].
  unfold finished in Hfin. unfold todo in *. rewrite Hfin in *.
  cbn [fst snd].
  destruct (snd (shared tm)) as [e'|].
  - destruct Hex as (j & bj & svj & Hj & Hbj & Hsvj & Hthrown & _ & Hsj).
    exists e', j, bj, svj. repeat split; try assumption.
    intros Hv k Hk. apply (Hall (Hvar Hv) k Hk). intros [].
  - destruct Hex as [_ Hnone].
    rewrite (Hnone i b sv Hi (fun H => H) Hb Hsv) in Hthrow.
    discriminate.
Qed.

(** The loop of either batched call. *)
Definition batch_bodies (c : Batch) : nat -> option Stmt :=
  match c with
  | AlgUtilFacts.ObservablesBatch observables m =>
      fun h_i =>
        (fun ob sv =>
           applyObservable applyOperation applyMatrix ob
             (updateData sv (getDataVector (reference_state m))))
        <$> observables !! h_i
  | AlgUtilFacts.OperationsAdjBatch operations op_idx sts =>
      fun _ => Some (applyOperationAdj applyOperation operations op_idx)
  end.

Definition batch_size (c : Batch) : nat :=
  match c with
  | AlgUtilFacts.ObservablesBatch observables _ => length observables
  | AlgUtilFacts.OperationsAdjBatch _ _ sts => length sts
  end.

Lemma run_batch_omp_for (cancel_var : bool) (c : Batch)
    (r : list SV * Completion) :
  run_batch_omp cancel_var c r
  <-> omp_for cancel_var (batch_bodies c) (batch_size c) (batch_states c) r.
Proof.
  destruct c as [observables m | operations op_idx sts]; simpl;
    [|reflexivity].
  unfold applyObservables_omp. split.
  - intros ([m' c'] & (sts' & Hfor & Hm') & ->). simpl in *.
    subst m'. exact Hfor.
  - intros Hfor. destruct r as [sts' c'].
    exists ({| states := sts'; reference_state := reference_state m |}, c').
    split; [|reflexivity]. exists sts'. split; [exact Hfor|reflexivity].
Qed.

Lemma batch_iteration_bodies (c : Batch) (i : nat) (r : SV * Completion) :
  AlgUtilFacts.batch_iteration applyOperation applyMatrix c i = Some r
  <-> exists (b : Stmt) (sv : SV),
        i < batch_size c /\ batch_bodies c i = Some b
        /\ batch_states c !! i = Some sv /\ b sv = r.
Proof.
  destruct c as [observables m | operations op_idx sts]; simpl.
  - unfold AlgUtilFacts.observable_outcome. split.
    + destruct (observables !! i) as [ob|] eqn:Hob; [|discriminate].
      destruct (states m !! i) as [sv|] eqn:Hsv; [|discriminate].
      intros [= <-]. eexists _, sv.
      split; [eapply lookup_lt_Some; exact Hob|].
      split; [reflexivity|]. split; reflexivity.
    + intros (b & sv & Hi & Hb & Hsv & Hr).
      destruct (observables !! i) as [ob|]; [|discriminate].
      rewrite Hsv. simpl in Hb. injection Hb as <-. rewrite <- Hr.
      reflexivity.
  - split.
    + destruct (sts !! i) as [sv|] eqn:Hsv; [|discriminate].
      intros [= <-]. eexists _, sv.
      split; [eapply lookup_lt_Some; exact Hsv|].
      split; [reflexivity|]. split; reflexivity.
    + intros (b & sv & Hi & Hb & Hsv & Hr).
      rewrite Hsv. injection Hb as <-. rewrite <- Hr. reflexivity.
Qed.

(** C3: in the build with OpenMP, with cancellation enabled or not, for
    any number of threads, any distribution of the iterations and any
    interleaving: when the application for some index throws, the batched
    call ends, and every way it can end is by throwing one exception and
    not normally. The exception is that of an application that ran and
    threw, and its slot holds the state this application left. It is
    rethrown after every thread has left the loop: by then each slot holds
    what its application left or, when its iteration was cancelled, what it
    held before the call; with cancellation disabled no iteration is
    skipped. *)
Theorem parallel_failure_propagates_once (cancel_var : bool) (c : Batch)
    (i : nat) (sv : SV) (e : Exn) :
  AlgUtilFacts.batch_iteration applyOperation applyMatrix c i
  = Some (sv, Throw e) ->
  (exists r : list SV * Completion, run_batch_omp cancel_var c r)
  /\ forall r : list SV * Completion,
       run_batch_omp cancel_var c r ->
       exists (e' : Exn) (j : nat) (svj : SV),
         snd r = Throw e'
         /\ snd r <> Normal
         /\ AlgUtilFacts.batch_iteration applyOperation applyMatrix c j
            = Some (svj, Throw e')
         /\ fst r !! j = Some svj
         /\ (forall (k : nat) (rk : SV * Completion),
               AlgUtilFacts.batch_iteration applyOperation applyMatrix c k
               = Some rk ->
               fst r !! k = Some (fst rk)
               \/ fst r !! k = batch_states c !! k)
         /\ (cancel_var = false ->
             forall (k : nat) (rk : SV * Completion),
               AlgUtilFacts.batch_iteration applyOperation applyMatrix c k
               = Some rk ->
               fst r !! k = Some (fst rk)).
Proof.
  intros Hthrow. split.
  - destruct (omp_for_ends cancel_var (batch_bodies c) (batch_size c)
                (batch_states c)) as [r Hr].
    exists r. apply run_batch_omp_for. exact Hr.
  - intros r Hr. apply run_batch_omp_for in Hr.
    apply batch_iteration_bodies in Hthrow.
    destruct Hthrow as (b & sv0 & Hi & Hb & Hsv0 & Hbsv).
    destruct (omp_for_failure cancel_var _ _ _ i b sv0 e r Hi Hb Hsv0
                ltac:(rewrite Hbsv; reflexivity) Hr)
      as (e' & j & bj & svj & He' & Hj & Hbj & Hsvj & Hthrown & Hsj
          & Hslots & Hall).
    exists e', j, (fst (bj svj)).
    split; [exact He'|]. split; [rewrite He'; discriminate|].
    split; [|split; [exact Hsj|split]].
    + apply batch_iteration_bodies. exists bj, svj.
      repeat split; try assumption.
      destruct (bj svj) as [s0 c0]. simpl in *. rewrite Hthrown.
      reflexivity.
    + intros k rk Hk. apply batch_iteration_bodies in Hk.
      destruct Hk as (bk & svk & Hkn & Hbk & Hsvk & <-).
      destruct (Hslots k) as [H|H]; [left|right; exact H].
      rewrite H. unfold AlgUtilFacts.slot_after. rewrite Hbk, Hsvk.
      reflexivity.
    + intros Hv k rk Hk. apply batch_iteration_bodies in Hk.
      destruct Hk as (bk & svk & Hkn & Hbk & Hsvk & <-).
      rewrite (Hall Hv k Hkn). unfold AlgUtilFacts.slot_after.
      rewrite Hbk, Hsvk. reflexivity.
Qed.

(** The loop in index order of the build without OpenMP is one of the
    runs: those of one thread that ignores [cancel for]. *)
Lemma serial_run (bodies : nat -> option Stmt) (l : list nat) :
  forall st : Captured,
    omp_runs false bodies
      {| shared := st; cancelled := false; pending := [l] |}
      {| shared := fold_left (step bodies) l st; cancelled := false;
         pending := [[]] |}.
Proof.
  induction l as [|i l IH]; intros st; [apply omp_runs_refl|].
  eapply omp_runs_step.
  - apply (omp_iteration false bodies _ [] [] i l). reflexivity.
  - unfold after_iteration. cbn [shared cancelled pending].
    rewrite andb_false_r. cbn [app orb]. apply IH.
Qed.

Lemma serial_loop_is_a_run (bodies : nat -> option Stmt) (n : nat)
    (sts : list SV) :
  omp_for false bodies n sts
    (fst (AlgUtilFacts.loop CFP_t Exn bodies n (sts, None)),
     rethrow (snd (AlgUtilFacts.loop CFP_t Exn bodies n (sts, None)))).
Proof.
  exists [seq 0 n], {| shared := fold_left (step bodies) (seq 0 n) (sts, None);
                       cancelled := false; pending := [[]] |}.
  split; [unfold distribution; simpl; rewrite app_nil_r; reflexivity|].
  split; [apply serial_run|]. split; reflexivity.
Qed.

Lemma run_batch_is_a_run (c : Batch) :
  run_batch_omp false c
    (AlgUtilFacts.run_batch applyOperation applyMatrix c).
Proof.
  apply run_batch_omp_for.
  destruct c as [observables m | operations op_idx sts];
    cbn [batch_bodies batch_size batch_states]; unfold AlgUtilFacts.run_batch.
  - rewrite AlgUtilFacts.applyObservables_loop. cbn [fst snd states].
    exact (serial_loop_is_a_run
             (AlgUtilFacts.observable_bodies CFP_t T Exn applyOperation
                applyMatrix observables (reference_state m))
             (length observables) (states m)).
  - apply serial_loop_is_a_run.
Qed.

End Region.

Arguments shared {CFP_t Exn} t.
Arguments cancelled {CFP_t Exn} t.
Arguments pending {CFP_t Exn} t.
Arguments Build_Team {CFP_t Exn} shared cancelled pending.
Arguments omp_for {CFP_t Exn} cancel_var bodies n sts r.
Arguments applyObservables_omp {CFP_t T Exn} applyOperation applyMatrix
  cancel_var observables m r.
Arguments applyOperationsAdj_omp {CFP_t T Exn} applyOperation cancel_var
  operations op_idx sts r.
Arguments run_batch_omp {CFP_t T Exn} applyOperation applyMatrix cancel_var
  c r.
Arguments batch_states {CFP_t T} c.

(** Three observables over three state copies for the one-qubit
    dispatcher, which does not know the second. *)
Definition failing_batch : AlgUtilFacts.Batch (Z * Z) float :=
  AlgUtilFacts.ObservablesBatch
    [AlgUtilFacts.named_observable "PauliX";
     AlgUtilFacts.named_observable "Toffoli";
     AlgUtilFacts.named_observable "S"] AlgUtilFacts.memory_1q.

Lemma parallel_failure_propagates_once_witness :
  AlgUtilFacts.batch_iteration AlgUtilFacts.applyOperation_1q
    AlgUtilFacts.applyMatrix_1q failing_batch 1
  = Some (AlgUtilFacts.ket (1, 0)%Z (0, 2)%Z,
          Throw "unknown gate Toffoli"%string)
  /\ (exists r : list (StateVectorManaged (Z * Z)) * Completion string,
        run_batch_omp AlgUtilFacts.applyOperation_1q
          AlgUtilFacts.applyMatrix_1q true failing_batch r)
  /\ forall r : list (StateVectorManaged (Z * Z)) * Completion string,
       run_batch_omp AlgUtilFacts.applyOperation_1q
         AlgUtilFacts.applyMatrix_1q true failing_batch r ->
       snd r <> Normal.
Proof.
  split; [reflexivity|].
  destruct (parallel_failure_propagates_once (Z * Z) float string
              AlgUtilFacts.applyOperation_1q AlgUtilFacts.applyMatrix_1q
              true failing_batch 1
              (AlgUtilFacts.ket (1, 0)%Z (0, 2)%Z)
              "unknown gate Toffoli"%string eq_refl) as [Hex Hall].
  split; [exact Hex|].
  intros r Hr. destruct (Hall r Hr) as (e' & j & svj & _ & Hne & _).
  exact Hne.
Defined.

(** A run that the build without OpenMP does not have. Two threads, the
    first with the iterations 0 and 1, the second with iteration 2, and
    cancellation enabled: the first thread applies PauliX, fails on
    Toffoli and cancels the loop; the second leaves the loop before it has
    started its iteration. The third slot is as it was before the call,
    and the exception reaches the caller. *)
Example cancelled_run_skips_an_iteration :
  run_batch_omp AlgUtilFacts.applyOperation_1q AlgUtilFacts.applyMatrix_1q
    true failing_batch
    ([AlgUtilFacts.ket (0, 2)%Z (1, 0)%Z; AlgUtilFacts.ket (1, 0)%Z (0, 2)%Z;
      AlgUtilFacts.ket (5, 0)%Z (0, 5)%Z],
     Throw "unknown gate Toffoli"%string)
  /\ fst (AlgUtilFacts.run_batch AlgUtilFacts.applyOperation_1q
            AlgUtilFacts.applyMatrix_1q failing_batch)
     = [AlgUtilFacts.ket (0, 2)%Z (1, 0)%Z; AlgUtilFacts.ket (1, 0)%Z (0, 2)%Z;
        AlgUtilFacts.ket (1, 0)%Z (-2, 0)%Z].
Proof.
  split; [|reflexivity].
  apply run_batch_omp_for.
  exists [[0; 1]; [2]]. eexists.
  split; [unfold distribution; simpl; reflexivity|]. split.
  - eapply omp_runs_step;
      [apply (omp_iteration _ _ _ _ _ [] [[2]] 0 [1]); reflexivity|].
    eapply omp_runs_step;
      [apply (omp_iteration _ _ _ _ _ [] [[2]] 1 []); reflexivity|].
    eapply omp_runs_step;
      [apply (omp_leave _ _ _ _ _ [[]] [] 2 []); reflexivity|].
    apply omp_runs_refl.
  - split; reflexivity.
Qed.

End AlgUtilOpenMP.
